(** * The persistent longest-prefix-match trie of package [ipv6]

    A shallow embedding of [ipv6/node.go]: the containership primitive
    [contains]/[compare], the path-copying operations [insert], [del],
    [GetOrInsert], the lookup [Match], the structural comparison [Equal] and
    the test-only validity check [isValidLen], followed by the properties
    proved about them. *)

From Stdlib Require Import ZArith Bool List Lia String Permutation.
From coqutil Require Import Z.PushPullMod.
Import ListNotations.
Local Open Scope Z_scope.

(** ** Machine integers *)

Definition uint16 (z : Z) : Z := z mod 2 ^ 16.
Definition uint32 (z : Z) : Z := z mod 2 ^ 32.

Definition intMin (a b : Z) : Z := if a <? b then a else b.
Definition intMax (a b : Z) : Z := if a <? b then b else a.

(** ** 128-bit keys *)

(** Modelled from the spec: the type [uint128] and its methods [and], [xor],
    [complement], [leftShift], [rightShift] and [leadingZeros] are declared
    outside [node.go]. Following the spec's BitKey (an unsigned integer of
    exactly W = 128 bits, bit 0 the most significant, with AND, XOR, NOT,
    logical shifts by 0..W and a count of leading zeros), a key is an
    integer in [0, 2^128); the literal [uint128{hi, lo}] is [mk hi lo]. *)
Module Uint128.

Definition uint128 := Z.

Definition mk (hi lo : Z) : uint128 := Z.lor (Z.shiftl hi 64) lo.

Definition zero : uint128 := 0.

Definition and (x y : uint128) : uint128 := Z.land x y.

Definition xor (x y : uint128) : uint128 := Z.lxor x y.

Definition complement (x : uint128) : uint128 := Z.lxor x (Z.ones 128).

(* A shift by 128 or more positions leaves no bit. *)
Definition leftShift (x : uint128) (bits : Z) : uint128 :=
  if 128 <=? bits then 0 else Z.shiftl x bits mod 2 ^ 128.

Definition rightShift (x : uint128) (bits : Z) : uint128 :=
  if 128 <=? bits then 0 else Z.shiftr x bits.

Definition leadingZeros (x : uint128) : Z :=
  if x =? 0 then 128 else 127 - Z.log2 x.

Definition eqb (x y : uint128) : bool := x =? y.

End Uint128.

(** ** Prefixes *)

(** Modelled from the spec: [Address] and [Prefix] are declared outside
    [node.go]; their fields are the ones [node.go] reads and writes
    ([p.addr.ui], [p.length]). A prefix is the spec's pair of a W-bit
    address and a length ([uint32]) in 0..W; the host bits beyond [length]
    are kept as they were given. *)
Record Address := mkAddress { ui : Uint128.uint128 }.

Record Prefix := mkPrefix { addr : Address; length : Z }.

(* Go's [==] on the two structs: field by field, host bits included. *)
Definition Prefix_eqb (a b : Prefix) : bool :=
  Uint128.eqb (ui (addr a)) (ui (addr b)) && (length a =? length b).

(* The values the type is built with: 128 bits and a length in 0..128. *)
Definition wfPrefix (p : Prefix) : Prop :=
  0 <= ui (addr p) < 2 ^ 128 /\ 0 <= length p <= 128.

Definition wfPrefixb (p : Prefix) : bool :=
  (0 <=? ui (addr p)) && (ui (addr p) <? 2 ^ 128)
  && (0 <=? length p) && (length p <=? 128).

(* Bit [i] of a key, counted from the most significant one. *)
Definition bit_at (x : Z) (i : Z) : bool := Z.testbit x (127 - i).

(* The first [n] bits of a key, as a number. *)
Definition first_bits (n : Z) (x : Z) : Z := Z.shiftr x (128 - n).

(* Two keys agree on their first [n] bits. *)
Definition agreeb (n : Z) (x y : Z) : bool := first_bits n x =? first_bits n y.

(* The entry prefix [e] contains the search key [k]: [k] is at least as long
   and the first [length e] bits are the same. *)
Definition containsKey (e k : Prefix) : bool :=
  (length e <=? length k) && agreeb (length e) (ui (addr e)) (ui (addr k)).

(** ** Containership *)

Definition contains (shorter longer : Prefix) : bool * bool * Z * Z :=
  let mask :=
    Uint128.leftShift (Uint128.mk 0xffffffffffffffff 0xffffffffffffffff)
                      (uint32 (128 - length shorter)) in
  let matches :=
    Uint128.eqb (Uint128.and (ui (addr shorter)) mask)
                (Uint128.and (ui (addr longer)) mask) in
  let exact := if matches then length shorter =? length longer else false in
  let common :=
    if matches then length shorter
    else uint32 (Uint128.leadingZeros
                   (Uint128.xor (ui (addr shorter)) (ui (addr longer)))) in
  let child :=
    if negb exact then
      let pivotMask := Uint128.rightShift (Uint128.mk 0x8000000000000000 0) common in
      if negb (Uint128.eqb (Uint128.and (ui (addr longer)) pivotMask) Uint128.zero)
      then 1 else 0
    else 0 in
  (matches, exact, common, child).

Inductive compareResult : Set :=
| compareSame
| compareContains      (* second key is a subset of the first *)
| compareIsContained   (* second key is a superset of the first *)
| compareDisjoint.

Definition compare (a b : Prefix) : compareResult * bool * Z * Z :=
  let reversed := length b <? length a in
  let '(aMatch, bMatch, common, child) :=
    if reversed
    then let '(bM, aM, c, ch) := contains b a in (aM, bM, c, ch)
    else contains a b in
  let result :=
    if aMatch then (if bMatch then compareSame else compareContains)
    else (if bMatch then compareIsContained else compareDisjoint) in
  (result, reversed, common, child).

Definition reverseChild (child : Z) : Z := (child + 1) mod 2.

(* The child index is 0 or 1; as a bit it is the test [child <> 0]. *)
Definition childBit (child : Z) : bool := negb (child =? 0).

(** ** Allocation and panics

    A computation takes the next free address and either returns a value with
    the address that is free afterwards, or panics with a message, at the
    address that was free when it panicked. *)

Definition ptr := positive.

Inductive outcome (A : Type) : Type :=
| Done (a : A) (next : ptr)
| Panic (msg : string) (next : ptr).
Arguments Done {A} a next.
Arguments Panic {A} msg next.

Definition M (A : Type) : Type := ptr -> outcome A.

Definition ret {A} (a : A) : M A := fun s => Done a s.

Definition bind {A B} (m : M A) (f : A -> M B) : M B :=
  fun s => match m s with
           | Done a s' => f a s'
           | Panic msg s' => Panic msg s'
           end.

Definition panic {A} (msg : string) : M A := fun s => Panic msg s.

(* A deferred function that runs when the body panics: [handler] gets the
   message of the panic; the panic goes on with what [handler] gives. *)
Definition onPanic {A} (m : M A) (handler : string -> M A) : M A :=
  fun s => match m s with
           | Done a s' => Done a s'
           | Panic msg s' => handler msg s'
           end.

(* [&trieNode{...}]: a new address. *)
Definition alloc : M ptr := fun s => Done s (Pos.succ s).

Notation "x <- m ;; k" := (bind m (fun x => k))
  (at level 61, m at next level, right associativity).
Notation "' pat <- m ;; k" := (bind m (fun x => match x with pat => k end))
  (at level 61, pat pattern, m at next level, right associativity).

Definition error := string.

Definition errNoUpdate : error := "the key doesn't exist to update"%string.
Definition errExists : error := "a node with that key already exists"%string.
Definition errDeleteNil : error := "cannot delete from a nil"%string.
Definition errNotFound : error := "key not found"%string.

(* The run-time panic of [==] on two interface values whose common dynamic
   type is not comparable (a slice, a map, a function); Go appends the name
   of the type. *)
Definition errUncomparable : string :=
  "runtime error: comparing uncomparable type"%string.

(* Go's [==] on two non-nil interface values, as [copyMutate] applies it to
   the stored data: [Some b] is the answer, [None] the run-time panic. No
   law is assumed: a NaN is not equal to itself. *)
Class GoEq (A : Type) : Type := go_eq : A -> A -> option bool.

(* Integers. *)
#[export] Instance Z_GoEq : GoEq Z := fun x y => Some (x =? y).

(** ** Trie nodes

    A value of [trieNode] stands for a Go [*trieNode]: [nil], or the address
    of a node together with the struct stored there. Nodes reachable from a
    root are never written again, so the struct can travel with its address;
    pointer comparison is comparison of addresses. *)

Section Trie.

Context {V : Type} {V_eq : GoEq V}.

(* [interface{}]: [None] is the nil interface. *)
Definition Data := option V.

(* [a == b] on two interface values: two nil interfaces are equal, a nil
   and a non-nil one are not, two non-nil ones compare by [go_eq]. *)
Definition Data_eqb (a b : Data) : option bool :=
  match a, b with
  | None, None => Some true
  | Some x, Some y => go_eq x y
  | _, _ => Some false
  end.

Definition comparator := Data -> Data -> bool.

Inductive trieNode : Type :=
| nil
| Node (p : ptr) (Prefix' : Prefix) (Data' : Data) (size : Z) (h : Z)
       (isActive : bool) (child0 child1 : trieNode).

Definition isNil (n : trieNode) : bool :=
  match n with nil => true | Node _ _ _ _ _ _ _ _ => false end.

(* [a == b] on two pointers. *)
Definition ptr_eqb (a b : trieNode) : bool :=
  match a, b with
  | nil, nil => true
  | Node p _ _ _ _ _ _ _, Node q _ _ _ _ _ _ _ => Pos.eqb p q
  | _, _ => false
  end.

(* [*a == *b] on two non-nil pointers: the fields in their order, children
   by address. The comparison stops at the first field that differs, so the
   data are compared, and can panic, only when the prefixes are equal. *)
Definition struct_eqb (a b : trieNode) : option bool :=
  match a, b with
  | Node _ k1 d1 s1 h1 a1 l1 r1, Node _ k2 d2 s2 h2 a2 l2 r2 =>
      if negb (Prefix_eqb k1 k2) then Some false
      else
        match Data_eqb d1 d2 with
        | None => None
        | Some false => Some false
        | Some true =>
            Some ((s1 =? s2) && (h1 =? h2) && Bool.eqb a1 a2
                  && ptr_eqb l1 l2 && ptr_eqb r1 r2)
        end
  | _, _ => Some false
  end.

(* [me.children[i]]; the index is always 0 or 1. *)
Definition children (me : trieNode) (i : Z) : trieNode :=
  match me with
  | nil => nil
  | Node _ _ _ _ _ _ c0 c1 => if i =? 0 then c0 else c1
  end.

(* The field writes the mutators perform. *)
Definition set_isActive (b : bool) (n : trieNode) : trieNode :=
  match n with
  | nil => nil
  | Node p k d s h _ c0 c1 => Node p k d s h b c0 c1
  end.

Definition set_Data (d : Data) (n : trieNode) : trieNode :=
  match n with
  | nil => nil
  | Node p k _ s h a c0 c1 => Node p k d s h a c0 c1
  end.

Definition set_child (i : Z) (c : trieNode) (n : trieNode) : trieNode :=
  match n with
  | nil => nil
  | Node p k d s h a c0 c1 =>
      if i =? 0 then Node p k d s h a c c1 else Node p k d s h a c0 c
  end.

Definition set_children (l r : trieNode) (n : trieNode) : trieNode :=
  match n with
  | nil => nil
  | Node p k d s h a _ _ => Node p k d s h a l r
  end.

Definition active (me : trieNode) : bool :=
  match me with
  | nil => false
  | Node _ _ _ _ _ a _ _ => a
  end.

Definition NumNodes (me : trieNode) : Z :=
  match me with
  | nil => 0
  | Node _ _ _ s _ _ _ _ => s
  end.

Definition height (me : trieNode) : Z :=
  match me with
  | nil => 0
  | Node _ _ _ _ h _ _ _ => h
  end.

Fixpoint IsEmpty (me : trieNode) : bool :=
  match me with
  | nil => true
  | Node _ _ _ _ _ a c0 c1 => if a then false else IsEmpty c0 && IsEmpty c1
  end.

(* [mutate] runs the mutator on the node and recomputes the cached size and
   height. *)
Definition mutate (me : trieNode) (mutator : trieNode -> trieNode) : trieNode :=
  match me with
  | nil => nil
  | Node _ _ _ _ _ _ _ _ =>
      match mutator me with
      | nil => nil
      | Node p k d _ _ a c0 c1 =>
          let numNodes := NumNodes c0 + NumNodes c1 in
          let height' := 1 + intMax (height c0) (height c1) in
          let size := uint32 numNodes in
          Node p k d (if a then uint32 (size + 1) else size) (uint16 height') a c0 c1
      end
  end.

(* [copyMutate] works on a copy at a new address and gives the original back
   when the copy came out equal to it; the comparison [*mutated == *me]
   panics on data that Go cannot compare. *)
Definition copyMutate (me : trieNode) (mutator : trieNode -> trieNode) : M trieNode :=
  match me with
  | nil => ret nil
  | Node _ k d s h a c0 c1 =>
      p <- alloc ;;
      let doppelganger := Node p k d s h a c0 c1 in
      let mutated := mutate doppelganger mutator in
      match struct_eqb mutated me with
      | None => panic errUncomparable
      | Some true => ret me
      | Some false => ret mutated
      end
  end.

(* [&trieNode{Prefix: key, Data: data}] *)
Definition newNode (key : Prefix) (data : Data) : M trieNode :=
  p <- alloc ;;
  ret (Node p key data 0 0 false nil nil).

(** ** Equal *)

Fixpoint Equal (me other : trieNode) (eq : comparator) {struct me} : bool :=
  if ptr_eqb me other then true
  else
    match me, other with
    | nil, _ => false
    | _, nil => false
    | Node _ k1 d1 _ _ a1 l1 r1, Node _ k2 d2 _ _ a2 l2 r2 =>
        if negb (Bool.eqb a1 a2) then false
        else if negb (Prefix_eqb k1 k2) then false
        else if a1 && negb (eq d1 d2) then false
        else if negb (Equal l1 l2 eq) then false
        else if negb (Equal r1 r2 eq) then false
        else true
    end.

(** ** Match *)

Fixpoint Match (me : trieNode) (searchKey : Prefix) : trieNode :=
  match me with
  | nil => nil
  | Node _ nodeKey _ _ _ a c0 c1 =>
      if length searchKey <? length nodeKey then nil
      else
        let '(matches, exact, _, child) := contains nodeKey searchKey in
        if negb matches then nil
        else
          let better :=
            if negb exact then Match (if child =? 0 then c0 else c1) searchKey
            else nil in
          if negb (isNil better) then better
          else if negb a then nil
          else me
  end.

(** ** isValid *)

Fixpoint isValidLen (me : trieNode) (minLen : Z) : bool :=
  match me with
  | nil => true
  | Node _ k _ sz ht a l r =>
      let size := if a then uint32 (sz - 1) else sz in
      if negb a && (isNil l || isNil r) then false
      else if negb (size =? uint32 (NumNodes l + NumNodes r)) then false
      else if negb (ht =? uint16 (1 + uint16 (intMax (height l) (height r))))
      then false
      else if length k <? minLen then false
      else isValidLen l (uint32 (length k + 1))
           && isValidLen r (uint32 (length k + 1))
  end.

Definition isValid (me : trieNode) : bool := isValidLen me 0.

(** ** insert *)

Record insertOpts := mkInsertOpts {
  optInsert : bool;
  optUpdate : bool;
  optEq : option comparator   (* [None] is the nil func *)
}.

Definition callEq (eq : option comparator) (a b : Data) : M bool :=
  match eq with
  | Some f => ret (f a b)
  | None => panic "invalid memory address or nil pointer dereference"
  end.

(* The result of [insert] is the new head, the error, and the struct that
   [node] points to when the call returns: [insert] writes to it in place. *)
Definition insertResult : Type := trieNode * option error * trieNode.

(* [insert] on the nil receiver. *)
Definition insertNil (node : trieNode) (opts : insertOpts) : M insertResult :=
  if negb (optInsert opts) then ret (nil, Some errNoUpdate, node)
  else
    let node' := mutate node (set_isActive true) in
    ret (node', None, node').

Fixpoint insert (me node : trieNode) (opts : insertOpts) {struct me} : M insertResult :=
  match me with
  | nil => insertNil node opts
  | Node _ meKey meData _ _ meActive c0 c1 =>
      match node with
      | nil => panic "invalid memory address or nil pointer dereference"
      | Node _ nodeKey nodeData _ _ _ _ _ =>
          let '(result, reversed, common, child) := compare meKey nodeKey in
          match result with
          | compareSame =>
              if meActive && negb (optUpdate opts) then ret (me, Some errExists, node)
              else if negb meActive && negb (optInsert opts)
              then ret (me, Some errNoUpdate, node)
              else
                (* the mutator's test, evaluated as it runs first *)
                same <- (if meActive then callEq (optEq opts) meData nodeData
                         else ret false) ;;
                let node' :=
                  mutate node (fun n =>
                    set_isActive true
                      (set_children c0 c1 (if same then set_Data meData n else n))) in
                ret (node', None, node')
          | compareContains =>
              r <- insert (if child =? 0 then c0 else c1) node opts ;;
              let '(newChild, err, node') := r in
              match err with
              | Some e => ret (me, Some e, node')
              | None =>
                  newNode <- copyMutate me (set_child child newChild) ;;
                  ret (newNode, None, node')
              end
          | compareIsContained =>
              if negb (optInsert opts) then ret (me, Some errNoUpdate, node)
              else
                let node' :=
                  mutate node (fun n => set_isActive true (set_child child me n)) in
                ret (node', None, node')
          | compareDisjoint =>
              r <- insertNil node opts ;;
              let '(newChild, err, node') := r in
              match err with
              | Some e => ret (me, Some e, node')
              | None =>
                  let '(l, r) :=
                    if negb (Bool.eqb (child =? 1) reversed)
                    then (me, newChild) else (newChild, me) in
                  p <- alloc ;;
                  let newNode :=
                    Node p
                      (mkPrefix
                         (mkAddress
                            (Uint128.and (ui (addr meKey))
                               (Uint128.complement
                                  (Uint128.rightShift
                                     (Uint128.mk 0xffffffffffffffff 0xffffffffffffffff)
                                     common))))
                         common)
                      None 0 0 false l r in
                  ret (mutate newNode (fun n => n), None, node')
              end
          end
      end
  end.

Definition Update (me : trieNode) (key : Prefix) (data : Data) (eq : option comparator)
  : M (trieNode * option error) :=
  node <- newNode key data ;;
  r <- insert me node (mkInsertOpts false true eq) ;;
  ret (fst (fst r), snd (fst r)).

Definition InsertOrUpdate (me : trieNode) (key : Prefix) (data : Data)
  (eq : option comparator) : M trieNode :=
  node <- newNode key data ;;
  r <- insert me node (mkInsertOpts true true eq) ;;
  match snd (fst r) with
  | Some e => panic ("this error shouldn't happen: " ++ e)
  | None => ret (fst (fst r))
  end.

Definition Insert (me : trieNode) (key : Prefix) (data : Data)
  : M (trieNode * option error) :=
  node <- newNode key data ;;
  r <- insert me node (mkInsertOpts true false None) ;;
  ret (fst (fst r), snd (fst r)).

(** ** GetOrInsert *)

(* The deferred function: it runs on every return of [GetOrInsert], with the
   named results [head] and [result] as the returning path left them. *)
Definition getOrInsertDeferred (me : trieNode) (searchKey : Prefix) (data : Data)
  (rets : trieNode * trieNode) : M (trieNode * trieNode) :=
  let '(head, result) := rets in
  if isNil result then
    result <- newNode searchKey data ;;
    r <- insert me result (mkInsertOpts true false None) ;;
    match snd (fst r) with
    | Some e => panic ("this error shouldn't happen: " ++ e)
    | None => ret (fst (fst r), snd r)
    end
  else ret (head, result).

(* The deferred function when the body panicked with [msg]; [result] is the
   named result as the body left it. Where [result] is still nil it does its
   insert, and then the panic goes on: with the message of the deferred
   function's own panic where the insert returned an error, with the message
   of the insert where that panicked, and with [msg] otherwise. *)
Definition getOrInsertPanicking {A} (me : trieNode) (searchKey : Prefix)
  (data : Data) (result : trieNode) (msg : string) : M A :=
  if isNil result then
    result <- newNode searchKey data ;;
    r <- insert me result (mkInsertOpts true false None) ;;
    match snd (fst r) with
    | Some e => panic ("this error shouldn't happen: " ++ e)
    | None => panic msg
    end
  else panic msg.

Fixpoint GetOrInsert (me : trieNode) (searchKey : Prefix) (data : Data) {struct me}
  : M (trieNode * trieNode) :=
  match me with
  | nil => getOrInsertDeferred me searchKey data (nil, nil)
  | Node _ meKey _ _ _ meActive c0 c1 =>
      if length searchKey <? length meKey
      then getOrInsertDeferred me searchKey data (nil, nil)
      else
        let '(matches, exact, _, child) := contains meKey searchKey in
        if negb matches then getOrInsertDeferred me searchKey data (nil, nil)
        else if negb exact then
          (* a panic of the call leaves [result] nil, one of [copyMutate]
             leaves it as the call returned it *)
          r <- onPanic (GetOrInsert (if child =? 0 then c0 else c1) searchKey data)
                       (getOrInsertPanicking me searchKey data nil) ;;
          let '(newChild, result) := r in
          head <- onPanic (copyMutate me (set_child child newChild))
                          (getOrInsertPanicking me searchKey data result) ;;
          getOrInsertDeferred me searchKey data (head, result)
        else if negb meActive then getOrInsertDeferred me searchKey data (nil, nil)
        else getOrInsertDeferred me searchKey data (me, me)
  end.

(** ** del *)

Record deleteOpts := mkDeleteOpts { flatten : bool }.

Fixpoint del (me : trieNode) (key : Prefix) (opts : deleteOpts) {struct me}
  : M (trieNode * option error) :=
  match me with
  | nil =>
      if flatten opts then ret (nil, None) else ret (me, Some errDeleteNil)
  | Node _ meKey _ _ _ meActive c0 c1 =>
      let '(result, _, _, child) := compare meKey key in
      match result with
      | compareSame =>
          if flatten opts then ret (nil, None)
          else if isNil c0 then ret (c1, None)
          else if isNil c1 then ret (c0, None)
          else
            newNode <- copyMutate me (fun n => set_Data None (set_isActive false n)) ;;
            ret (newNode, None)
      | compareContains =>
          r <- del (if child =? 0 then c0 else c1) key opts ;;
          let '(newChild, err) := r in
          match err with
          | Some e => ret (me, Some e)
          | None =>
              if isNil newChild && negb meActive
              then ret (children me (reverseChild child), None)
              else
                newNode <- copyMutate me (set_child child newChild) ;;
                ret (newNode, None)
          end
      | compareIsContained =>
          if flatten opts then ret (nil, None) else ret (me, Some errNotFound)
      | compareDisjoint => ret (me, Some errNotFound)
      end
  end.

Definition Delete (me : trieNode) (key : Prefix) : M (trieNode * option error) :=
  del me key (mkDeleteOpts false).

(** ** Sequences of operations on a root *)

Inductive op : Type :=
| OpInsert (key : Prefix) (data : Data)
| OpUpdate (key : Prefix) (data : Data) (eq : comparator)
| OpInsertOrUpdate (key : Prefix) (data : Data) (eq : comparator)
| OpGetOrInsert (key : Prefix) (data : Data)
| OpDelete (key : Prefix).

Definition opKey (o : op) : Prefix :=
  match o with
  | OpInsert k _ | OpUpdate k _ _ | OpInsertOrUpdate k _ _
  | OpGetOrInsert k _ | OpDelete k => k
  end.

(* The value an operation stores, none for a deletion. *)
Definition opData (o : op) : Data :=
  match o with
  | OpInsert _ d | OpUpdate _ d _ | OpInsertOrUpdate _ d _
  | OpGetOrInsert _ d => d
  | OpDelete _ => None
  end.

(* One operation; the root becomes the head the operation returns. *)
Definition applyOp (root : trieNode) (o : op) : M trieNode :=
  match o with
  | OpInsert k d => r <- Insert root k d ;; ret (fst r)
  | OpUpdate k d eq => r <- Update root k d (Some eq) ;; ret (fst r)
  | OpInsertOrUpdate k d eq => InsertOrUpdate root k d (Some eq)
  | OpGetOrInsert k d => r <- GetOrInsert root k d ;; ret (fst r)
  | OpDelete k => r <- Delete root k ;; ret (fst r)
  end.

(* The roots after each operation of the sequence, in order. *)
Fixpoint runOps (root : trieNode) (ops : list op) : M (list trieNode) :=
  match ops with
  | [] => ret []
  | o :: rest =>
      root' <- applyOp root o ;;
      roots <- runOps root' rest ;;
      ret (root' :: roots)
  end.

(** ** Invariants of a trie *)

Definition prefixOf (t : trieNode) : Prefix :=
  match t with
  | nil => mkPrefix (mkAddress 0) 0
  | Node _ k _ _ _ _ _ _ => k
  end.

Definition dataOf (t : trieNode) : Data :=
  match t with
  | nil => None
  | Node _ _ d _ _ _ _ _ => d
  end.

(* The address a non-nil pointer holds. *)
Definition addrOf (t : trieNode) : ptr :=
  match t with
  | nil => 1%positive
  | Node p _ _ _ _ _ _ _ => p
  end.

(* Every node of a trie, the root first. *)
Fixpoint nodes (t : trieNode) : list trieNode :=
  match t with
  | nil => []
  | Node _ _ _ _ _ _ c0 c1 => t :: nodes c0 ++ nodes c1
  end.

(* The key [kc] belongs below the key [k], on the side of bit [b]: it is
   longer, shares the first [length k] bits, and its next bit is [b]. *)
Definition underK (k : Prefix) (b : bool) (kc : Prefix) : Prop :=
  length k < length kc
  /\ agreeb (length k) (ui (addr k)) (ui (addr kc)) = true
  /\ bit_at (ui (addr kc)) (length k) = b.

Definition under (k : Prefix) (b : bool) (c : trieNode) : Prop :=
  match c with
  | nil => True
  | Node _ kc _ _ _ _ _ _ => underK k b kc
  end.

(* Every child is keyed below its parent, in the slot of its next bit. *)
Fixpoint shaped (t : trieNode) : Prop :=
  match t with
  | nil => True
  | Node _ k _ _ _ _ c0 c1 =>
      wfPrefix k /\ under k false c0 /\ under k true c1
      /\ shaped c0 /\ shaped c1
  end.

(* The size and the height that [mutate] stores. *)
Definition sizeOf (a : bool) (c0 c1 : trieNode) : Z :=
  let size := uint32 (NumNodes c0 + NumNodes c1) in
  if a then uint32 (size + 1) else size.

Definition heightOf (c0 c1 : trieNode) : Z :=
  uint16 (1 + intMax (height c0) (height c1)).

(* The cached fields are up to date and no inactive node lacks a child. *)
Fixpoint counted (t : trieNode) : Prop :=
  match t with
  | nil => True
  | Node _ _ _ sz ht a c0 c1 =>
      sz = sizeOf a c0 c1 /\ ht = heightOf c0 c1
      /\ (a = false -> isNil c0 = false /\ isNil c1 = false)
      /\ counted c0 /\ counted c1
  end.

Definition good (t : trieNode) : Prop := shaped t /\ counted t.

(* Every address used in the trie was handed out before [next]. *)
Fixpoint allocated (next : ptr) (t : trieNode) : Prop :=
  match t with
  | nil => True
  | Node p _ _ _ _ _ c0 c1 =>
      (p < next)%positive /\ allocated next c0 /\ allocated next c1
  end.

(* Go can compare the value stored at every node with itself: [==] on it
   does not panic. *)
Fixpoint comparable (t : trieNode) : Prop :=
  match t with
  | nil => True
  | Node _ _ d _ _ _ c0 c1 =>
      Data_eqb d d <> None /\ comparable c0 /\ comparable c1
  end.



(** ** The relation the spec calls structural equality

    Same prefix, same active flag, predicate-equal data when active, and
    recursively equal children. [sameTrie] reads "same prefix" as Go's [==]
    on [Prefix]; [sameTrieSpec] reads it as the spec's prefix equality, which
    ignores the bits beyond the length. *)

Definition specPrefixEq (a b : Prefix) : Prop :=
  length a = length b
  /\ agreeb (length a) (ui (addr a)) (ui (addr b)) = true.

Inductive sameTrieBy (pe : Prefix -> Prefix -> Prop) (eq : comparator)
  : trieNode -> trieNode -> Prop :=
| same_nil : sameTrieBy pe eq nil nil
| same_node p1 p2 k1 k2 d1 d2 s1 s2 h1 h2 a l1 l2 r1 r2 :
    pe k1 k2 ->
    (a = true -> eq d1 d2 = true) ->
    sameTrieBy pe eq l1 l2 ->
    sameTrieBy pe eq r1 r2 ->
    sameTrieBy pe eq (Node p1 k1 d1 s1 h1 a l1 r1) (Node p2 k2 d2 s2 h2 a l2 r2).

Definition sameTrie := sameTrieBy (fun a b => a = b).
Definition sameTrieSpec := sameTrieBy specPrefixEq.

(** ** Measures of a trie *)

(* The number of active nodes. *)
Fixpoint numActive (t : trieNode) : Z :=
  match t with
  | nil => 0
  | Node _ _ _ _ _ a c0 c1 => (if a then 1 else 0) + numActive c0 + numActive c1
  end.

(* The number of levels of the tree. *)
Fixpoint levels (t : trieNode) : Z :=
  match t with
  | nil => 0
  | Node _ _ _ _ _ _ c0 c1 => 1 + Z.max (levels c0) (levels c1)
  end.

(* The key and data of every active node: left subtree, node, right
   subtree. *)
Fixpoint entries (t : trieNode) : list (Prefix * Data) :=
  match t with
  | nil => []
  | Node _ k d _ _ a c0 c1 =>
      entries c0 ++ (if a then [(k, d)] else []) ++ entries c1
  end.

(* The key and data of a node, none for nil. *)
Definition entryOf (t : trieNode) : option (Prefix * Data) :=
  match t with
  | nil => None
  | Node _ k d _ _ _ _ _ => Some (k, d)
  end.

(* Longest-prefix match by a scan of a list of entries: the entry with the
   longest prefix among those that contain the key, the first of them when
   several have that length. *)
Fixpoint longestEntry (key : Prefix) (l : list (Prefix * Data))
  : option (Prefix * Data) :=
  match l with
  | [] => None
  | e :: rest =>
      match longestEntry key rest with
      | Some e' =>
          if containsKey (fst e) key && (length (fst e') <? length (fst e))
          then Some e else Some e'
      | None => if containsKey (fst e) key then Some e else None
      end
  end.

(* The trie holds an active entry of the key's own length and bits: [Match]
   finds a node whose prefix is as long as the key. *)
Definition exactHit (t : trieNode) (key : Prefix) : bool :=
  negb (isNil (Match t key))
  && (length (prefixOf (Match t key)) =? length key).

(* The addresses of the nodes of a trie. *)
Definition addrs (t : trieNode) : list ptr := map addrOf (nodes t).

(* No address is used for two nodes of the trie. *)
Definition distinct (t : trieNode) : Prop := NoDup (map addrOf (nodes t)).

(* The trie [t] was made from [me] with addresses from [lo] up to [hi]: no
   address is used twice, and each is one of [me] or a new one. *)
Definition madeFrom (me : trieNode) (lo hi : ptr) (t : trieNode) : Prop :=
  distinct t
  /\ forall x, In x (addrs t) -> In x (addrs me) \/ (lo <= x < hi)%positive.

(* What a successful [insert] leaves: where the new nodes are, what a lookup
   of the key finds, the size, and the entries. *)
Definition insertEffect (me : trieNode) (q : ptr) (key : Prefix) (data : Data)
  (opts : insertOpts) (s : ptr) (head node' : trieNode) (s' : ptr) : Prop :=
  (s <= s')%positive
  /\ isNil head = false
  /\ (q <= addrOf head)%positive
  /\ allocated s' head
  /\ Match head key = node'
  /\ prefixOf node' = key
  /\ active node' = true
  /\ dataOf node'
     = (if exactHit me key
        then match optEq opts with
             | Some f => if f (dataOf (Match me key)) data
                         then dataOf (Match me key) else data
             | None => data
             end
        else data)
  /\ NumNodes head = uint32 (NumNodes me + (if exactHit me key then 0 else 1))
  /\ (exactHit me key = false ->
      Permutation (entries head) ((key, data) :: entries me)).

End Trie.

Arguments trieNode V : clear implicits.
Arguments Data V : clear implicits.
Arguments comparator V : clear implicits.
Arguments op V : clear implicits.
Arguments insertOpts V : clear implicits.

Arguments uint16 : simpl never.
Arguments uint32 : simpl never.
Arguments intMax : simpl never.
Arguments contains : simpl never.
Arguments compare : simpl never.
Arguments copyMutate : simpl never.
Arguments getOrInsertDeferred : simpl never.

(** ** Example keys and tries

    An IPv4 address [a.b.c.d] placed in the first 32 bits of the key. *)

Definition ip4 (a b c d len : Z) : Prefix :=
  mkPrefix (mkAddress (Z.shiftl (a * 2 ^ 24 + b * 2 ^ 16 + c * 2 ^ 8 + d) 96)) len.

(* A predicate on integer values. *)
Definition eqZ : comparator Z :=
  fun a b =>
    match a, b with
    | None, None => true
    | Some x, Some y => x =? y
    | _, _ => false
    end.

(* A single entry 10.0.0.0/24 -> 1 at address 1. *)
Definition exLeaf : trieNode Z :=
  Node 1%positive (ip4 10 0 0 0 24) (Some 1) 1 1 true nil nil.

(* The same entry stored at another address. *)
Definition exLeafCopy : trieNode Z :=
  Node 2%positive (ip4 10 0 0 0 24) (Some 1) 1 1 true nil nil.

(* Two single entries for 10.0.0.0/24 that differ in the host bits only. *)
Definition exHostA : trieNode Z :=
  Node 1%positive (ip4 10 0 0 1 24) (Some 1) 1 1 true nil nil.

Definition exHostB : trieNode Z :=
  Node 2%positive (ip4 10 0 0 2 24) (Some 1) 1 1 true nil nil.

(* A new node for 10.0.0.0/24 -> 5, as [Insert] allocates it. *)
Definition exNode : trieNode Z :=
  Node 2%positive (ip4 10 0 0 0 24) (Some 5) 0 0 false nil nil.

Definition exInsertOnly : insertOpts Z := mkInsertOpts true false None.

(* A sequence of all five operations. *)
Definition exOps : list (op Z) :=
  [ OpInsert (ip4 10 0 0 0 16) (Some 1);
    OpGetOrInsert (ip4 10 0 0 0 24) (Some 1);
    OpInsertOrUpdate (ip4 10 0 1 0 24) (Some 2) eqZ;
    OpUpdate (ip4 10 0 0 0 24) (Some 3) eqZ;
    OpDelete (ip4 10 0 0 0 16);
    OpDelete (ip4 10 0 0 0 24) ].

(* 10.0.0.0/16 -> 1 above 10.0.0.0/24 -> 1 above 10.0.0.0/32 -> 2. *)
Definition exChain : trieNode Z :=
  Node 6%positive (ip4 10 0 0 0 16) (Some 1) 3 3 true
    (Node 5%positive (ip4 10 0 0 0 24) (Some 1) 2 2 true
       (Node 4%positive (ip4 10 0 0 0 32) (Some 2) 1 1 true nil nil) nil)
    nil.

(* 10.0.0.0/24 -> 1 and 10.0.1.0/24 -> 2 below the inactive join
   10.0.0.0/23. *)
Definition exJoin : trieNode Z :=
  Node 3%positive (ip4 10 0 0 0 23) None 2 2 false
    (Node 1%positive (ip4 10 0 0 0 24) (Some 1) 1 1 true nil nil)
    (Node 2%positive (ip4 10 0 1 0 24) (Some 2) 1 1 true nil nil).

(** ** Values of several dynamic types

    Integers, the float64 NaN, and slices of integers. [==] on two integers
    compares them, on two NaN it is false, on two slices it panics, and on
    values of different dynamic types it is false. *)

Inductive goValue : Type :=
| GoInt (z : Z)
| GoNaN
| GoSlice (l : list Z).

#[export] Instance goValue_GoEq : GoEq goValue :=
  fun x y =>
    match x, y with
    | GoInt a, GoInt b => Some (a =? b)
    | GoNaN, GoNaN => Some false
    | GoSlice _, GoSlice _ => None
    | _, _ => Some false
    end.






(** * Properties *)

(** ** Bits of a key *)

Lemma ones_literal :
  Uint128.mk 0xffffffffffffffff 0xffffffffffffffff = Z.ones 128.
Proof. reflexivity. Qed.

Lemma top_literal : Uint128.mk 0x8000000000000000 0 = 2 ^ 127.
Proof. reflexivity. Qed.

Lemma testbit_high x j :
  0 <= x < 2 ^ 128 -> 128 <= j -> Z.testbit x j = false.
Proof.
  intros Hx Hj.
  rewrite <- (Z.mod_small x (2 ^ 128)) by lia.
  apply Z.mod_pow2_bits_high; lia.
Qed.

Lemma bit_at_neg x i : 128 <= i -> bit_at x i = false.
Proof. intros; unfold bit_at; apply Z.testbit_neg_r; lia. Qed.

Lemma agreeb_bits n x y :
  0 <= n <= 128 -> 0 <= x < 2 ^ 128 -> 0 <= y < 2 ^ 128 ->
  agreeb n x y = true <->
  (forall i, 0 <= i < n -> bit_at x i = bit_at y i).
Proof.
  intros Hn Hx Hy. unfold agreeb, first_bits, bit_at.
  rewrite Z.eqb_eq. split.
  - intros E i Hi.
    replace (127 - i) with ((n - 1 - i) + (128 - n)) by lia.
    rewrite <- !Z.shiftr_spec by lia. now rewrite E.
  - intros A. apply Z.bits_inj'. intros m Hm.
    rewrite !Z.shiftr_spec by lia.
    destruct (Z_lt_le_dec (m + (128 - n)) 128) as [Hlt|Hge].
    + replace (m + (128 - n)) with (127 - (n - 1 - m)) by lia.
      apply A; lia.
    + rewrite !testbit_high by lia. reflexivity.
Qed.

Lemma agreeb_refl n x : agreeb n x x = true.
Proof. unfold agreeb. apply Z.eqb_refl. Qed.

Lemma agreeb_sym n x y : agreeb n x y = agreeb n y x.
Proof. unfold agreeb. apply Z.eqb_sym. Qed.

Lemma agreeb_trans n x y z :
  agreeb n x y = true -> agreeb n y z = true -> agreeb n x z = true.
Proof. unfold agreeb. rewrite !Z.eqb_eq. congruence. Qed.

(* The bits of the mask [all-ones << (128 - n)]. *)
Lemma mask_bits n j :
  0 <= n <= 128 -> 0 <= j ->
  Z.testbit (Uint128.leftShift (Uint128.mk 0xffffffffffffffff 0xffffffffffffffff)
                               (uint32 (128 - n))) j
  = (128 - n <=? j) && (j <? 128).
Proof.
  intros Hn Hj. rewrite ones_literal. unfold uint32, Uint128.leftShift.
  rewrite (Z.mod_small (128 - n)) by (change (2 ^ 32) with 4294967296; lia).
  destruct (Z.leb_spec 128 (128 - n)) as [H0|H0].
  - rewrite Z.bits_0. symmetry. apply andb_false_iff.
    destruct (Z.ltb_spec j 128); [left; apply Z.leb_gt; lia | now right].
  - destruct (Z.ltb_spec j 128) as [Hlt|Hge].
    + rewrite Z.mod_pow2_bits_low by lia.
      destruct (Z.leb_spec (128 - n) j) as [Hle|Hgt].
      * rewrite Z.shiftl_spec by lia. apply Z.ones_spec_low. lia.
      * rewrite Z.shiftl_spec_low by lia. reflexivity.
    + rewrite Z.mod_pow2_bits_high by lia. now rewrite andb_false_r.
Qed.

Lemma mask_match n x y :
  0 <= n <= 128 -> 0 <= x < 2 ^ 128 -> 0 <= y < 2 ^ 128 ->
  let mask := Uint128.leftShift (Uint128.mk 0xffffffffffffffff 0xffffffffffffffff)
                                (uint32 (128 - n)) in
  Uint128.eqb (Uint128.and x mask) (Uint128.and y mask) = agreeb n x y.
Proof.
  intros Hn Hx Hy mask. apply eq_true_iff_eq.
  rewrite agreeb_bits by assumption.
  unfold Uint128.eqb, Uint128.and. rewrite Z.eqb_eq. split.
  - intros E i Hi. unfold bit_at.
    assert (B : Z.testbit (Z.land x mask) (127 - i)
                = Z.testbit (Z.land y mask) (127 - i)) by now rewrite E.
    rewrite !Z.land_spec in B. unfold mask in B.
    rewrite mask_bits in B by lia.
    replace (128 - n <=? 127 - i) with true in B by (symmetry; apply Z.leb_le; lia).
    replace (127 - i <? 128) with true in B by (symmetry; apply Z.ltb_lt; lia).
    now rewrite !andb_true_r in B.
  - intros A. apply Z.bits_inj'. intros j Hj.
    rewrite !Z.land_spec. unfold mask. rewrite mask_bits by lia.
    destruct (Z.leb_spec (128 - n) j) as [Hle|Hgt]; simpl;
      [|now rewrite !andb_false_r].
    destruct (Z.ltb_spec j 128) as [Hlt|Hge]; simpl;
      [|now rewrite !andb_false_r].
    rewrite !andb_true_r.
    replace j with (127 - (127 - j)) by lia. apply A. lia.
Qed.

(* The first bit where two different keys differ is the number of leading
   zeros of their XOR. *)
Lemma leadingZeros_xor x y :
  0 <= x < 2 ^ 128 -> 0 <= y < 2 ^ 128 -> x <> y ->
  let c := Uint128.leadingZeros (Uint128.xor x y) in
  0 <= c < 128
  /\ (forall i, 0 <= i < c -> bit_at x i = bit_at y i)
  /\ bit_at x c <> bit_at y c.
Proof.
  intros Hx Hy Hne c. unfold c, Uint128.leadingZeros, Uint128.xor.
  assert (Hz : Z.lxor x y <> 0) by (intros E; apply Z.lxor_eq in E; contradiction).
  assert (Hn : 0 <= Z.lxor x y) by (apply Z.lxor_nonneg; lia).
  assert (Hp : 0 < Z.lxor x y) by lia.
  assert (Hl : Z.log2 (Z.lxor x y) < 128).
  { destruct (Z_lt_le_dec (Z.log2 (Z.lxor x y)) 128) as [?|Hge]; [assumption|].
    exfalso.
    pose proof (Z.bit_log2 _ Hp) as B.
    rewrite Z.lxor_spec, !testbit_high in B by lia. discriminate. }
  pose proof (Z.log2_nonneg (Z.lxor x y)).
  destruct (Z.eqb_spec (Z.lxor x y) 0) as [?|_]; [contradiction|].
  split; [lia|]. split.
  - intros i Hi. unfold bit_at.
    assert (B : Z.testbit (Z.lxor x y) (127 - i) = false)
      by (apply Z.bits_above_log2; lia).
    rewrite Z.lxor_spec in B. now apply xorb_eq.
  - unfold bit_at.
    replace (127 - (127 - Z.log2 (Z.lxor x y))) with (Z.log2 (Z.lxor x y)) by lia.
    pose proof (Z.bit_log2 _ Hp) as B. rewrite Z.lxor_spec in B.
    intros E. rewrite E, xorb_nilpotent in B. discriminate.
Qed.

(* The pivot test of [contains] reads the bit at position [c]. *)
Lemma pivot_bit x c :
  0 <= c ->
  negb (Uint128.eqb
          (Uint128.and x (Uint128.rightShift (Uint128.mk 0x8000000000000000 0) c))
          Uint128.zero)
  = bit_at x c.
Proof.
  intros Hc. rewrite top_literal.
  unfold Uint128.eqb, Uint128.and, Uint128.rightShift, Uint128.zero.
  destruct (Z.leb_spec 128 c) as [Hge|Hlt].
  - rewrite Z.land_0_r, bit_at_neg by lia. reflexivity.
  - rewrite Z.shiftr_div_pow2, <- Z.pow_sub_r by lia.
    unfold bit_at.
    destruct (Z.testbit x (127 - c)) eqn:B.
    + destruct (Z.eqb_spec (Z.land x (2 ^ (127 - c))) 0) as [E|]; [|reflexivity].
      assert (B' : Z.testbit (Z.land x (2 ^ (127 - c))) (127 - c) = true)
        by (rewrite Z.land_spec, B, Z.pow2_bits_true by lia; reflexivity).
      rewrite E, Z.bits_0 in B'. discriminate.
    + destruct (Z.eqb_spec (Z.land x (2 ^ (127 - c))) 0) as [|N]; [reflexivity|].
      exfalso. apply N. apply Z.bits_inj'. intros j Hj.
      rewrite Z.land_spec, Z.bits_0, Z.pow2_bits_eqb by lia.
      destruct (Z.eqb_spec (127 - c) j) as [<-|]; [now rewrite B|].
      now rewrite andb_false_r.
Qed.

(* The address of a structural join: the first [c] bits kept, the rest zero. *)
Lemma join_addr a c :
  0 <= a < 2 ^ 128 -> 0 <= c < 128 ->
  let j := Uint128.and a
             (Uint128.complement
                (Uint128.rightShift
                   (Uint128.mk 0xffffffffffffffff 0xffffffffffffffff) c)) in
  0 <= j < 2 ^ 128
  /\ (forall i, 0 <= i < c -> bit_at j i = bit_at a i)
  /\ (forall i, c <= i -> bit_at j i = false).
Proof.
  intros Ha Hc j.
  assert (B : forall m, 0 <= m ->
            Z.testbit j m = Z.testbit a m && (128 - c <=? m) && (m <? 128)).
  { intros m Hm. unfold j, Uint128.and, Uint128.complement, Uint128.rightShift.
    rewrite ones_literal.
    destruct (Z.leb_spec 128 c) as [?|_]; [lia|].
    rewrite Z.land_spec, Z.lxor_spec, Z.shiftr_spec by lia.
    destruct (Z.ltb_spec m 128) as [Hlt|Hge].
    - rewrite (Z.ones_spec_low 128 m) by lia.
      destruct (Z.leb_spec (128 - c) m) as [Hle|Hgt].
      + rewrite Z.ones_spec_high by lia. simpl. now rewrite !andb_true_r.
      + rewrite Z.ones_spec_low by lia. simpl. now rewrite !andb_false_r.
    - rewrite !Z.ones_spec_high by lia. simpl. now rewrite !andb_false_r. }
  split; [|split].
  - assert (E : j = j mod 2 ^ 128).
    { apply Z.bits_inj'. intros m Hm.
      destruct (Z.ltb_spec m 128) as [Hlt|Hge].
      - now rewrite Z.mod_pow2_bits_low by lia.
      - rewrite Z.mod_pow2_bits_high, B by lia.
        replace (m <? 128) with false by (symmetry; apply Z.ltb_ge; lia).
        now rewrite andb_false_r. }
    rewrite E. apply Z.mod_pos_bound. lia.
  - intros i Hi. unfold bit_at. rewrite B by lia.
    replace (128 - c <=? 127 - i) with true by (symmetry; apply Z.leb_le; lia).
    replace (127 - i <? 128) with true by (symmetry; apply Z.ltb_lt; lia).
    now rewrite !andb_true_r.
  - intros i Hi. unfold bit_at.
    destruct (Z_lt_le_dec (127 - i) 0) as [Hneg|Hpos].
    + apply Z.testbit_neg_r; lia.
    + rewrite B by lia.
      replace (128 - c <=? 127 - i) with false by (symmetry; apply Z.leb_gt; lia).
      now rewrite andb_false_r.
Qed.

(** ** What [contains] and [compare] compute *)

Lemma childBit_if (b : bool) : childBit (if b then 1 else 0) = b.
Proof. now destruct b. Qed.

Lemma uint32_small z : 0 <= z <= 128 -> uint32 z = z.
Proof.
  intros. unfold uint32. apply Z.mod_small.
  change (2 ^ 32) with 4294967296. lia.
Qed.

Lemma contains_cases s l :
  wfPrefix s -> wfPrefix l -> length s <= length l ->
  (agreeb (length s) (ui (addr s)) (ui (addr l)) = true
   /\ contains s l =
      (true, length s =? length l, length s,
       if length s =? length l then 0
       else if bit_at (ui (addr l)) (length s) then 1 else 0))
  \/ (agreeb (length s) (ui (addr s)) (ui (addr l)) = false
      /\ let c := Uint128.leadingZeros
                    (Uint128.xor (ui (addr s)) (ui (addr l))) in
          0 <= c < length s
          /\ (forall i, 0 <= i < c ->
                bit_at (ui (addr s)) i = bit_at (ui (addr l)) i)
          /\ bit_at (ui (addr s)) c <> bit_at (ui (addr l)) c
          /\ contains s l =
             (false, false, c, if bit_at (ui (addr l)) c then 1 else 0)).
Proof.
  intros [Hs Hsl] [Hl Hll] Hle. unfold contains.
  rewrite mask_match by assumption.
  destruct (agreeb (length s) (ui (addr s)) (ui (addr l))) eqn:A.
  - left. split; [reflexivity|].
    destruct (length s =? length l); simpl; [reflexivity|].
    rewrite pivot_bit by lia.
    now destruct (bit_at (ui (addr l)) (length s)).
  - right. split; [reflexivity|].
    assert (Hne : ui (addr s) <> ui (addr l)).
    { intros E. rewrite E, agreeb_refl in A. discriminate. }
    destruct (leadingZeros_xor _ _ Hs Hl Hne) as (Hc & Hag & Hdiff).
    set (c := Uint128.leadingZeros (Uint128.xor (ui (addr s)) (ui (addr l)))) in *.
    rewrite uint32_small by lia.
    assert (Hlt : c < length s).
    { destruct (Z_lt_le_dec c (length s)) as [?|Hge]; [assumption|].
      exfalso. apply not_true_iff_false in A. apply A.
      apply agreeb_bits; try assumption. intros i Hi. apply Hag. lia. }
    repeat split; try lia; try assumption.
    simpl. rewrite pivot_bit by lia.
    now destruct (bit_at (ui (addr l)) c).
Qed.

Lemma compare_cases a b :
  wfPrefix a -> wfPrefix b ->
  forall result reversed common child,
    compare a b = (result, reversed, common, child) ->
    match result with
    | compareSame =>
        length a = length b
        /\ agreeb (length a) (ui (addr a)) (ui (addr b)) = true
    | compareContains => underK a (childBit child) b
    | compareIsContained => underK b (childBit child) a
    | compareDisjoint =>
        0 <= common /\ common < length a /\ common < length b
        /\ (forall i, 0 <= i < common ->
              bit_at (ui (addr a)) i = bit_at (ui (addr b)) i)
        /\ bit_at (ui (addr a)) common <> bit_at (ui (addr b)) common
        /\ negb (Bool.eqb (child =? 1) reversed) = bit_at (ui (addr b)) common
    end.
Proof.
  intros Wa Wb result reversed common child. unfold compare.
  destruct (Z.ltb_spec (length b) (length a)) as [Hrev|Hfwd].
  - destruct (contains_cases b a Wb Wa ltac:(lia))
      as [[A ->]|[A (Hc & Hag & Hdiff & ->)]].
    + destruct (Z.eqb_spec (length b) (length a)) as [?|_]; [lia|].
      intros [= <- <- <- <-]. unfold underK.
      rewrite childBit_if. repeat split; try assumption.
    + set (c := Uint128.leadingZeros _) in *.
      intros [= <- <- <- <-].
      repeat split; try lia.
      * intros i Hi. symmetry. now apply Hag.
      * intros E. apply Hdiff. now symmetry.
      * destruct (bit_at (ui (addr a)) c) eqn:Ba,
                 (bit_at (ui (addr b)) c) eqn:Bb; simpl; try reflexivity;
        exfalso; apply Hdiff; congruence.
  - destruct (contains_cases a b Wa Wb Hfwd)
      as [[A ->]|[A (Hc & Hag & Hdiff & ->)]].
    + destruct (Z.eqb_spec (length a) (length b)) as [E|N];
        intros [= <- <- <- <-].
      * split; assumption.
      * unfold underK. rewrite childBit_if. repeat split; try assumption. lia.
    + set (c := Uint128.leadingZeros _) in *.
      intros [= <- <- <- <-].
      repeat split; try lia; try assumption.
      now destruct (bit_at (ui (addr b)) c).
Qed.

(* The key of the structural join made for two disjoint keys. *)
Lemma join_under k key common :
  wfPrefix k -> wfPrefix key ->
  0 <= common -> common < length k -> common < length key ->
  (forall i, 0 <= i < common ->
     bit_at (ui (addr k)) i = bit_at (ui (addr key)) i) ->
  bit_at (ui (addr k)) common <> bit_at (ui (addr key)) common ->
  let jk :=
    mkPrefix
      (mkAddress
         (Uint128.and (ui (addr k))
            (Uint128.complement
               (Uint128.rightShift
                  (Uint128.mk 0xffffffffffffffff 0xffffffffffffffff) common))))
      common in
  wfPrefix jk
  /\ underK jk (bit_at (ui (addr k)) common) k
  /\ underK jk (bit_at (ui (addr key)) common) key
  /\ (forall k' b', wfPrefix k' -> underK k' b' k -> underK k' b' key ->
                    underK k' b' jk).
Proof.
  intros [Hk Hkl] [Hy Hyl] H0 H1 H2 Hag Hdiff jk.
  destruct (join_addr (ui (addr k)) common Hk ltac:(lia)) as (Hr & Hb & _).
  set (j := Uint128.and _ _) in *.
  assert (Aj : agreeb common j (ui (addr k)) = true).
  { apply agreeb_bits; try assumption; try lia. }
  assert (Ay : agreeb common j (ui (addr key)) = true).
  { apply agreeb_bits; try assumption; try lia.
    intros i Hi. rewrite Hb by assumption. now apply Hag. }
  split; [split; simpl; [exact Hr | lia]|].
  split; [unfold underK; simpl; auto|].
  split; [unfold underK; simpl; auto|].
  intros k' b' [Hk' Hkl'] (L1 & A1 & B1) (L2 & A2 & B2).
  pose proof (proj1 (agreeb_bits (length k') _ _ ltac:(lia) Hk' Hk) A1) as A1'.
  pose proof (proj1 (agreeb_bits (length k') _ _ ltac:(lia) Hk' Hy) A2) as A2'.
  assert (Hlt : length k' < common).
  { destruct (Z_lt_le_dec (length k') common) as [?|Hge]; [assumption|].
    exfalso. apply Hdiff.
    destruct (Z.eq_dec common (length k')) as [->|Hne]; [congruence|].
    rewrite <- A1', <- A2' by lia. reflexivity. }
  unfold underK. simpl. split; [assumption|]. split.
  - apply agreeb_bits; try assumption; try lia.
    intros i Hi. rewrite Hb by lia. now apply A1'.
  - rewrite Hb by lia. assumption.
Qed.

(** C8. For prefixes with [length shorter <= length longer], [contains]
    returns [matches] true exactly when the first [length shorter] bits of
    the two addresses agree; when it matches, [exact] tells whether the
    lengths are equal and [common] is [length shorter]; when it does not,
    [common] is the number of leading zeros of the XOR of the addresses; and
    when not [exact], [child] is the bit of [longer]'s address at position
    [common]. *)
Theorem contains_spec shorter longer :
  wfPrefix shorter -> wfPrefix longer -> length shorter <= length longer ->
  forall matches exact common child,
    contains shorter longer = (matches, exact, common, child) ->
    (matches = true <->
     forall i, 0 <= i < length shorter ->
       bit_at (ui (addr shorter)) i = bit_at (ui (addr longer)) i)
    /\ (matches = true ->
        exact = (length shorter =? length longer) /\ common = length shorter)
    /\ (matches = false ->
        common = Uint128.leadingZeros
                   (Uint128.xor (ui (addr shorter)) (ui (addr longer))))
    /\ (exact = false ->
        child = if bit_at (ui (addr longer)) common then 1 else 0).
Proof.
  intros Ws Wl Hle matches exact common child E.
  pose proof Ws as [Hs Hsl]. pose proof Wl as [Hl Hll].
  destruct (contains_cases shorter longer Ws Wl Hle)
    as [[A E']|[A (Hc & Hag & Hdiff & E')]];
    rewrite E' in E; injection E as <- <- <- <-.
  - split; [|split; [|split]].
    + split; [intros _|reflexivity]. now apply agreeb_bits.
    + intros _. split; reflexivity.
    + discriminate.
    + intros ->. reflexivity.
  - split; [|split; [|split]].
    + split; [discriminate|]. intros B.
      apply (agreeb_bits (length shorter)) in B; try assumption. congruence.
    + discriminate.
    + reflexivity.
    + reflexivity.
Qed.

(** ** Tries *)

Section TrieProofs.

Context {V : Type} {V_eq : GoEq V}.

Implicit Types me node head : trieNode V.

Lemma ptr_eqb_refl me : ptr_eqb me me = true.
Proof. destruct me; simpl; [reflexivity | apply Pos.eqb_refl]. Qed.

Lemma Data_eqb_nil (d : Data V) : Data_eqb None d <> None.
Proof. destruct d; discriminate. Qed.

Lemma Prefix_eqb_refl k : Prefix_eqb k k = true.
Proof. unfold Prefix_eqb, Uint128.eqb. now rewrite !Z.eqb_refl. Qed.


(* Stepping through the monad. *)
Ltac unmonad :=
  unfold bind, ret, panic, alloc, newNode, callEq, insertNil in *; simpl in *.

(** *** A failed insert or delete gives the receiver back *)

(* Case analysis on the first test a hypothesis is stuck on. *)
Ltac break H :=
  match type of H with
  | context [match ?x with _ => _ end] => destruct x eqn:?
  end.

Ltac breaks H := repeat (break H; try discriminate H).

Lemma insert_error_head me :
  forall node opts s head e node' s',
    insert me node opts s = Done (head, Some e, node') s' -> head = me.
Proof.
  destruct me as [|p k d sz ht a c0 c1]; intros node opts s head e node' s' H;
    simpl in H; unmonad; breaks H; now inversion H.
Qed.

Lemma del_error_head me :
  forall key opts s head e s',
    del me key opts s = Done (head, Some e) s' -> head = me.
Proof.
  destruct me as [|p k d sz ht a c0 c1]; intros key opts s head e s' H;
    simpl in H; unmonad; breaks H; now inversion H.
Qed.

(** C3. Whenever [insert] (behind Insert and Update) or [del] (behind
    Delete) returns an error, the head it returns is the receiver itself,
    address included: a failed insert, update or delete leaves the trie as
    it was. *)
Theorem failed_insert_del_returns_root me node opts key dopts s :
  (forall head e node' s',
      insert me node opts s = Done (head, Some e, node') s' ->
      head = me /\ ptr_eqb head me = true)
  /\ (forall head e s',
         del me key dopts s = Done (head, Some e) s' ->
         head = me /\ ptr_eqb head me = true).
Proof.
  split.
  - intros head e node' s' H. apply insert_error_head in H. subst.
    split; [reflexivity | apply ptr_eqb_refl].
  - intros head e s' H. apply del_error_head in H. subst.
    split; [reflexivity | apply ptr_eqb_refl].
Qed.

(** *** Insert-or-update and get-or-insert on values Go can compare *)

Lemma mutate_set_child p k d sz ht a c0 c1 i (c : trieNode V) :
  mutate (Node p k d sz ht a c0 c1) (set_child i c)
  = if i =? 0
    then Node p k d (sizeOf a c c1) (heightOf c c1) a c c1
    else Node p k d (sizeOf a c0 c) (heightOf c0 c) a c0 c.
Proof. unfold mutate, set_child. now destruct (i =? 0). Qed.

Lemma copyMutate_node p k d sz ht a c0 c1 (f : trieNode V -> trieNode V) s :
  copyMutate (Node p k d sz ht a c0 c1) f s
  = match struct_eqb (mutate (Node s k d sz ht a c0 c1) f)
                     (Node p k d sz ht a c0 c1) with
    | Some b => Done (if b then Node p k d sz ht a c0 c1
                      else mutate (Node s k d sz ht a c0 c1) f)
                     (Pos.succ s)
    | None => Panic errUncomparable (Pos.succ s)
    end.
Proof.
  unfold copyMutate, bind, alloc, ret, panic.
  now destruct (struct_eqb _ _) as [[|]|].
Qed.

(* The comparison of two structs with the same data is defined where the
   comparison of the data with itself is; it is true only on equal fields. *)
Lemma struct_eqb_defined p q k k' d sz sz' ht ht' a a' (c0 c1 l r : trieNode V) :
  Data_eqb d d <> None ->
  struct_eqb (Node q k' d sz' ht' a' l r) (Node p k d sz ht a c0 c1) <> None.
Proof.
  intros H. cbn [struct_eqb]. destruct (negb _); [discriminate|].
  destruct (Data_eqb d d) as [[|]|]; [discriminate|discriminate|contradiction].
Qed.

Lemma struct_eqb_true p q k k' d d' sz sz' ht ht' a a' (c0 c1 l r : trieNode V) :
  struct_eqb (Node q k' d' sz' ht' a' l r) (Node p k d sz ht a c0 c1) = Some true ->
  Prefix_eqb k' k = true /\ Data_eqb d' d = Some true
  /\ sz' = sz /\ ht' = ht /\ a' = a
  /\ ptr_eqb l c0 = true /\ ptr_eqb r c1 = true.
Proof.
  cbn [struct_eqb]. destruct (Prefix_eqb k' k); cbn [negb]; [|discriminate].
  destruct (Data_eqb d' d) as [[|]|]; try discriminate.
  intros [= H]. rewrite !andb_true_iff in H.
  destruct H as ((((H1 & H2) & H3) & H4) & H5).
  apply Z.eqb_eq in H1, H2. apply Bool.eqb_prop in H3. auto 10.
Qed.

Lemma struct_eqb_refl_ptr p q k d sz ht a c0 c1 :
  Data_eqb d d = Some true ->
  struct_eqb (Node p k d sz ht a c0 c1) (Node q k d sz ht a c0 c1 : trieNode V)
  = Some true.
Proof.
  intros H. cbn [struct_eqb]. rewrite Prefix_eqb_refl, H. cbn [negb].
  now rewrite !Z.eqb_refl, Bool.eqb_reflx, !ptr_eqb_refl.
Qed.

(* [copyMutate] with a new child returns where the node's data can be
   compared. *)
Lemma copyMutate_done p k d sz ht a c0 c1 child (c : trieNode V) s :
  Data_eqb d d <> None ->
  exists r, copyMutate (Node p k d sz ht a c0 c1) (set_child child c) s
            = Done r (Pos.succ s).
Proof.
  intros H. rewrite copyMutate_node, mutate_set_child.
  destruct (struct_eqb _ _) as [b|] eqn:E; [eauto|].
  exfalso. revert E. destruct (child =? 0); now apply struct_eqb_defined.
Qed.

(* With a child at another address the copy differs from the original:
   [copyMutate] returns the copy, where the data can be compared. *)
Lemma copyMutate_new_child p k d sz ht a c0 c1 child (nc : trieNode V) s :
  ptr_eqb nc (if child =? 0 then c0 else c1) = false ->
  copyMutate (Node p k d sz ht a c0 c1) (set_child child nc) s
  = match Data_eqb d d with
    | Some _ =>
        Done (if child =? 0
              then Node s k d (sizeOf a nc c1) (heightOf nc c1) a nc c1
              else Node s k d (sizeOf a c0 nc) (heightOf c0 nc) a c0 nc)
             (Pos.succ s)
    | None => Panic errUncomparable (Pos.succ s)
    end.
Proof.
  intros Hne. rewrite copyMutate_node, mutate_set_child.
  destruct (child =? 0); cbn [struct_eqb]; rewrite Prefix_eqb_refl;
    cbn [negb]; destruct (Data_eqb d d) as [[|]|]; try reflexivity;
    rewrite Hne, ?andb_false_r; reflexivity.
Qed.


(* With insert and update both allowed [insert] returns no error: it
   returns a head, or panics in a comparison of [copyMutate], and that only
   on a trie that stores a value Go cannot compare. *)
Lemma insert_upsert_ok me :
  forall q kn dn szn htn an n0 n1 f s,
    (exists head node' s',
        insert me (Node q kn dn szn htn an n0 n1)
               (mkInsertOpts true true (Some f)) s
        = Done (head, None, node') s')
    \/ (~ comparable me
        /\ exists s',
            insert me (Node q kn dn szn htn an n0 n1)
                   (mkInsertOpts true true (Some f)) s
            = Panic errUncomparable s').
Proof.
  induction me as [|p k d sz ht a c0 IH0 c1 IH1]; intros; simpl.
  - left. unmonad. eauto.
  - destruct (compare k kn) as [[[result reversed] common] child].
    destruct result.
    + left. rewrite !andb_false_r. unmonad. destruct a; simpl; eauto.
    + unfold bind.
      assert (R : (exists nc nd s1,
                      insert (if child =? 0 then c0 else c1)
                             (Node q kn dn szn htn an n0 n1)
                             (mkInsertOpts true true (Some f)) s
                      = Done (nc, None, nd) s1)
                  \/ (~ comparable (if child =? 0 then c0 else c1)
                      /\ exists s1,
                          insert (if child =? 0 then c0 else c1)
                                 (Node q kn dn szn htn an n0 n1)
                                 (mkInsertOpts true true (Some f)) s
                          = Panic errUncomparable s1))
        by (destruct (child =? 0); [apply IH0 | apply IH1]).
      destruct R as [(nc & nd & s1 & ->)|(Hn & s1 & ->)].
      * rewrite copyMutate_node, mutate_set_child.
        destruct (struct_eqb _ _) as [b|] eqn:E.
        -- left. unfold ret. eauto.
        -- right. split; [|eauto].
           intros (Hd & _). revert E.
           destruct (child =? 0); now apply struct_eqb_defined.
      * right. split; [|eauto].
        intros (_ & H0 & H1). apply Hn. now destruct (child =? 0).
    + left. unmonad. eauto.
    + left. unmonad. destruct (negb (Bool.eqb (child =? 1) reversed)); eauto.
Qed.

Lemma contains_exact s l m e c ch :
  contains s l = (m, e, c, ch) -> e = m && (length s =? length l).
Proof.
  unfold contains. intros [= <- <- _ _].
  now destruct (Uint128.eqb _ _).
Qed.



(* The deferred insert of [GetOrInsert] runs where the key is absent. *)
Lemma deferred_insert_ok p k d sz ht a c0 c1 key data s :
  length key < length k
  \/ (exists e c ch, contains k key = (false, e, c, ch))
  \/ (exists c ch, contains k key = (true, true, c, ch) /\ a = false) ->
  exists head result s',
    getOrInsertDeferred (Node p k d sz ht a c0 c1) key data (nil, nil) s
    = Done (head, result) s'
    /\ isNil result = false.
Proof.
  intros H. unfold getOrInsertDeferred. simpl isNil. cbv iota.
  unfold bind at 1. unfold newNode. unmonad.
  unfold compare.
  destruct H as [Hlt|[(e & c & ch & E)|(c & ch & E & ->)]].
  - apply Z.ltb_lt in Hlt. rewrite Hlt.
    destruct (contains key k) as [[[bM aM] c] ch] eqn:E.
    pose proof (contains_exact _ _ _ _ _ _ E) as X.
    replace (length key =? length k) with false in X
      by (symmetry; apply Z.eqb_neq; apply Z.ltb_lt in Hlt; lia).
    rewrite andb_false_r in X. subst aM.
    destruct bM; simpl.
    + destruct (ch =? 0); simpl; eauto.
    + destruct (negb (Bool.eqb (ch =? 1) true)); simpl; eauto.
  - pose proof (contains_exact _ _ _ _ _ _ E) as X. simpl in X. subst e.
    destruct (length key <? length k) eqn:L.
    + destruct (contains key k) as [[[bM aM] c'] ch'] eqn:E'.
      pose proof (contains_exact _ _ _ _ _ _ E') as X.
      replace (length key =? length k) with false in X
        by (symmetry; apply Z.eqb_neq; apply Z.ltb_lt in L; lia).
      rewrite andb_false_r in X. subst aM.
      destruct bM; simpl.
      * destruct (ch' =? 0); simpl; eauto.
      * destruct (negb (Bool.eqb (ch' =? 1) true)); simpl; eauto.
    + rewrite E. simpl.
      destruct (negb (Bool.eqb (ch =? 1) false)); simpl; eauto.
  - pose proof (contains_exact _ _ _ _ _ _ E) as X. simpl in X.
    symmetry in X. apply Z.eqb_eq in X.
    replace (length key <? length k) with false
      by (symmetry; apply Z.ltb_ge; lia).
    rewrite E. simpl. eauto.
Qed.

Lemma GetOrInsert_done me :
  comparable me ->
  forall key data s,
  exists head result s',
    GetOrInsert me key data s = Done (head, result) s' /\ isNil result = false.
Proof.
  induction me as [|p k d sz ht a c0 IH0 c1 IH1]; intros Cm key data s.
  - simpl. unfold getOrInsertDeferred. unmonad. eauto.
  - destruct Cm as (Hd & Cm0 & Cm1). cbn [GetOrInsert].
    destruct (length key <? length k) eqn:L.
    { apply deferred_insert_ok. left. now apply Z.ltb_lt. }
    destruct (contains k key) as [[[m e] c] ch] eqn:E.
    destruct m; cbn [negb].
    2:{ apply deferred_insert_ok. right. left. eauto. }
    destruct e; cbn [negb].
    + destruct a; cbn [negb].
      * unfold getOrInsertDeferred. unmonad. eauto.
      * apply deferred_insert_ok. right. right. eauto.
    + unfold bind, onPanic.
      assert (R : exists nc result s1,
                 GetOrInsert (if ch =? 0 then c0 else c1) key data s
                 = Done (nc, result) s1 /\ isNil result = false)
        by (destruct (ch =? 0); [now apply IH0 | now apply IH1]).
      destruct R as (nc & result & s1 & -> & Hr).
      destruct (copyMutate_done p k d sz ht a c0 c1 ch nc s1 Hd) as (r & ->).
      unfold getOrInsertDeferred. rewrite Hr. unmonad. eauto.
Qed.


(** *** Longest-prefix match *)

Lemma agreeb_mono m n x y :
  0 <= m <= n -> n <= 128 -> 0 <= x < 2 ^ 128 -> 0 <= y < 2 ^ 128 ->
  agreeb n x y = true -> agreeb m x y = true.
Proof.
  intros Hm Hn Hx Hy A.
  apply agreeb_bits; try lia. intros i Hi.
  apply (agreeb_bits n x y); try lia. assumption.
Qed.

Lemma underK_trans k b kc b' ke :
  wfPrefix k -> wfPrefix kc -> wfPrefix ke ->
  underK k b kc -> underK kc b' ke -> underK k b ke.
Proof.
  intros [Hk Hkl] [Hc Hcl] [He Hel] (L1 & A1 & B1) (L2 & A2 & B2).
  split; [lia|].
  pose proof (proj1 (agreeb_bits (length kc) _ _ ltac:(lia) Hc He) A2) as A2'.
  split.
  - apply agreeb_trans with (ui (addr kc)); [assumption|].
    apply agreeb_mono with (length kc); try lia; assumption.
  - rewrite <- A2' by lia. assumption.
Qed.


Lemma in_nodes_wf (t e : trieNode V) :
  shaped t -> In e (nodes t) -> wfPrefix (prefixOf e).
Proof.
  induction t as [|p k d sz ht a c0 IH0 c1 IH1]; simpl; [contradiction|].
  intros (W & _ & _ & S0 & S1) [<-|H]; [exact W|].
  apply in_app_or in H. destruct H; auto.
Qed.

(* Every node of a subtree is keyed below the parent of the subtree. *)
Lemma nodes_under k b (c e : trieNode V) :
  wfPrefix k -> shaped c -> under k b c -> In e (nodes c) ->
  underK k b (prefixOf e).
Proof.
  intros Wk. revert k b Wk.
  induction c as [|p kc d sz ht a c0 IH0 c1 IH1]; intros k b Wk S U H;
    simpl in *; [contradiction|].
  destruct S as (Wc & U0 & U1 & S0 & S1).
  destruct H as [<-|H]; [exact U|].
  apply in_app_or in H. destruct H as [H|H].
  - apply underK_trans with (kc := kc) (b' := false); try assumption.
    + exact (in_nodes_wf c0 e S0 H).
    + now apply IH0.
  - apply underK_trans with (kc := kc) (b' := true); try assumption.
    + exact (in_nodes_wf c1 e S1 H).
    + now apply IH1.
Qed.

(* An entry below [k] on the side [b] contains [key] only if [k] does and
   the next bit of [key] is [b]. *)
Lemma containsKey_under k b ke key :
  wfPrefix k -> wfPrefix ke -> wfPrefix key ->
  underK k b ke -> containsKey ke key = true ->
  length k < length key
  /\ agreeb (length k) (ui (addr k)) (ui (addr key)) = true
  /\ bit_at (ui (addr key)) (length k) = b.
Proof.
  intros [Hk Hkl] [He Hel] [Hy Hyl] (L & A & B) C.
  unfold containsKey in C. apply andb_true_iff in C. destruct C as [C1 C2].
  apply Z.leb_le in C1.
  pose proof (proj1 (agreeb_bits (length ke) _ _ ltac:(lia) He Hy) C2) as C2'.
  split; [lia|]. split.
  - apply agreeb_trans with (ui (addr ke)); [assumption|].
    apply agreeb_mono with (length ke); try lia; assumption.
  - rewrite <- C2' by lia. assumption.
Qed.

(** C1. In a trie whose children are keyed below their parents, [Match]
    returns the one active entry with the longest prefix containing the
    search key, where an entry contains a key that is at least as long and
    shares the entry's first [length] bits; it returns nil exactly when no
    active entry contains the key. *)
Theorem Match_longest_prefix (T : trieNode V) key :
  shaped T -> wfPrefix key ->
  (isNil (Match T key) = true ->
   forall e, In e (nodes T) -> active e = true ->
             containsKey (prefixOf e) key = false)
  /\ (isNil (Match T key) = false ->
      In (Match T key) (nodes T)
      /\ active (Match T key) = true
      /\ containsKey (prefixOf (Match T key)) key = true
      /\ forall e, In e (nodes T) -> active e = true ->
                   containsKey (prefixOf e) key = true ->
                   e = Match T key
                   \/ length (prefixOf e) < length (prefixOf (Match T key))).
Proof.
  intros S Wkey.
  induction T as [|p k d sz ht a c0 IH0 c1 IH1].
  - simpl. split; [intros _ e []|discriminate].
  - destruct S as (Wk & U0 & U1 & S0 & S1).
    specialize (IH0 S0). specialize (IH1 S1).
    (* entries of a child contain the key only on the side of its next bit *)
    assert (Below : forall b (c : trieNode V) e,
               shaped c -> under k b c -> In e (nodes c) ->
               containsKey (prefixOf e) key = true ->
               length k < length (prefixOf e) /\ length k < length key
               /\ agreeb (length k) (ui (addr k)) (ui (addr key)) = true
               /\ bit_at (ui (addr key)) (length k) = b).
    { intros b c e Sc Uc Hin C.
      pose proof (nodes_under k b c e Wk Sc Uc Hin) as Ue.
      split; [apply Ue|].
      apply containsKey_under with (ke := prefixOf e); try assumption.
      exact (in_nodes_wf c e Sc Hin). }
    cbn [Match].
    destruct (Z.ltb_spec (length key) (length k)) as [Hlt|Hge].
    { cbn [isNil]. split; [|discriminate]. intros _ e Hin Ha.
      destruct (containsKey (prefixOf e) key) eqn:C; [exfalso|reflexivity].
      simpl in Hin. destruct Hin as [<-|Hin].
      - unfold containsKey in C. simpl in C.
        apply andb_true_iff in C. destruct C as [C _]. apply Z.leb_le in C. lia.
      - apply in_app_or in Hin.
        destruct Hin as [Hin|Hin];
          [destruct (Below false c0 e S0 U0 Hin C) as (_ & ? & _)
          |destruct (Below true c1 e S1 U1 Hin C) as (_ & ? & _)]; lia. }
    destruct (contains_cases k key Wk Wkey Hge)
      as [[A ->]|[A (_ & _ & _ & ->)]]; cbn [negb].
    2:{ cbn [isNil]. split; [|discriminate]. intros _ e Hin Ha.
        destruct (containsKey (prefixOf e) key) eqn:C; [exfalso|reflexivity].
        simpl in Hin. destruct Hin as [<-|Hin].
        - unfold containsKey in C. simpl in C.
          apply andb_true_iff in C. destruct C as [_ C]. congruence.
        - apply in_app_or in Hin.
          destruct Hin as [Hin|Hin];
            [destruct (Below false c0 e S0 U0 Hin C) as (_ & _ & ? & _)
            |destruct (Below true c1 e S1 U1 Hin C) as (_ & _ & ? & _)];
            congruence. }
    assert (Self : containsKey k key = true).
    { unfold containsKey. rewrite A, andb_true_r. apply Z.leb_le. lia. }
    destruct (Z.eqb_spec (length k) (length key)) as [Heq|Hne]; cbn [negb isNil].
    + (* the key has the node's length: nothing below can contain it *)
      assert (NoBelow : forall e, In e (nodes c0 ++ nodes c1) ->
                 containsKey (prefixOf e) key = true -> False).
      { intros e Hin C. apply in_app_or in Hin.
        destruct Hin as [Hin|Hin];
          [destruct (Below false c0 e S0 U0 Hin C) as (_ & ? & _)
          |destruct (Below true c1 e S1 U1 Hin C) as (_ & ? & _)]; lia. }
      destruct a; cbn [negb isNil].
      * split; [discriminate|]. intros _.
        split; [simpl; now left|]. split; [reflexivity|]. split; [exact Self|].
        intros e Hin Ha C. simpl in Hin. destruct Hin as [<-|Hin]; [now left|].
        exfalso. eapply NoBelow; eassumption.
      * split; [|discriminate]. intros _ e Hin Ha.
        destruct (containsKey (prefixOf e) key) eqn:C; [exfalso|reflexivity].
        simpl in Hin. destruct Hin as [<-|Hin]; [discriminate Ha|].
        eapply NoBelow; eassumption.
    + (* the key is longer: look below, on the side of its next bit *)
      set (b := bit_at (ui (addr key)) (length k)).
      set (cb := if (if b then 1 else 0) =? 0 then c0 else c1).
      assert (Hcb : cb = if b then c1 else c0) by (unfold cb; now destruct b).
      assert (Scb : shaped cb) by (rewrite Hcb; now destruct b).
      assert (Ucb : under k b cb) by (rewrite Hcb; now destruct b).
      assert (IHb : (isNil (Match cb key) = true ->
                     forall e, In e (nodes cb) -> active e = true ->
                               containsKey (prefixOf e) key = false)
                    /\ (isNil (Match cb key) = false ->
                        In (Match cb key) (nodes cb)
                        /\ active (Match cb key) = true
                        /\ containsKey (prefixOf (Match cb key)) key = true
                        /\ forall e, In e (nodes cb) -> active e = true ->
                              containsKey (prefixOf e) key = true ->
                              e = Match cb key
                              \/ length (prefixOf e)
                                 < length (prefixOf (Match cb key))))
        by (rewrite Hcb; now destruct b).
      assert (Sub : forall e, In e (nodes cb) -> In e (nodes c0 ++ nodes c1)).
      { intros e Hin. apply in_or_app. rewrite Hcb in Hin.
        destruct b; [now right | now left]. }
      assert (Side : forall e, In e (nodes c0 ++ nodes c1) ->
                 containsKey (prefixOf e) key = true -> In e (nodes cb)).
      { intros e Hin C. apply in_app_or in Hin. rewrite Hcb.
        destruct Hin as [Hin|Hin];
          [destruct (Below false c0 e S0 U0 Hin C) as (_ & _ & _ & Hb)
          |destruct (Below true c1 e S1 U1 Hin C) as (_ & _ & _ & Hb)];
          fold b in Hb; rewrite Hb; assumption. }
      clear IH0 IH1. destruct IHb as [IHnil IHsome].
      destruct (isNil (Match cb key)) eqn:Em; cbn [negb].
      * specialize (IHnil eq_refl).
        destruct a; cbn [negb isNil].
        -- split; [discriminate|]. intros _.
           split; [simpl; now left|]. split; [reflexivity|]. split; [exact Self|].
           intros e Hin Ha C. simpl in Hin. destruct Hin as [<-|Hin]; [now left|].
           exfalso. pose proof (IHnil e (Side e Hin C) Ha). congruence.
        -- split; [|discriminate]. intros _ e Hin Ha.
           destruct (containsKey (prefixOf e) key) eqn:C; [exfalso|reflexivity].
           simpl in Hin. destruct Hin as [<-|Hin]; [discriminate Ha|].
           pose proof (IHnil e (Side e Hin C) Ha). congruence.
      * destruct (IHsome eq_refl) as (Min & Mact & Mcont & Mbest).
        rewrite Em. split; [discriminate|]. intros _.
        split; [simpl; right; now apply Sub|].
        split; [assumption|]. split; [assumption|].
        intros e Hin Ha C. simpl in Hin. destruct Hin as [<-|Hin].
        -- right. simpl.
           apply (nodes_under k b cb (Match cb key) Wk Scb Ucb Min).
        -- apply Mbest; try assumption. now apply Side.
Qed.

(** *** Equal *)

(** C7 (amended). Two tries whose corresponding nodes have the same
    [Prefix] value (the same length and the same address, host bits
    included), the same active flag, predicate-equal data on active nodes
    and, recursively, such children, are [Equal]; two tries at different
    addresses whose root prefixes differ in a bit of the address, a host bit
    beyond the length included, are not. *)
Theorem Equal_of_same_entries (eq : comparator V) a b :
  (sameTrie eq a b -> Equal a b eq = true)
  /\ (ptr_eqb a b = false ->
      ui (addr (prefixOf a)) <> ui (addr (prefixOf b)) ->
      Equal a b eq = false).
Proof.
  split.
  - induction 1
      as [|p1 p2 k1 k2 d1 d2 s1 s2 h1 h2 a l1 l2 r1 r2 Hk Hd _ IHl _ IHr].
    + reflexivity.
    + simpl. destruct (Pos.eqb p1 p2); [reflexivity|].
      rewrite Bool.eqb_reflx. simpl. subst k2. rewrite Prefix_eqb_refl. simpl.
      rewrite IHl, IHr. simpl.
      destruct a; simpl; [|reflexivity]. now rewrite Hd.
  - intros Hp Hk.
    destruct a as [|p1 k1 d1 s1 h1 a1 l1 r1], b as [|p2 k2 d2 s2 h2 a2 l2 r2];
      try discriminate Hp; try reflexivity.
    cbn [Equal]. rewrite Hp. cbn [prefixOf] in Hk.
    destruct (negb (Bool.eqb a1 a2)); [reflexivity|].
    unfold Prefix_eqb, Uint128.eqb.
    now rewrite (proj2 (Z.eqb_neq _ _) Hk).
Qed.

(** *** What the copying helpers return *)


(* Along the path to an entry of the key's own length, every node matches
   the key and, unless it is the entry, sends it to a child. *)
Lemma Match_exact_path p k d sz ht a (c0 c1 : trieNode V) key :
  isNil (Match (Node p k d sz ht a c0 c1) key) = false ->
  length (prefixOf (Match (Node p k d sz ht a c0 c1) key)) = length key ->
  (length key <? length k) = false
  /\ exists c child,
      (contains k key = (true, true, c, child) /\ a = true
       /\ Match (Node p k d sz ht a c0 c1) key = Node p k d sz ht a c0 c1)
      \/ (contains k key = (true, false, c, child)
          /\ isNil (Match (if child =? 0 then c0 else c1) key) = false
          /\ Match (Node p k d sz ht a c0 c1) key
             = Match (if child =? 0 then c0 else c1) key).
Proof.
  cbn [Match].
  destruct (length key <? length k) eqn:L; [discriminate|].
  destruct (contains k key) as [[[m e] c] child] eqn:E.
  pose proof (contains_exact _ _ _ _ _ _ E) as X.
  destruct m; cbn [negb]; [|discriminate].
  destruct e; cbn [negb isNil].
  - destruct a; cbn [negb]; [|discriminate]. intros _ _.
    split; [reflexivity|]. exists c, child. left. auto.
  - destruct (isNil (Match (if child =? 0 then c0 else c1) key)) eqn:B; cbn [negb].
    + destruct a; cbn [negb]; [|discriminate]. simpl. intros _ Hl.
      simpl in X. symmetry in X. apply Z.eqb_neq in X. contradiction.
    + intros _ _. split; [reflexivity|]. exists c, child. right. auto.
Qed.

(** *** Get-or-insert on a present key *)


Lemma Match_in_nodes (T : trieNode V) key :
  isNil (Match T key) = false ->
  In (Match T key) (nodes T) /\ active (Match T key) = true.
Proof.
  induction T as [|p k d sz ht a c0 IH0 c1 IH1]; [discriminate|].
  cbn [Match].
  destruct (length key <? length k); [discriminate|].
  destruct (contains k key) as [[[m e] c] child].
  destruct m; cbn [negb]; [|discriminate].
  set (better := if negb e then Match (if child =? 0 then c0 else c1) key else nil).
  assert (B : isNil better = false ->
              In better (nodes c0 ++ nodes c1) /\ active better = true).
  { unfold better. destruct e; cbn [negb]; [discriminate|].
    intros H. destruct (child =? 0).
    - destruct (IH0 H). split; [apply in_or_app; now left | assumption].
    - destruct (IH1 H). split; [apply in_or_app; now right | assumption]. }
  destruct (isNil better) eqn:Eb; cbn [negb].
  - destruct a; cbn [negb]; [|discriminate]. intros _.
    split; [simpl; now left | reflexivity].
  - intros _. destruct (B eq_refl). split; [simpl; now right | assumption].
Qed.


(** *** Insert-or-update of a present key with an equal value *)

Lemma contains_self k :
  exists c ch, contains k k = (true, true, c, ch).
Proof.
  unfold contains, Uint128.eqb. rewrite !Z.eqb_refl. cbn [negb]. eauto.
Qed.

Lemma allocated_ptr_eqb q (old new : trieNode V) :
  allocated q old -> isNil new = false -> (q <= addrOf new)%positive ->
  ptr_eqb new old = false.
Proof.
  destruct old as [|p k d sz ht a c0 c1], new as [|p' k' d' sz' ht' a' c0' c1'];
    simpl; try discriminate; try reflexivity.
  intros (Hp & _) _ Hq. apply Pos.eqb_neq. lia.
Qed.

Lemma insert_present me :
  forall key data (f : comparator V) q s,
    comparable me ->
    allocated q me -> (q < s)%positive ->
    isNil (Match me key) = false ->
    length (prefixOf (Match me key)) = length key ->
    f (dataOf (Match me key)) data = true ->
    exists head node' s',
      insert me (Node q key data 0 0 false nil nil)
             (mkInsertOpts true true (Some f)) s
      = Done (head, None, node') s'
      /\ (s <= s')%positive
      /\ isNil head = false /\ (q <= addrOf head)%positive
      /\ Match head key = node'
      /\ prefixOf node' = key
      /\ dataOf node' = dataOf (Match me key)
      /\ active node' = true.
Proof.
  induction me as [|p k d sz ht a c0 IH0 c1 IH1];
    intros key data f q s Cm Al Hq Hm Hl Hf; [discriminate|].
  destruct Cm as (Hd & Cm0 & Cm1).
  destruct (Match_exact_path _ _ _ _ _ _ _ _ _ Hm Hl)
    as (L & c & child & [(E & -> & EM)|(E & Hb & EM)]);
    rewrite EM in *; clear EM;
    cbn [insert]; unfold compare; rewrite L, E.
  - cbn [andb negb optUpdate optInsert optEq]. unfold bind, callEq, ret.
    simpl in Hf. rewrite Hf.
    eexists. eexists. eexists. split; [reflexivity|].
    split; [lia|]. split; [reflexivity|]. split; [simpl; lia|].
    destruct (contains_self key) as (c' & ch' & Es).
    cbn [mutate set_Data set_children set_isActive Match].
    rewrite Z.ltb_irrefl, Es. cbn [negb isNil].
    repeat split.
  - destruct Al as (Hp & Al0 & Al1).
    assert (R : exists nc node' s1,
               insert (if child =? 0 then c0 else c1)
                      (Node q key data 0 0 false nil nil)
                      (mkInsertOpts true true (Some f)) s
               = Done (nc, None, node') s1
               /\ (s <= s1)%positive
               /\ isNil nc = false /\ (q <= addrOf nc)%positive
               /\ Match nc key = node'
               /\ prefixOf node' = key
               /\ dataOf node'
                  = dataOf (Match (if child =? 0 then c0 else c1) key)
               /\ active node' = true)
      by (destruct (child =? 0); [apply IH0 | apply IH1]; assumption).
    destruct R as (nc & node' & s1 & R & Hs1 & Hnc & Hfresh & HM & HP & HD & HA).
    assert (Hold : allocated q (if child =? 0 then c0 else c1))
      by (now destruct (child =? 0)).
    pose proof (allocated_ptr_eqb q _ nc Hold Hnc Hfresh) as Hne.
    unfold bind. rewrite R. rewrite (copyMutate_new_child _ _ _ _ _ _ _ _ _ _ _ Hne).
    assert (Hnn : isNil node' = false) by (destruct node'; [discriminate|reflexivity]).
    exists (if child =? 0
            then Node s1 k d (sizeOf a nc c1) (heightOf nc c1) a nc c1
            else Node s1 k d (sizeOf a c0 nc) (heightOf c0 nc) a c0 nc),
      node', (Pos.succ s1).
    split.
    { destruct (Data_eqb d d); [reflexivity|contradiction]. }
    split; [lia|].
    split; [now destruct (child =? 0)|].
    split; [destruct (child =? 0); simpl; lia|].
    split; [|auto].
    destruct (child =? 0) eqn:Ech; cbn [Match]; rewrite L, E; cbn [negb];
      rewrite Ech, HM, Hnn; reflexivity.
Qed.

(** C6 (amended). When the trie, all of whose nodes were allocated before
    and all of whose stored values Go can compare, holds an active entry of the key's length and bits whose value the
    predicate finds equal to the new one, [InsertOrUpdate] returns a root at
    a new address, not the address of the old root; what is kept is the
    stored value: the entry found for the key in the new trie is active,
    carries the key given, and holds the old entry's data. *)
Theorem InsertOrUpdate_equal_value_keeps_data me key data (f : comparator V) s :
  comparable me ->
  allocated s me ->
  isNil (Match me key) = false ->
  length (prefixOf (Match me key)) = length key ->
  f (dataOf (Match me key)) data = true ->
  exists root s',
    InsertOrUpdate me key data (Some f) s = Done root s'
    /\ ptr_eqb root me = false
    /\ (s <= addrOf root)%positive
    /\ active (Match root key) = true
    /\ prefixOf (Match root key) = key
    /\ dataOf (Match root key) = dataOf (Match me key).
Proof.
  intros Cm Al Hm Hl Hf.
  destruct (insert_present me key data f s (Pos.succ s) Cm Al ltac:(lia) Hm Hl Hf)
    as (head & node' & s' & E & _ & Hn & Hfresh & HM & HP & HD & HA).
  exists head, s'. split.
  { unfold InsertOrUpdate, bind, newNode, alloc, bind, ret. now rewrite E. }
  split; [now apply (allocated_ptr_eqb s)|].
  rewrite HM. auto.
Qed.

(** *** The invariant implies the validity check *)

Lemma sizeOf_valid (a : bool) (c0 c1 : trieNode V) :
  (if a then uint32 (sizeOf a c0 c1 - 1) else sizeOf a c0 c1)
  = uint32 (NumNodes c0 + NumNodes c1).
Proof.
  unfold sizeOf, uint32. destruct a; [|reflexivity].
  rewrite Zminus_mod_idemp_l.
  replace ((NumNodes c0 + NumNodes c1) mod 2 ^ 32 + 1 - 1)
    with ((NumNodes c0 + NumNodes c1) mod 2 ^ 32) by lia.
  apply Z.mod_mod. discriminate.
Qed.

Lemma heightOf_valid (c0 c1 : trieNode V) :
  heightOf c0 c1 = uint16 (1 + uint16 (intMax (height c0) (height c1))).
Proof.
  unfold heightOf, uint16. now rewrite Zplus_mod_idemp_r.
Qed.

Lemma good_intro p k d sz ht a (c0 c1 : trieNode V) :
  wfPrefix k -> under k false c0 -> under k true c1 ->
  good c0 -> good c1 ->
  (a = false -> isNil c0 = false /\ isNil c1 = false) ->
  sz = sizeOf a c0 c1 -> ht = heightOf c0 c1 ->
  good (Node p k d sz ht a c0 c1).
Proof.
  intros W U0 U1 [S0 C0] [S1 C1] Hin Hsz Hht.
  split; simpl; auto 10.
Qed.

Lemma good_inv p k d sz ht a (c0 c1 : trieNode V) :
  good (Node p k d sz ht a c0 c1) ->
  wfPrefix k /\ under k false c0 /\ under k true c1
  /\ good c0 /\ good c1
  /\ (a = false -> isNil c0 = false /\ isNil c1 = false)
  /\ sz = sizeOf a c0 c1 /\ ht = heightOf c0 c1.
Proof.
  intros [(W & U0 & U1 & S0 & S1) (Hsz & Hht & Hin & C0 & C1)].
  unfold good. auto 12.
Qed.

Lemma under_length k b (c : trieNode V) :
  wfPrefix k -> shaped c -> under k b c ->
  isNil c = true \/ uint32 (length k + 1) <= length (prefixOf c).
Proof.
  intros [_ Hk] S U. destruct c as [|p kc d sz ht a c0 c1]; [now left|right].
  destruct S as ([_ Hc] & _). destruct U as (L & _). simpl.
  rewrite uint32_small; lia.
Qed.

Lemma good_isValidLen (t : trieNode V) :
  good t ->
  forall m, isNil t = true \/ m <= length (prefixOf t) ->
  isValidLen t m = true.
Proof.
  induction t as [|p k d sz ht a c0 IH0 c1 IH1]; intros G m Hm; [reflexivity|].
  apply good_inv in G.
  destruct G as (W & U0 & U1 & G0 & G1 & Hin & -> & ->).
  destruct Hm as [Hm|Hm]; [discriminate|]. simpl in Hm.
  cbn [isValidLen].
  assert (E1 : negb a && (isNil c0 || isNil c1) = false).
  { destruct a; [reflexivity|]. destruct (Hin eq_refl) as [-> ->]. reflexivity. }
  rewrite E1, sizeOf_valid, Z.eqb_refl, <- heightOf_valid, Z.eqb_refl.
  cbn [negb].
  replace (length k <? m) with false by (symmetry; apply Z.ltb_ge; lia).
  rewrite IH0, IH1; try assumption; try reflexivity.
  - apply under_length with true; [assumption | apply G1 | assumption].
  - apply under_length with false; [assumption | apply G0 | assumption].
Qed.

Lemma good_isValid (t : trieNode V) : good t -> isValid t = true.
Proof.
  intros G. apply good_isValidLen; [assumption|].
  destruct t as [|p k d sz ht a c0 c1]; [now left|right].
  simpl. destruct G as [([_ Hk] & _) _]. lia.
Qed.

(** *** The operations keep the invariant *)

Lemma underK_same k k' b kc :
  wfPrefix k -> wfPrefix k' -> wfPrefix kc ->
  length k = length k' ->
  agreeb (length k) (ui (addr k)) (ui (addr k')) = true ->
  underK k b kc -> underK k' b kc.
Proof.
  intros _ _ _ El A (L & A' & B). unfold underK. rewrite <- El.
  split; [assumption|]. split; [|assumption].
  apply agreeb_trans with (ui (addr k)); [|assumption].
  now rewrite agreeb_sym.
Qed.

Lemma under_same k k' b (c : trieNode V) :
  wfPrefix k -> wfPrefix k' -> shaped c ->
  length k = length k' ->
  agreeb (length k) (ui (addr k)) (ui (addr k')) = true ->
  under k b c -> under k' b c.
Proof.
  intros Wk Wk' S El A U. destruct c as [|p kc d sz ht a c0 c1]; [exact I|].
  simpl in *. apply underK_same with k; try assumption. apply S.
Qed.

(* The children of a node keyed below [k'] are keyed below [k'] too. *)
Lemma under_children k' b' p k d sz ht a (c0 c1 : trieNode V) :
  wfPrefix k' -> shaped (Node p k d sz ht a c0 c1) -> underK k' b' k ->
  under k' b' c0 /\ under k' b' c1.
Proof.
  intros W' (W & U0 & U1 & S0 & S1) U.
  split.
  - destruct c0 as [|p0 k0 d0 sz0 ht0 a0 c00 c01]; [exact I|]. simpl in *.
    apply underK_trans with (kc := k) (b' := false); try assumption. apply S0.
  - destruct c1 as [|p1 k1 d1 sz1 ht1 a1 c10 c11]; [exact I|]. simpl in *.
    apply underK_trans with (kc := k) (b' := true); try assumption. apply S1.
Qed.

Lemma insertNil_done q key (data : Data V) opts s head node' s' :
  insertNil (Node q key data 0 0 false nil nil) opts s = Done (head, None, node') s' ->
  head = Node q key data (sizeOf true (@nil V) nil) (heightOf (@nil V) nil) true nil nil
  /\ node' = head /\ s' = s.
Proof.
  unfold insertNil, ret. destruct (optInsert opts); cbn [negb]; [|discriminate].
  intros [= <- <- <-]. auto.
Qed.

Lemma good_leaf q key (data : Data V) :
  wfPrefix key ->
  good (Node q key data (sizeOf true (@nil V) nil) (heightOf (@nil V) nil) true nil nil).
Proof.
  intros W. apply good_intro; try assumption; try exact I; try reflexivity;
    try (split; exact I). discriminate.
Qed.

Lemma insert_good me :
  good me ->
  forall q key data opts s head node' s',
    wfPrefix key ->
    insert me (Node q key data 0 0 false nil nil) opts s
    = Done (head, None, node') s' ->
    good head /\ isNil head = false
    /\ (forall k b, wfPrefix k -> under k b me -> underK k b key ->
                    under k b head).
Proof.
  induction me as [|p k d sz ht a c0 IH0 c1 IH1];
    intros G q key data opts s head node' s' Wkey H.
  - cbn [insert] in H. apply insertNil_done in H. destruct H as (-> & _ & _).
    split; [now apply good_leaf|]. split; [reflexivity|].
    intros k b _ _ U. exact U.
  - pose proof G as Gme. apply good_inv in G.
    destruct G as (Wk & U0 & U1 & G0 & G1 & Hin & Esz & Eht).
    cbn [insert] in H.
    destruct (compare k key) as [[[result reversed] common] child] eqn:Ec.
    pose proof (compare_cases k key Wk Wkey _ _ _ _ Ec) as Hc.
    destruct result.
    + (* the key is the node's key *)
      destruct Hc as (El & A).
      assert (Hh : exists d', head = Node q key d' (sizeOf true c0 c1)
                                     (heightOf c0 c1) true c0 c1).
      { destruct (a && negb (optUpdate opts)); [discriminate|].
        destruct (negb a && negb (optInsert opts)); [discriminate|].
        unfold bind in H.
        match type of H with
        | context [match ?x with _ => _ end] =>
            destruct x as [same t|]; [|discriminate]
        end.
        unfold ret in H. injection H as <- <- <-.
        destruct same; eexists; reflexivity. }
      destruct Hh as (d' & ->).
      split; [|split; [reflexivity|intros k' b' _ _ U; exact U]].
      apply good_intro; try assumption; try reflexivity; try discriminate.
      * apply under_same with k; try assumption. apply G0.
      * apply under_same with k; try assumption. apply G1.
    + (* the key goes below the node *)
      unfold bind in H.
      destruct (insert (if child =? 0 then c0 else c1)
                       (Node q key data 0 0 false nil nil) opts s)
        as [[[nc err] nd] s1|] eqn:Er; [|discriminate].
      destruct err; [discriminate|].
      assert (IH : good nc /\ isNil nc = false
                   /\ (forall k' b', wfPrefix k' ->
                          under k' b' (if child =? 0 then c0 else c1) ->
                          underK k' b' key -> under k' b' nc)).
      { destruct (child =? 0); [eapply IH0 | eapply IH1]; eassumption. }
      destruct IH as (Gnc & Nnc & Tnc).
      rewrite copyMutate_node, mutate_set_child in H.
      destruct (struct_eqb _ _) as [same|]; [|discriminate].
      unfold ret in H. injection H as <- <- <-.
      destruct same.
      { split; [assumption|]. split; [reflexivity|]. intros k' b' _ U _. exact U. }
      assert (Unc : under k (childBit child) nc).
      { apply Tnc; try assumption. unfold childBit.
        destruct (child =? 0); assumption. }
      unfold childBit in Unc.
      destruct (child =? 0); simpl in Unc;
        (split; [|split; [reflexivity|intros k' b' _ U _; exact U]]);
        apply good_intro; try assumption; try reflexivity;
        intros Ha; destruct (Hin Ha); auto.
    + (* the key goes above the node *)
      destruct (negb (optInsert opts)); [discriminate|].
      unfold ret in H. injection H as <- <- <-.
      unfold childBit in Hc.
      destruct (child =? 0); simpl in Hc; cbn [set_child set_isActive];
        (split; [|split; [reflexivity|intros k' b' _ _ U; exact U]]);
        apply good_intro; try assumption; try exact I; try reflexivity;
        try discriminate; try (split; exact I).
    + (* the keys are disjoint: a join above both *)
      destruct Hc as (H0 & H1 & H2 & Hag & Hdiff & Hside).
      unfold bind in H.
      destruct (insertNil (Node q key data 0 0 false nil nil) opts s)
        as [[[nc err] nd] s1|] eqn:Er; [|discriminate].
      destruct err; [discriminate|].
      apply insertNil_done in Er. destruct Er as (-> & -> & ->).
      destruct (join_under k key common Wk Wkey H0 H1 H2 Hag Hdiff)
        as (Wj & Uk & Uy & Tj).
      rewrite Hside in H.
      assert (Bk : bit_at (ui (addr k)) common
                   = negb (bit_at (ui (addr key)) common)).
      { destruct (bit_at (ui (addr k)) common),
                 (bit_at (ui (addr key)) common); try reflexivity;
          exfalso; apply Hdiff; reflexivity. }
      rewrite Bk in Uk.
      pose proof (good_leaf q key data Wkey) as Gy.
      destruct (bit_at (ui (addr key)) common); simpl in Uk;
        unfold alloc, ret in H; cbn [mutate] in H; injection H as <- <- <-;
        (split; [|split; [reflexivity|intros k' b' W' U1' U2'; now apply Tj]]);
        apply good_intro; try assumption; try reflexivity; auto.
Qed.

Lemma Done_inj {A} (x y : A) (s t : ptr) :
  Done x s = Done y t -> x = y /\ s = t.
Proof. intros [= -> ->]. auto. Qed.

(* Reading off a returned head without simplifying it. *)
Ltac head_of H :=
  apply Done_inj in H; destruct H as [H <-];
  repeat (apply pair_equal_spec in H; destruct H as [H _]);
  rewrite <- H; clear H.

Lemma good_replace_child p k d sz ht a c0 c1 child (nc : trieNode V) s1 :
  good (Node p k d sz ht a c0 c1) -> good nc ->
  under k (childBit child) nc ->
  (a = false -> isNil nc = false) ->
  good (if child =? 0
        then Node s1 k d (sizeOf a nc c1) (heightOf nc c1) a nc c1
        else Node s1 k d (sizeOf a c0 nc) (heightOf c0 nc) a c0 nc).
Proof.
  intros G Gnc U Hn. apply good_inv in G.
  destruct G as (Wk & U0 & U1 & G0 & G1 & Hin & _ & _).
  unfold childBit in U.
  destruct (child =? 0); simpl in U;
    apply good_intro; try assumption; try reflexivity;
    intros Ha; destruct (Hin Ha); auto.
Qed.

Lemma del_good me :
  good me ->
  forall key opts s head s',
    del me key opts s = Done (head, None) s' ->
    good head
    /\ (forall k b, wfPrefix k -> under k b me -> under k b head).
Proof.
  induction me as [|p k d sz ht a c0 IH0 c1 IH1];
    intros G key opts s head s' H.
  - cbn [del] in H. unfold ret in H.
    destruct (flatten opts); [|discriminate].
    injection H as <- <-.
      split; [assumption|intros; exact I].
  - pose proof G as Gme. apply good_inv in G.
    destruct G as (Wk & U0 & U1 & G0 & G1 & Hin & Esz & Eht).
    assert (Tc : forall k' b', wfPrefix k' ->
                   under k' b' (Node p k d sz ht a c0 c1) ->
                   under k' b' c0 /\ under k' b' c1).
    { intros k' b' W' U. apply under_children with p k d sz ht a; try assumption.
      exact (proj1 Gme). }
    assert (Gnil : good (@nil V)) by (split; exact I).
    cbn [del] in H.
    destruct (compare k key) as [[[result reversed] common] child].
    destruct result.
    + destruct (flatten opts).
      { unfold ret in H. injection H as <- <-.
      split; [assumption|intros; exact I]. }
      destruct (isNil c0) eqn:N0.
      { unfold ret in H. injection H as <- <-. split; [assumption|].
        intros k' b' W' U. now apply Tc. }
      destruct (isNil c1) eqn:N1.
      { unfold ret in H. injection H as <- <-. split; [assumption|].
        intros k' b' W' U. now apply Tc. }
      unfold bind in H. rewrite copyMutate_node in H.
      destruct (struct_eqb _ _) as [same|]; [|discriminate].
      unfold ret in H. head_of H.
      destruct same; [split; [assumption|auto]|].
      split; [|intros k' b' W' U; exact U].
      apply good_intro; try assumption; try reflexivity. auto.
    + unfold bind in H.
      destruct (del (if child =? 0 then c0 else c1) key opts s)
        as [[nc err] s1|] eqn:Er; [|discriminate].
      destruct err; [discriminate|].
      assert (IH : good nc
                   /\ (forall k' b', wfPrefix k' ->
                          under k' b' (if child =? 0 then c0 else c1) ->
                          under k' b' nc)).
      { destruct (child =? 0); [eapply IH0 | eapply IH1]; eassumption. }
      destruct IH as (Gnc & Tnc).
      destruct (isNil nc && negb a) eqn:Ep.
      { unfold ret in H. injection H as <- <-. cbn [children].
        destruct (reverseChild child =? 0);
          (split; [assumption|intros k' b' W' U; now apply Tc]). }
      rewrite copyMutate_node, mutate_set_child in H.
      destruct (struct_eqb _ _) as [same|]; [|discriminate].
      unfold ret in H. head_of H.
      destruct same; [split; [assumption|auto]|].
      split.
      * apply good_replace_child with p sz ht; try assumption.
        -- apply Tnc; [assumption|]. unfold childBit.
           destruct (child =? 0); assumption.
        -- intros ->. destruct (isNil nc); [discriminate Ep|reflexivity].
      * intros k' b' W' U. destruct (child =? 0); exact U.
    + destruct (flatten opts); [|discriminate].
      unfold ret in H. injection H as <- <-.
      split; [assumption|intros; exact I].
    + discriminate.
Qed.

(* The node [insert] was given is not nil when it returns. *)
Lemma insert_node_nonnil me :
  forall q key data szn htn an n0 n1 opts s head err node' s',
    insert me (Node q key data szn htn an n0 n1) opts s
    = Done (head, err, node') s' ->
    isNil node' = false.
Proof.
  induction me as [|p k d sz ht a c0 IH0 c1 IH1];
    intros q key data szn htn an n0 n1 opts s head err node' s' H;
    cbn [insert] in H.
  - unfold insertNil, ret in H.
    destruct (negb (optInsert opts)); now injection H as _ _ <- _.
  - destruct (compare k key) as [[[result reversed] common] child].
    destruct result.
    + destruct (a && negb (optUpdate opts));
        [unfold ret in H; now injection H as _ _ <- _|].
      destruct (negb a && negb (optInsert opts));
        [unfold ret in H; now injection H as _ _ <- _|].
      unfold bind in H.
      match type of H with
      | context [match ?x with _ => _ end] =>
          destruct x as [same t|]; [|discriminate]
      end.
      unfold ret in H. injection H as _ _ <- _. now destruct same.
    + unfold bind in H.
      destruct (insert (if child =? 0 then c0 else c1) _ opts s)
        as [[[nc e] nd] s1|] eqn:Er; [|discriminate].
      assert (Hn : isNil nd = false)
        by (destruct (child =? 0); [eapply IH0 | eapply IH1]; eassumption).
      destruct e; [unfold ret in H; now injection H as _ _ <- _|].
      destruct (copyMutate _ _ s1); [|discriminate].
      unfold ret in H. now injection H as _ _ <- _.
    + destruct (negb (optInsert opts)); unfold ret in H;
        injection H as _ _ <- _; [reflexivity|].
      unfold mutate, set_child. now destruct (child =? 0).
    + unfold bind, insertNil, alloc, ret in H.
      destruct (negb (optInsert opts)); [now injection H as _ _ <- _|].
      destruct (negb (Bool.eqb (child =? 1) reversed));
        now injection H as _ _ <- _.
Qed.

(* The deferred function of a panicking [GetOrInsert] does not stop the
   panic. *)
Lemma getOrInsertPanicking_panics {A} me key data (result : trieNode V) msg s :
  exists m t,
    getOrInsertPanicking (A := A) me key data result msg s = Panic m t.
Proof.
  unfold getOrInsertPanicking. destruct (isNil result); [|unfold panic; eauto].
  unfold bind, newNode, alloc, bind, ret.
  destruct (insert me _ _ _) as [[[h e] n] t|m t]; [|eauto].
  cbn [fst snd]. destruct e; unfold panic; eauto.
Qed.

Lemma deferred_result me key data (rets : trieNode V * trieNode V) s head result s' :
  getOrInsertDeferred me key data rets s = Done (head, result) s' ->
  isNil result = false.
Proof.
  unfold getOrInsertDeferred. destruct rets as [h r].
  destruct (isNil r) eqn:Hr.
  - unfold bind, newNode, alloc, bind, ret.
    destruct (insert me _ _ _) as [[[h' e] n] t|m t] eqn:E; [|discriminate].
    cbn [fst snd]. destruct e; [discriminate|].
    intros [= _ <- _]. eapply insert_node_nonnil; eassumption.
  - unfold ret. now intros [= _ <- _].
Qed.

(* What a returning [GetOrInsert] did at a node that sends the key to a
   child: the call on the child returned, with a result that is not nil, and
   [copyMutate] compared the copy with the node. *)
Lemma GetOrInsert_below p k d sz ht a (c0 c1 : trieNode V) key data s
      head result s' c child :
  (length key <? length k) = false ->
  contains k key = (true, false, c, child) ->
  GetOrInsert (Node p k d sz ht a c0 c1) key data s = Done (head, result) s' ->
  exists nc s1 same,
    GetOrInsert (if child =? 0 then c0 else c1) key data s
    = Done (nc, result) s1
    /\ isNil result = false
    /\ struct_eqb (if child =? 0
                   then Node s1 k d (sizeOf a nc c1) (heightOf nc c1) a nc c1
                   else Node s1 k d (sizeOf a c0 nc) (heightOf c0 nc) a c0 nc)
                  (Node p k d sz ht a c0 c1) = Some same
    /\ head = (if same then Node p k d sz ht a c0 c1
               else if child =? 0
                    then Node s1 k d (sizeOf a nc c1) (heightOf nc c1) a nc c1
                    else Node s1 k d (sizeOf a c0 nc) (heightOf c0 nc) a c0 nc)
    /\ s' = Pos.succ s1.
Proof.
  intros L E H. revert H. cbn [GetOrInsert]. rewrite L, E. cbn [negb].
  unfold bind, onPanic.
  destruct (GetOrInsert (if child =? 0 then c0 else c1) key data s)
    as [[nc res] s1|m s1] eqn:Er.
  2:{ destruct (getOrInsertPanicking_panics
                  (A := trieNode V * trieNode V)
                  (Node p k d sz ht a c0 c1) key data nil m s1)
        as (m' & t & ->). discriminate. }
  assert (Hres : isNil res = false).
  { clear - Er. revert Er.
    destruct (if child =? 0 then c0 else c1) as [|p' k' d' sz' ht' a' c0' c1'].
    - cbn [GetOrInsert]. apply deferred_result.
    - cbn [GetOrInsert].
      destruct (length key <? length k'); [apply deferred_result|].
      destruct (contains k' key) as [[[m e] cc] ch].
      destruct m; cbn [negb]; [|apply deferred_result].
      destruct e; cbn [negb];
        [destruct a'; cbn [negb]; apply deferred_result|].
      unfold bind, onPanic.
      destruct (GetOrInsert _ key data s) as [[nc' res'] t|m t].
      + destruct (copyMutate _ _ t) as [hd t'|m t'].
        * apply deferred_result.
        * destruct (getOrInsertPanicking_panics
                      (A := trieNode V)
                      (Node p' k' d' sz' ht' a' c0' c1') key data res' m t')
            as (m' & t'' & ->). discriminate.
      + destruct (getOrInsertPanicking_panics
                    (A := trieNode V * trieNode V)
                    (Node p' k' d' sz' ht' a' c0' c1') key data nil m t)
          as (m' & t'' & ->). discriminate. }
  rewrite copyMutate_node, mutate_set_child.
  destruct (struct_eqb _ _) as [same|] eqn:Es.
  2:{ destruct (getOrInsertPanicking_panics
                  (A := trieNode V)
                  (Node p k d sz ht a c0 c1) key data res errUncomparable
                  (Pos.succ s1))
        as (m' & t & ->). discriminate. }
  unfold getOrInsertDeferred. rewrite Hres. unfold ret.
  intros [= <- <- <-]. exists nc, s1, same. auto.
Qed.

Lemma deferred_good me key data s head result s' :
  good me -> wfPrefix key ->
  getOrInsertDeferred me key data (nil, nil) s = Done (head, result) s' ->
  good head /\ isNil head = false
  /\ (forall k b, wfPrefix k -> under k b me -> underK k b key ->
                  under k b head).
Proof.
  intros G W H. unfold getOrInsertDeferred in H. cbn [isNil] in H.
  unfold bind, newNode, alloc, bind, ret in H.
  destruct (insert me (Node s key data 0 0 false nil nil)
                   (mkInsertOpts true false None) (Pos.succ s))
    as [[[h e] n] s2|] eqn:E; [|discriminate].
  cbn [fst snd] in H. destruct e; [discriminate|].
  injection H as <- <- <-.
  eapply insert_good; eassumption.
Qed.

Lemma GetOrInsert_good me :
  good me ->
  forall key data s head result s',
    wfPrefix key ->
    GetOrInsert me key data s = Done (head, result) s' ->
    good head /\ isNil head = false
    /\ (forall k b, wfPrefix k -> under k b me -> underK k b key ->
                    under k b head).
Proof.
  induction me as [|p k d sz ht a c0 IH0 c1 IH1];
    intros G key data s head result s' Wkey H.
  - cbn [GetOrInsert] in H. eapply deferred_good; eassumption.
  - pose proof H as H0. cbn [GetOrInsert] in H.
    destruct (Z.ltb_spec (length key) (length k)) as [L|L];
      [eapply deferred_good; eassumption|].
    destruct (contains k key) as [[[m e] c] child] eqn:E.
    destruct m; cbn [negb] in H; [|eapply deferred_good; eassumption].
    destruct e; cbn [negb] in H.
    + destruct a; cbn [negb] in H; [|eapply deferred_good; eassumption].
      unfold getOrInsertDeferred, ret in H. cbn [isNil] in H.
      injection H as <- <- <-.
      split; [assumption|]. split; [reflexivity|]. intros k' b' _ U _. exact U.
    + pose proof G as Gme. apply good_inv in G.
      destruct G as (Wk & U0 & U1 & G0 & G1 & Hin & Esz & Eht).
      assert (Uk : underK k (childBit child) key).
      { destruct (contains_cases k key Wk Wkey L) as [[A E']|[A (_ & _ & _ & E')]];
          rewrite E' in E; [|discriminate].
        injection E as Ee _ Ech.
        apply Z.eqb_neq in Ee. rewrite <- Ech.
        destruct (Z.eqb_spec (length k) (length key)) as [?|_]; [lia|].
        rewrite childBit_if. unfold underK. repeat split; try assumption. lia. }
      destruct (GetOrInsert_below _ _ _ _ _ _ _ _ _ _ _ _ _ _ _ _
                  (proj2 (Z.ltb_ge _ _) L) E H0)
        as (nc & s1 & same & Er & Hres & Es & -> & ->).
      assert (IH : good nc /\ isNil nc = false
                   /\ (forall k' b', wfPrefix k' ->
                          under k' b' (if child =? 0 then c0 else c1) ->
                          underK k' b' key -> under k' b' nc)).
      { destruct (child =? 0); [eapply IH0 | eapply IH1]; eassumption. }
      destruct IH as (Gnc & Nnc & Tnc).
      destruct same.
      { split; [assumption|]. split; [reflexivity|]. intros k' b' _ U _. exact U. }
      split; [|split].
      * apply good_replace_child with p sz ht; try assumption; auto.
        apply Tnc; try assumption. unfold childBit.
        destruct (child =? 0); assumption.
      * now destruct (child =? 0).
      * intros k' b' _ U _. destruct (child =? 0); exact U.
Qed.

(** *** Every operation returns where the stored values can be compared *)

Lemma insert_done me :
  comparable me ->
  forall q kn dn szn htn an n0 n1 opts s,
    optUpdate opts = false \/ optEq opts <> None ->
    exists r s',
      insert me (Node q kn dn szn htn an n0 n1) opts s = Done r s'.
Proof.
  induction me as [|p k d sz ht a c0 IH0 c1 IH1]; intros Cm; intros;
    cbn [insert].
  - unfold insertNil, ret. destruct (negb (optInsert opts)); eauto.
  - destruct Cm as (Hd & Cm0 & Cm1).
    destruct (compare k kn) as [[[result reversed] common] child].
    destruct result.
    + destruct a; cbn [andb negb].
      * destruct (optUpdate opts) eqn:Eu; cbn [negb]; [|unfold ret; eauto].
        destruct (optEq opts) as [f|] eqn:Ef;
          [unfold bind, callEq, ret; eauto|].
        destruct H as [H|H]; congruence.
      * destruct (negb (optInsert opts)); unfold bind, ret; eauto.
    + unfold bind.
      assert (R : exists r s1,
                 insert (if child =? 0 then c0 else c1)
                        (Node q kn dn szn htn an n0 n1) opts s = Done r s1)
        by (destruct (child =? 0); [apply IH0 | apply IH1]; assumption).
      destruct R as ([[nc err] nd] & s1 & ->).
      destruct err; [unfold ret; eauto|].
      destruct (copyMutate_done p k d sz ht a c0 c1 child nc s1 Hd) as (r & ->).
      unfold ret. eauto.
    + unfold ret. destruct (negb (optInsert opts)); eauto.
    + unfold bind, insertNil, alloc, ret.
      destruct (negb (optInsert opts)); [eauto|].
      destruct (negb (Bool.eqb (child =? 1) reversed)); eauto.
Qed.

Lemma del_done me :
  comparable me ->
  forall key opts s, exists r s', del me key opts s = Done r s'.
Proof.
  induction me as [|p k d sz ht a c0 IH0 c1 IH1]; intros Cm; intros;
    cbn [del].
  - unfold ret. destruct (flatten opts); eauto.
  - destruct Cm as (Hd & Cm0 & Cm1).
    destruct (compare k key) as [[[result reversed] common] child].
    destruct result.
    + unfold bind, ret. destruct (flatten opts); [eauto|].
      destruct (isNil c0); [eauto|]. destruct (isNil c1); [eauto|].
      rewrite copyMutate_node.
      destruct (struct_eqb _ _) as [same|] eqn:E; [eauto|].
      exfalso. revert E. cbn [mutate set_isActive set_Data struct_eqb].
      destruct (negb _); [discriminate|].
      destruct d; cbn [Data_eqb]; discriminate.
    + unfold bind.
      assert (R : exists r s1,
                 del (if child =? 0 then c0 else c1) key opts s = Done r s1)
        by (destruct (child =? 0); [now apply IH0 | now apply IH1]).
      destruct R as ([nc err] & s1 & ->).
      destruct err; [unfold ret; eauto|].
      destruct (isNil nc && negb a); [unfold ret; eauto|].
      destruct (copyMutate_done p k d sz ht a c0 c1 child nc s1 Hd) as (r & ->).
      unfold ret. eauto.
    + unfold ret. destruct (flatten opts); eauto.
    + unfold ret. eauto.
Qed.

(** *** The stored values stay comparable *)

Lemma comparable_replace_child p k d sz ht a c0 c1 child (nc : trieNode V) q
      sz0 ht0 sz1 ht1 :
  comparable (Node p k d sz ht a c0 c1) -> comparable nc ->
  comparable (if child =? 0 then Node q k d sz0 ht0 a nc c1
              else Node q k d sz1 ht1 a c0 nc).
Proof.
  intros (Hd & C0 & C1) Cn. destruct (child =? 0); repeat split; assumption.
Qed.

Lemma insert_comparable me :
  comparable me ->
  forall q key data opts s head err node' s',
    Data_eqb data data <> None ->
    insert me (Node q key data 0 0 false nil nil) opts s
    = Done (head, err, node') s' ->
    comparable head.
Proof.
  induction me as [|p k d sz ht a c0 IH0 c1 IH1];
    intros Cm q key data opts s head err node' s' Hc H; cbn [insert] in H.
  - unfold insertNil, ret in H.
    destruct (negb (optInsert opts)); injection H as <- _ _ _;
      [exact I|]. repeat split; assumption.
  - pose proof Cm as (Hd & Cm0 & Cm1).
    destruct (compare k key) as [[[result reversed] common] child].
    destruct result.
    + destruct (a && negb (optUpdate opts));
        [unfold ret in H; now injection H as <- _ _ _|].
      destruct (negb a && negb (optInsert opts));
        [unfold ret in H; now injection H as <- _ _ _|].
      unfold bind in H.
      match type of H with
      | context [match ?x with _ => _ end] =>
          destruct x as [same t|]; [|discriminate]
      end.
      unfold ret in H. injection H as <- _ _ _.
      destruct same; repeat split; assumption.
    + unfold bind in H.
      destruct (insert (if child =? 0 then c0 else c1) _ opts s)
        as [[[nc e] nd] s1|] eqn:Er; [|discriminate].
      assert (Cn : comparable nc).
      { destruct (child =? 0);
          [exact (IH0 Cm0 _ _ _ _ _ _ _ _ _ Hc Er)
          |exact (IH1 Cm1 _ _ _ _ _ _ _ _ _ Hc Er)]. }
      destruct e; [unfold ret in H; now injection H as <- _ _ _|].
      rewrite copyMutate_node, mutate_set_child in H.
      destruct (struct_eqb _ _) as [same|]; [|discriminate].
      unfold ret in H. injection H as <- _ _ _.
      destruct same; [assumption|].
      now apply comparable_replace_child with p sz ht.
    + destruct (negb (optInsert opts)); unfold ret in H;
        injection H as <- _ _ _; [assumption|].
      unfold mutate, set_child.
      destruct (child =? 0); repeat split; assumption.
    + unfold bind, insertNil, alloc, ret in H.
      destruct (negb (optInsert opts)); [now injection H as <- _ _ _|].
      destruct (negb (Bool.eqb (child =? 1) reversed));
        injection H as <- _ _ _; repeat split; try assumption; discriminate.
Qed.

Lemma del_comparable me :
  comparable me ->
  forall key opts s head err s',
    del me key opts s = Done (head, err) s' -> comparable head.
Proof.
  induction me as [|p k d sz ht a c0 IH0 c1 IH1];
    intros Cm key opts s head err s' H; cbn [del] in H.
  - unfold ret in H. destruct (flatten opts); now injection H as <- _ _.
  - pose proof Cm as (Hd & Cm0 & Cm1).
    destruct (compare k key) as [[[result reversed] common] child].
    destruct result.
    + destruct (flatten opts); [unfold ret in H; now injection H as <- _ _|].
      destruct (isNil c0); [unfold ret in H; now injection H as <- _ _|].
      destruct (isNil c1); [unfold ret in H; now injection H as <- _ _|].
      unfold bind in H. rewrite copyMutate_node in H.
      destruct (struct_eqb _ _) as [same|]; [|discriminate].
      unfold ret in H. injection H as <- _ _.
      destruct same; [assumption|].
      repeat split; try assumption. discriminate.
    + unfold bind in H.
      destruct (del (if child =? 0 then c0 else c1) key opts s)
        as [[nc e] s1|] eqn:Er; [|discriminate].
      assert (Cn : comparable nc).
      { destruct (child =? 0); [eapply IH0 | eapply IH1]; eassumption. }
      destruct e; [unfold ret in H; now injection H as <- _ _|].
      destruct (isNil nc && negb a).
      { unfold ret in H. injection H as <- _ _. cbn [children].
        now destruct (reverseChild child =? 0). }
      rewrite copyMutate_node, mutate_set_child in H.
      destruct (struct_eqb _ _) as [same|]; [|discriminate].
      unfold ret in H. injection H as <- _ _.
      destruct same; [assumption|].
      now apply comparable_replace_child with p sz ht.
    + unfold ret in H. destruct (flatten opts); now injection H as <- _ _.
    + unfold ret in H. now injection H as <- _ _.
Qed.

Lemma deferred_comparable me key data (rets : trieNode V * trieNode V) s
      head result s' :
  comparable me -> Data_eqb data data <> None ->
  (isNil (snd rets) = false -> comparable (fst rets)) ->
  getOrInsertDeferred me key data rets s = Done (head, result) s' ->
  comparable head.
Proof.
  intros Cm Hc Hr H. unfold getOrInsertDeferred in H. destruct rets as [h r].
  cbn [fst snd] in Hr. destruct (isNil r).
  - unfold bind, newNode, alloc, bind, ret in H.
    destruct (insert me _ _ _) as [[[h' e] n] t|m t] eqn:E; [|discriminate].
    cbn [fst snd] in H. destruct e; [discriminate|].
    injection H as <- _ _. eapply insert_comparable; eassumption.
  - unfold ret in H. injection H as <- _ _. now apply Hr.
Qed.

Lemma GetOrInsert_comparable me :
  comparable me ->
  forall key data s head result s',
    Data_eqb data data <> None ->
    GetOrInsert me key data s = Done (head, result) s' ->
    comparable head.
Proof.
  induction me as [|p k d sz ht a c0 IH0 c1 IH1];
    intros Cm key data s head result s' Hc H.
  - cbn [GetOrInsert] in H.
    eapply deferred_comparable; try eassumption. discriminate.
  - pose proof H as H0. cbn [GetOrInsert] in H.
    destruct (length key <? length k) eqn:L;
      [eapply deferred_comparable; try eassumption; discriminate|].
    destruct (contains k key) as [[[m e] c] child] eqn:E.
    destruct m; cbn [negb] in H;
      [|eapply deferred_comparable; try eassumption; discriminate].
    destruct e; cbn [negb] in H.
    + destruct a; cbn [negb] in H;
        eapply deferred_comparable; try eassumption; try discriminate.
      intros _. exact Cm.
    + destruct (GetOrInsert_below _ _ _ _ _ _ _ _ _ _ _ _ _ _ _ _ L E H0)
        as (nc & s1 & same & Er & Hres & Es & -> & ->).
      pose proof Cm as (Hd & Cm0 & Cm1).
      assert (Cn : comparable nc).
      { destruct (child =? 0);
          [exact (IH0 Cm0 _ _ _ _ _ _ Hc Er)
          |exact (IH1 Cm1 _ _ _ _ _ _ Hc Er)]. }
      destruct same; [assumption|].
      now apply comparable_replace_child with p sz ht.
Qed.

(** *** Sequences of operations *)

(* An operation that returns keeps the invariants. *)
Lemma applyOp_good root (o : op V) s root' s' :
  good root -> wfPrefix (opKey o) ->
  applyOp root o s = Done root' s' -> good root'.
Proof.
  intros G W H. destruct o as [key data|key data eq|key data eq|key data|key];
    simpl in W; unfold applyOp in H.
  - unfold Insert, bind, newNode, alloc, bind, ret in H.
    destruct (insert root _ _ _) as [[[h e] n] t|] eqn:E; [|discriminate].
    cbn [fst snd] in H. injection H as <- <-.
    destruct e as [e|].
    + apply insert_error_head in E. now subst.
    + eapply insert_good; eassumption.
  - unfold Update, bind, newNode, alloc, bind, ret in H.
    destruct (insert root _ _ _) as [[[h e] n] t|] eqn:E; [|discriminate].
    cbn [fst snd] in H. injection H as <- <-.
    destruct e as [e|].
    + apply insert_error_head in E. now subst.
    + eapply insert_good; eassumption.
  - unfold InsertOrUpdate, bind, newNode, alloc, bind, ret in H.
    destruct (insert root _ _ _) as [[[h e] n] t|] eqn:E; [|discriminate].
    cbn [fst snd] in H. destruct e; [discriminate|].
    unfold ret in H. injection H as <- <-.
    eapply insert_good; eassumption.
  - unfold bind, ret in H.
    destruct (GetOrInsert root key data s) as [[h r] t|] eqn:E; [|discriminate].
    cbn [fst] in H. injection H as <- <-.
    eapply GetOrInsert_good; eassumption.
  - unfold Delete, bind, ret in H.
    destruct (del root key _ s) as [[h e] t|] eqn:E; [|discriminate].
    cbn [fst] in H. injection H as <- <-.
    destruct e as [e|].
    + apply del_error_head in E. now subst.
    + eapply del_good; eassumption.
Qed.

(* An operation returns where Go can compare the values in the trie, and
   with a value it can compare they stay so. *)
Lemma applyOp_done root (o : op V) s :
  comparable root -> Data_eqb (opData o) (opData o) <> None ->
  exists root' s', applyOp root o s = Done root' s' /\ comparable root'.
Proof.
  intros Cm Hc. destruct o as [key data|key data eq|key data eq|key data|key];
    cbn [opData] in Hc; unfold applyOp.
  - unfold Insert, bind, newNode, alloc, bind, ret.
    destruct (insert_done root Cm s key data 0 0 false nil nil
                (mkInsertOpts true false None) (Pos.succ s) (or_introl eq_refl))
      as ([[h e] n] & s' & E).
    rewrite E. cbn [fst snd]. exists h, s'. split; [reflexivity|].
    eapply insert_comparable; eassumption.
  - unfold Update, bind, newNode, alloc, bind, ret.
    assert (Hne : optEq (mkInsertOpts false true (Some eq)) <> None)
      by (cbn [optEq]; discriminate).
    destruct (insert_done root Cm s key data 0 0 false nil nil
                (mkInsertOpts false true (Some eq)) (Pos.succ s)
                (or_intror Hne))
      as ([[h e] n] & s' & E).
    rewrite E. cbn [fst snd]. exists h, s'. split; [reflexivity|].
    eapply insert_comparable; eassumption.
  - unfold InsertOrUpdate, bind, newNode, alloc, bind, ret.
    destruct (insert_upsert_ok root s key data 0 0 false nil nil eq (Pos.succ s))
      as [(h & n & s' & E)|(Hn & _)]; [|contradiction].
    rewrite E. cbn [fst snd]. exists h, s'. split; [reflexivity|].
    eapply insert_comparable; eassumption.
  - destruct (GetOrInsert_done root Cm key data s) as (h & r & s' & E & _).
    unfold bind, ret. rewrite E. cbn [fst]. exists h, s'. split; [reflexivity|].
    eapply GetOrInsert_comparable; eassumption.
  - unfold Delete.
    destruct (del_done root Cm key (mkDeleteOpts false) s) as ([h e] & s' & E).
    unfold bind, ret. rewrite E. cbn [fst]. exists h, s'. split; [reflexivity|].
    eapply del_comparable; eassumption.
Qed.

Lemma runOps_good (ops : list (op V)) :
  forall root s roots s',
    good root -> Forall (fun o => wfPrefix (opKey o)) ops ->
    runOps root ops s = Done roots s' ->
    List.length roots = List.length ops /\ Forall good roots.
Proof.
  induction ops as [|o rest IH]; intros root s roots s' G W H;
    cbn [runOps] in H.
  - unfold ret in H. injection H as <- _. split; [reflexivity|constructor].
  - inversion W as [|? ? Wo Wrest]; subst.
    unfold bind in H.
    destruct (applyOp root o s) as [root' s1|] eqn:E; [|discriminate].
    destruct (runOps root' rest s1) as [rs s2|] eqn:E'; [|discriminate].
    unfold ret in H. injection H as <- _.
    pose proof (applyOp_good root o s root' s1 G Wo E) as G'.
    destruct (IH root' s1 rs s2 G' Wrest E') as (Hl & Hg).
    split; [simpl; congruence|]. now constructor.
Qed.

Lemma runOps_done (ops : list (op V)) :
  forall root s,
    comparable root ->
    Forall (fun o => Data_eqb (opData o) (opData o) <> None) ops ->
    exists roots s', runOps root ops s = Done roots s'.
Proof.
  induction ops as [|o rest IH]; intros root s Cm W.
  - exists [], s. reflexivity.
  - inversion W as [|? ? Wo Wrest]; subst.
    destruct (applyOp_done root o s Cm Wo) as (root' & s1 & E & Cm').
    destruct (IH root' s1 Cm' Wrest) as (roots & s' & E').
    exists (root' :: roots), s'. cbn [runOps]. unfold bind, ret.
    now rewrite E, E'.
Qed.

Lemma wfPrefixb_true p : wfPrefixb p = true -> wfPrefix p.
Proof.
  unfold wfPrefixb, wfPrefix. rewrite !andb_true_iff.
  rewrite !Z.leb_le, Z.ltb_lt. tauto.
Qed.

(** C2. Starting from the empty trie, a sequence of Insert, Update,
    InsertOrUpdate, GetOrInsert and Delete operations runs to its end when
    Go can compare each value it stores with itself (a comparison of
    [copyMutate] panics on the others), and whenever a sequence runs to its
    end the validity check holds on the root after each operation: no
    inactive node lacks a child, sizes and heights are the ones computed
    from the children, and every child's prefix is longer than its
    parent's. *)
Theorem ops_keep_validity (ops : list (op V)) s :
  Forall (fun o => wfPrefix (opKey o)) ops ->
  (forall roots s',
      runOps nil ops s = Done roots s' ->
      List.length roots = List.length ops
      /\ Forall (fun r => isValid r = true /\ counted r /\ shaped r) roots)
  /\ (Forall (fun o => Data_eqb (opData o) (opData o) <> None) ops ->
      exists roots s', runOps nil ops s = Done roots s').
Proof.
  intros W. split.
  - intros roots s' E.
    destruct (runOps_good ops nil s roots s' (conj I I) W E) as (Hl & Hg).
    split; [exact Hl|].
    apply Forall_impl with (2 := Hg).
    intros r G. split; [now apply good_isValid|]. destruct G. now split.
  - intros Hc. exact (runOps_done ops nil s I Hc).
Qed.

(** *** The scenario of two disjoint prefixes *)

(** C9. Inserting 10.0.0.0/24 and then 10.0.1.0/24 (which first differ at
    bit 23) into the empty trie gives an inactive root keyed 10.0.0.0/23,
    with the bits after the 23rd zero, of height 2 and with 2 entries, whose
    children are the two inserted nodes; deleting either prefix then returns
    the other node itself as root, of height 1 and with 1 entry. *)
Theorem disjoint_insert_then_delete_promotes (d1 d2 : Data V) (s : ptr) :
  let k1 := ip4 10 0 0 0 24 in
  let k2 := ip4 10 0 1 0 24 in
  let n1 := Node s k1 d1 1 1 true nil nil in
  let n2 := Node (Pos.succ s) k2 d2 1 1 true nil nil in
  let root := Node (Pos.succ (Pos.succ s)) (ip4 10 0 0 0 23) None 2 2 false n1 n2 in
  Insert nil k1 d1 s = Done (n1, None) (Pos.succ s)
  /\ Insert n1 k2 d2 (Pos.succ s) = Done (root, None) (Pos.succ (Pos.succ (Pos.succ s)))
  /\ active root = false /\ height root = 2 /\ NumNodes root = 2
  /\ children root 0 = n1 /\ children root 1 = n2
  /\ (forall t, exists t',
        Delete root k1 t = Done (n2, None) t' /\ ptr_eqb n2 (children root 1) = true)
  /\ (forall t, exists t',
        Delete root k2 t = Done (n1, None) t' /\ ptr_eqb n1 (children root 0) = true)
  /\ height n2 = 1 /\ NumNodes n2 = 1 /\ height n1 = 1 /\ NumNodes n1 = 1.
Proof.
  cbv zeta.
  repeat match goal with |- _ /\ _ => split end;
    try (vm_compute; reflexivity);
    intros t; eexists; (split; [vm_compute; reflexivity | apply ptr_eqb_refl]).
Qed.

End TrieProofs.

(** ** Closed instances *)

Ltac evaluate := vm_compute; try reflexivity; try discriminate; try exact I.

Lemma exChain_shaped : shaped exChain.
Proof. repeat split; evaluate. Qed.

Lemma exChain_counted : counted exChain.
Proof. repeat split; evaluate. Qed.

Lemma exChain_comparable : comparable exChain.
Proof. repeat split; evaluate. Qed.


Lemma Match_longest_prefix_witness :
  (isNil (Match exChain (ip4 10 0 0 1 32)) = true ->
   forall e, In e (nodes exChain) -> active e = true ->
             containsKey (prefixOf e) (ip4 10 0 0 1 32) = false)
  /\ (isNil (Match exChain (ip4 10 0 0 1 32)) = false ->
      In (Match exChain (ip4 10 0 0 1 32)) (nodes exChain)
      /\ active (Match exChain (ip4 10 0 0 1 32)) = true
      /\ containsKey (prefixOf (Match exChain (ip4 10 0 0 1 32)))
                     (ip4 10 0 0 1 32) = true
      /\ forall e, In e (nodes exChain) -> active e = true ->
                   containsKey (prefixOf e) (ip4 10 0 0 1 32) = true ->
                   e = Match exChain (ip4 10 0 0 1 32)
                   \/ length (prefixOf e)
                      < length (prefixOf (Match exChain (ip4 10 0 0 1 32)))).
Proof.
  apply (Match_longest_prefix exChain (ip4 10 0 0 1 32)).
  - exact exChain_shaped.
  - apply wfPrefixb_true. vm_compute. reflexivity.
Defined.

Lemma ops_keep_validity_witness :
  exists roots s',
    runOps nil exOps 1%positive = Done roots s'
    /\ List.length roots = List.length exOps
    /\ Forall (fun r => isValid r = true /\ counted r /\ shaped r) roots.
Proof.
  assert (W : Forall (fun o => wfPrefix (opKey o)) exOps)
    by (repeat constructor; apply wfPrefixb_true; vm_compute; reflexivity).
  assert (C : Forall (fun o => Data_eqb (opData o) (opData o) <> None) exOps)
    by (repeat constructor; vm_compute; discriminate).
  destruct (ops_keep_validity exOps 1%positive W) as [Hv Hd].
  destruct (Hd C) as (roots & s' & E).
  exists roots, s'. split; [exact E|]. exact (Hv roots s' E).
Defined.


Lemma failed_insert_del_returns_root_witness :
  insert exLeaf exNode exInsertOnly 3%positive
  = Done (exLeaf, Some errExists, exNode) 3%positive
  /\ del exLeaf (ip4 10 0 1 0 24) (mkDeleteOpts false) 3%positive
     = Done (exLeaf, Some errNotFound) 3%positive
  /\ (exLeaf = exLeaf /\ ptr_eqb exLeaf exLeaf = true)
  /\ (exLeaf = exLeaf /\ ptr_eqb exLeaf exLeaf = true).
Proof.
  split; [vm_compute; reflexivity|].
  split; [vm_compute; reflexivity|].
  split.
  - apply (proj1 (failed_insert_del_returns_root
                    exLeaf exNode exInsertOnly (ip4 10 0 1 0 24)
                    (mkDeleteOpts false) 3%positive)
             exLeaf errExists exNode 3%positive).
    vm_compute. reflexivity.
  - apply (proj2 (failed_insert_del_returns_root
                    exLeaf exNode exInsertOnly (ip4 10 0 1 0 24)
                    (mkDeleteOpts false) 3%positive)
             exLeaf errNotFound 3%positive).
    vm_compute. reflexivity.
Defined.

Lemma InsertOrUpdate_equal_value_keeps_data_witness :
  exists root s',
    InsertOrUpdate exChain (ip4 10 0 0 0 32) (Some 2) (Some eqZ) 100%positive
    = Done root s'
    /\ ptr_eqb root exChain = false
    /\ (100 <= addrOf root)%positive
    /\ active (Match root (ip4 10 0 0 0 32)) = true
    /\ prefixOf (Match root (ip4 10 0 0 0 32)) = ip4 10 0 0 0 32
    /\ dataOf (Match root (ip4 10 0 0 0 32))
       = dataOf (Match exChain (ip4 10 0 0 0 32)).
Proof.
  apply (InsertOrUpdate_equal_value_keeps_data
           exChain (ip4 10 0 0 0 32) (Some 2) eqZ 100%positive).
  - exact exChain_comparable.
  - repeat split; evaluate.
  - vm_compute. reflexivity.
  - vm_compute. reflexivity.
  - vm_compute. reflexivity.
Defined.

Lemma Equal_of_same_entries_witness :
  Equal exLeaf exLeafCopy eqZ = true /\ Equal exHostB exHostA eqZ = false.
Proof.
  split.
  - apply (proj1 (Equal_of_same_entries eqZ exLeaf exLeafCopy)).
    apply same_node.
    + reflexivity.
    + intros _. vm_compute. reflexivity.
    + apply same_nil.
    + apply same_nil.
  - apply (proj2 (Equal_of_same_entries eqZ exHostB exHostA)).
    + vm_compute. reflexivity.
    + vm_compute. discriminate.
Defined.

Lemma contains_spec_witness :
  (false = true <->
   forall i, 0 <= i < length (ip4 10 0 0 0 24) ->
     bit_at (ui (addr (ip4 10 0 0 0 24))) i
     = bit_at (ui (addr (ip4 10 0 1 0 24))) i)
  /\ (false = true ->
      false = (length (ip4 10 0 0 0 24) =? length (ip4 10 0 1 0 24))
      /\ 23 = length (ip4 10 0 0 0 24))
  /\ (false = false ->
      23 = Uint128.leadingZeros
             (Uint128.xor (ui (addr (ip4 10 0 0 0 24)))
                          (ui (addr (ip4 10 0 1 0 24)))))
  /\ (false = false ->
      1 = if bit_at (ui (addr (ip4 10 0 1 0 24))) 23 then 1 else 0).
Proof.
  apply (contains_spec (ip4 10 0 0 0 24) (ip4 10 0 1 0 24)).
  - apply wfPrefixb_true. vm_compute. reflexivity.
  - apply wfPrefixb_true. vm_compute. reflexivity.
  - vm_compute. discriminate.
  - vm_compute. reflexivity.
Defined.




(** C5 (the code at the failing input). A flatten delete of 10.0.1.0/24 from
    the single entry 10.0.0.0/24, which is disjoint from it, returns the
    error of a missing key. *)
Theorem del_flatten_disjoint_errors :
  del exLeaf (ip4 10 0 1 0 24) (mkDeleteOpts true) 2%positive
  = Done (exLeaf, Some errNotFound) 2%positive.
Proof. vm_compute. reflexivity. Qed.

(** C6 (counterexample). The trie holds 10.0.0.0/24 -> 1; inserting the
    same prefix with the same value, which the predicate finds equal,
    returns a root at a new address. *)
Lemma InsertOrUpdate_equal_value_new_root :
  Match exLeaf (ip4 10 0 0 0 24) = exLeaf
  /\ active exLeaf = true
  /\ eqZ (dataOf exLeaf) (Some 1) = true
  /\ exists root s',
      InsertOrUpdate exLeaf (ip4 10 0 0 0 24) (Some 1) (Some eqZ) 2%positive
      = Done root s'
      /\ ptr_eqb root exLeaf = false.
Proof.
  repeat match goal with |- _ /\ _ => split end; try (vm_compute; reflexivity).
  eexists. eexists. split; vm_compute; reflexivity.
Qed.

(** C7 (counterexample). Two single-entry tries for 10.0.0.0/24 whose
    addresses differ in the host bits only are equal in the spec's sense,
    and [Equal] returns false on them. *)
Lemma Equal_host_bits_differ :
  sameTrieSpec eqZ exHostA exHostB /\ Equal exHostA exHostB eqZ = false.
Proof.
  split; [|vm_compute; reflexivity].
  apply same_node.
  - split; vm_compute; reflexivity.
  - reflexivity.
  - apply same_nil.
  - apply same_nil.
Qed.

(** * Further properties of the code *)

(** ** [compare] *)

(** X1. For well-formed prefixes [compare] classifies the pair: it answers
    same exactly when the lengths are equal and the first bits agree,
    contains exactly when the first is strictly shorter and the second
    starts with it, is-contained exactly in the mirrored case, and disjoint
    exactly when the two differ within the shorter length; [reversed] tells
    that the second is the shorter one. *)
Theorem compare_classifies a b :
  wfPrefix a -> wfPrefix b ->
  forall result reversed common child,
    compare a b = (result, reversed, common, child) ->
    (result = compareSame <->
     length a = length b
     /\ agreeb (length a) (ui (addr a)) (ui (addr b)) = true)
    /\ (result = compareContains <->
        length a < length b
        /\ agreeb (length a) (ui (addr a)) (ui (addr b)) = true)
    /\ (result = compareIsContained <->
        length b < length a
        /\ agreeb (length b) (ui (addr a)) (ui (addr b)) = true)
    /\ (result = compareDisjoint <->
        agreeb (Z.min (length a) (length b)) (ui (addr a)) (ui (addr b)) = false)
    /\ reversed = (length b <? length a).
Proof.
  intros Wa Wb result reversed common child E.
  pose proof (compare_cases a b Wa Wb _ _ _ _ E) as H.
  assert (Hrev : reversed = (length b <? length a)).
  { unfold compare in E.
    destruct (length b <? length a);
      [destruct (contains b a) as [[[? ?] ?] ?]
      |destruct (contains a b) as [[[? ?] ?] ?]];
      congruence. }
  destruct Wa as [Ha Hal], Wb as [Hb Hbl].
  destruct result.
  - destruct H as (El & A).
    repeat split; try discriminate; try tauto; try assumption; try lia.
    intros D. rewrite <- El, Z.min_id, A in D. discriminate.
  - destruct H as (L & A & _).
    repeat split; try discriminate; try tauto; try assumption; try lia.
    intros D. rewrite Z.min_l, A in D by lia. discriminate.
  - destruct H as (L & A & _). rewrite agreeb_sym in A.
    repeat split; try discriminate; try tauto; try assumption; try lia.
    intros D. rewrite Z.min_r, A in D by lia. discriminate.
  - destruct H as (H0 & H1 & H2 & Hag & Hdiff & _).
    assert (D : forall n, common < n -> n <= 128 ->
                agreeb n (ui (addr a)) (ui (addr b)) = false).
    { intros n Hn Hn'. apply not_true_iff_false. intros A.
      apply Hdiff. apply (proj1 (agreeb_bits n _ _ ltac:(lia) Ha Hb) A). lia. }
    repeat split; try discriminate; try tauto; try assumption;
      try (intros [_ A]; rewrite D in A by lia; discriminate).
    intros _. apply D; lia.
Qed.

Section TrieExtras.

Context {V : Type} {V_eq : GoEq V}.

Implicit Types me node head : trieNode V.

(** ** Cached size and height *)

Lemma uint32_add_l x y : uint32 (uint32 x + y) = uint32 (x + y).
Proof. unfold uint32. apply Zplus_mod_idemp_l. Qed.

Lemma uint32_add_r x y : uint32 (x + uint32 y) = uint32 (x + y).
Proof. unfold uint32. apply Zplus_mod_idemp_r. Qed.

Lemma uint32_idem x : uint32 (uint32 x) = uint32 x.
Proof. unfold uint32. apply Z.mod_mod. discriminate. Qed.

Lemma uint32_range x : 0 <= uint32 x < 2 ^ 32.
Proof. unfold uint32. apply Z.mod_pos_bound. reflexivity. Qed.

Lemma numActive_nonneg (T : trieNode V) : 0 <= numActive T.
Proof.
  induction T as [|p k d sz ht a c0 IH0 c1 IH1]; simpl; [lia|].
  destruct a; lia.
Qed.

(** X2. On a trie whose cached sizes are up to date, [NumNodes] is the
    number of active nodes, reduced to 32 bits; below 2^32 entries it is
    that number itself. *)
Theorem NumNodes_counts_entries (T : trieNode V) :
  counted T ->
  NumNodes T = uint32 (numActive T)
  /\ (numActive T < 2 ^ 32 -> NumNodes T = numActive T).
Proof.
  intros C.
  assert (E : NumNodes T = uint32 (numActive T)).
  { induction T as [|p k d sz ht a c0 IH0 c1 IH1]; [reflexivity|].
    destruct C as (-> & _ & _ & C0 & C1).
    specialize (IH0 C0). specialize (IH1 C1).
    cbn [NumNodes numActive]. unfold sizeOf. rewrite IH0, IH1.
    destruct a; unfold uint32; Z.mod_equality. }
  split; [exact E|].
  intros Hlt. rewrite E. unfold uint32. apply Z.mod_small.
  pose proof (numActive_nonneg T). split; [lia | exact Hlt].
Qed.

Lemma intMax_max x y : intMax x y = Z.max x y.
Proof. unfold intMax. destruct (Z.ltb_spec x y); lia. Qed.

Lemma levels_nonneg (T : trieNode V) : 0 <= levels T.
Proof.
  induction T as [|p k d sz ht a c0 IH0 c1 IH1]; cbn [levels]; lia.
Qed.

Lemma levels_bound (T : trieNode V) :
  shaped T -> isNil T = false -> levels T + length (prefixOf T) <= 129.
Proof.
  induction T as [|p k d sz ht a c0 IH0 c1 IH1]; intros S N; [discriminate|].
  destruct S as ([_ Hk] & U0 & U1 & S0 & S1).
  assert (B : forall b (c : trieNode V),
             shaped c -> under k b c ->
             (shaped c -> isNil c = false ->
              levels c + length (prefixOf c) <= 129) ->
             levels c <= 128 - length k).
  { intros b c Sc Uc IH. destruct c as [|pc kc dc szc htc ac c00 c01].
    - cbn [levels]. lia.
    - specialize (IH Sc eq_refl). destruct Uc as (L & _).
      cbn [prefixOf] in IH. lia. }
  pose proof (B false c0 S0 U0 IH0). pose proof (B true c1 S1 U1 IH1).
  cbn [levels prefixOf]. lia.
Qed.

(** X3. On a trie that satisfies the invariants the cached [height] is the
    number of levels of the tree, and a non-empty trie has at most 129 of
    them, fewer by the length of the root's prefix. *)
Theorem height_is_levels (T : trieNode V) :
  good T ->
  height T = levels T
  /\ (isNil T = false -> levels T + length (prefixOf T) <= 129).
Proof.
  intros [S C]. split; [|now apply levels_bound].
  induction T as [|p k d sz ht a c0 IH0 c1 IH1]; [reflexivity|].
  pose proof (levels_bound _ S eq_refl) as B.
  destruct S as (W & U0 & U1 & S0 & S1).
  destruct C as (_ & -> & _ & C0 & C1).
  specialize (IH0 S0 C0). specialize (IH1 S1 C1).
  cbn [height levels prefixOf] in *. unfold heightOf.
  rewrite intMax_max, IH0, IH1. unfold uint16. apply Z.mod_small.
  pose proof (levels_nonneg c0). pose proof (levels_nonneg c1).
  destruct W as [_ Hk]. change (2 ^ 16) with 65536. lia.
Qed.

(** ** IsEmpty *)

(** X4. [IsEmpty] is true exactly when no node of the trie is active; on a
    trie that satisfies the invariants it is true for the nil trie only. *)
Theorem IsEmpty_spec (T : trieNode V) :
  (IsEmpty T = true <-> numActive T = 0)
  /\ (counted T -> IsEmpty T = isNil T).
Proof.
  split.
  - induction T as [|p k d sz ht a c0 IH0 c1 IH1]; simpl; [tauto|].
    pose proof (numActive_nonneg c0). pose proof (numActive_nonneg c1).
    destruct a.
    + split; [discriminate|lia].
    + rewrite andb_true_iff, IH0, IH1. lia.
  - induction T as [|p k d sz ht a c0 IH0 c1 IH1]; intros C; [reflexivity|].
    destruct C as (_ & _ & Hin & C0 & C1). simpl.
    destruct a; [reflexivity|].
    destruct (Hin eq_refl) as [N0 _].
    rewrite (IH0 C0), N0. reflexivity.
Qed.

(** ** Equal *)

Lemma ptr_eqb_sym (a b : trieNode V) : ptr_eqb a b = ptr_eqb b a.
Proof.
  destruct a, b; simpl; try reflexivity. apply Pos.eqb_sym.
Qed.

Lemma Prefix_eqb_sym k1 k2 : Prefix_eqb k1 k2 = Prefix_eqb k2 k1.
Proof.
  unfold Prefix_eqb, Uint128.eqb.
  now rewrite (Z.eqb_sym (ui (addr k1))), (Z.eqb_sym (length k1)).
Qed.

(** X5. With a symmetric predicate, [Equal] does not depend on the order of
    the two tries. *)
Theorem Equal_sym (eq : comparator V) :
  (forall x y, eq x y = eq y x) ->
  forall a b : trieNode V, Equal a b eq = Equal b a eq.
Proof.
  intros Hs a.
  induction a as [|p1 k1 d1 s1 h1 a1 l1 IHl r1 IHr]; intros b.
  - destruct b; reflexivity.
  - destruct b as [|p2 k2 d2 s2 h2 a2 l2 r2]; [reflexivity|].
    cbn [Equal]. rewrite (ptr_eqb_sym (Node p2 k2 d2 s2 h2 a2 l2 r2)).
    destruct (ptr_eqb _ _); [reflexivity|].
    rewrite (Prefix_eqb_sym k2), (Hs d2), <- (IHl l2), <- (IHr r2).
    destruct a1, a2; reflexivity.
Qed.

(** ** Which keys insert and update refuse *)

Lemma contains_child01 sh lo m e c ch :
  contains sh lo = (m, e, c, ch) -> ch = 0 \/ ch = 1.
Proof.
  unfold contains. intros [= _ _ _ <-].
  destruct (negb _); [|now left].
  destruct (negb _); [now right | now left].
Qed.

Lemma compare_ge k key m e c ch :
  (length key <? length k) = false ->
  contains k key = (m, e, c, ch) ->
  compare k key
  = (if m then if e then compareSame else compareContains else compareDisjoint,
     false, c, ch).
Proof.
  intros L E. pose proof (contains_exact _ _ _ _ _ _ E) as X.
  unfold compare. rewrite L, E. destruct m; [reflexivity|].
  simpl in X. subst e. reflexivity.
Qed.

Lemma compare_lt k key :
  (length key <? length k) = true ->
  exists r c ch,
    compare k key = (r, true, c, ch)
    /\ (r = compareIsContained \/ r = compareDisjoint).
Proof.
  intros L. unfold compare. rewrite L.
  destruct (contains key k) as [[[bM aM] c] ch] eqn:E.
  pose proof (contains_exact _ _ _ _ _ _ E) as X.
  replace (length key =? length k) with false in X
    by (symmetry; apply Z.eqb_neq; apply Z.ltb_lt in L; lia).
  rewrite andb_false_r in X. subst aM.
  exists (if bM then compareIsContained else compareDisjoint), c, ch.
  split; [reflexivity|]. destruct bM; auto.
Qed.

(* [exactHit] along the descent of [Match]. *)
Lemma exactHit_node p k d sz ht a (c0 c1 : trieNode V) key :
  exactHit (Node p k d sz ht a c0 c1) key
  = if length key <? length k then false
    else
      let '(m, e, _, child) := contains k key in
      if negb m then false
      else if e then a
      else exactHit (if child =? 0 then c0 else c1) key.
Proof.
  unfold exactHit. cbn [Match].
  destruct (length key <? length k); [reflexivity|].
  destruct (contains k key) as [[[m e] c] child] eqn:E.
  pose proof (contains_exact _ _ _ _ _ _ E) as X.
  destruct m; cbn [negb]; [|reflexivity]. simpl in X.
  destruct e; cbn [negb isNil].
  - destruct a; cbn [negb isNil prefixOf andb]; [|reflexivity].
    now rewrite <- X.
  - destruct (isNil (Match (if child =? 0 then c0 else c1) key)) eqn:B;
      cbn [negb andb]; [|now rewrite B].
    destruct a; cbn [negb isNil prefixOf andb]; [|reflexivity].
    now rewrite <- X.
Qed.

Lemma exactHit_nil key : exactHit (@nil V) key = false.
Proof. reflexivity. Qed.

(* The error of an [insert] that returns: that of an existing key where the
   key is present and updates are not allowed, that of a missing key where
   it is absent and inserts are not allowed, none otherwise. *)
Lemma insert_outcome me :
  forall q key data opts s head err node' s',
    insert me (Node q key data 0 0 false nil nil) opts s
    = Done (head, err, node') s' ->
    err = if exactHit me key
          then (if optUpdate opts then None else Some errExists)
          else (if optInsert opts then None else Some errNoUpdate).
Proof.
  induction me as [|p k d sz ht a c0 IH0 c1 IH1];
    intros q key data opts s head err node' s' H.
  - cbn [insert] in H. rewrite exactHit_nil. unfold insertNil, ret in H.
    destruct (optInsert opts); cbn [negb] in H; now injection H as _ <- _ _.
  - cbn [insert] in H. rewrite exactHit_node.
    destruct (length key <? length k) eqn:L.
    + destruct (compare_lt k key L) as (r & c & ch & Ec & [-> | ->]);
        rewrite Ec in H.
      * unfold ret in H.
        destruct (optInsert opts); cbn [negb] in H;
          now injection H as _ <- _ _.
      * unfold bind, insertNil, alloc, ret in H.
        destruct (optInsert opts); cbn [negb] in H;
          [|now injection H as _ <- _ _].
        destruct (negb (Bool.eqb (ch =? 1) true));
          now injection H as _ <- _ _.
    + destruct (contains k key) as [[[m e] c] child] eqn:E.
      rewrite (compare_ge _ _ _ _ _ _ L E) in H.
      destruct m; cbn [negb].
      2:{ unfold bind, insertNil, alloc, ret in H.
          destruct (optInsert opts); cbn [negb] in H;
            [|now injection H as _ <- _ _].
          destruct (negb (Bool.eqb (child =? 1) false));
            now injection H as _ <- _ _. }
      destruct e.
      * destruct a; cbn [andb negb] in H.
        -- destruct (optUpdate opts) eqn:Eu; cbn [negb] in H;
             [|unfold ret in H; now injection H as _ <- _ _].
           unfold bind in H.
           destruct (callEq (optEq opts) d data s) as [same t|];
             [|discriminate].
           unfold ret in H. now injection H as _ <- _ _.
        -- destruct (optInsert opts); cbn [negb] in H; unfold bind, ret in H;
             now injection H as _ <- _ _.
      * unfold bind in H.
        destruct (insert (if child =? 0 then c0 else c1) _ opts s)
          as [[[nc e] nd] s1|] eqn:Er; [|discriminate].
        assert (Ee : e = if exactHit (if child =? 0 then c0 else c1) key
                         then (if optUpdate opts then None else Some errExists)
                         else (if optInsert opts then None
                               else Some errNoUpdate))
          by (destruct (child =? 0); [eapply IH0 | eapply IH1]; eassumption).
        rewrite <- Ee. destruct e as [e|].
        -- unfold ret in H. now injection H as _ <- _ _.
        -- destruct (copyMutate _ _ s1); [|discriminate].
           unfold ret in H. now injection H as _ <- _ _.
Qed.

(* An [insert] that is refused returns, whatever the trie stores: it makes
   no copy. *)
Lemma insert_refused me :
  forall q key data opts s,
    (if exactHit me key then optUpdate opts else optInsert opts) = false ->
    insert me (Node q key data 0 0 false nil nil) opts s
    = Done (me,
            Some (if exactHit me key then errExists else errNoUpdate),
            Node q key data 0 0 false nil nil) s.
Proof.
  induction me as [|p k d sz ht a c0 IH0 c1 IH1]; intros q key data opts s.
  - cbn [insert]. rewrite exactHit_nil. unfold insertNil, ret.
    now intros ->.
  - cbn [insert]. rewrite exactHit_node.
    destruct (length key <? length k) eqn:L.
    + destruct (compare_lt k key L) as (r & c & ch & -> & [-> | ->]);
        intros Ho; unfold bind, insertNil, ret; rewrite Ho; reflexivity.
    + destruct (contains k key) as [[[m e] c] child] eqn:E.
      rewrite (compare_ge _ _ _ _ _ _ L E).
      destruct m; cbn [negb];
        [|intros Ho; unfold bind, insertNil, ret; rewrite Ho; reflexivity].
      destruct e.
      * destruct a; cbn [andb negb]; intros Ho; rewrite Ho; reflexivity.
      * intros Ho. unfold bind.
        assert (R : insert (if child =? 0 then c0 else c1)
                      (Node q key data 0 0 false nil nil) opts s
                    = Done (if child =? 0 then c0 else c1,
                            Some (if exactHit (if child =? 0 then c0 else c1) key
                                  then errExists else errNoUpdate),
                            Node q key data 0 0 false nil nil) s)
          by (destruct (child =? 0); [now apply IH0 | now apply IH1]).
        now rewrite R.
Qed.

(** X6. [Insert] refuses exactly the keys that are present. When the trie
    holds an active entry of the key's length and bits, it returns the error
    of an existing key together with the root it was given, whatever the
    trie stores. Otherwise it gives no error when it returns, and it returns
    when Go can compare the values in the trie. *)
Theorem Insert_refuses_present (T : trieNode V) key data s :
  (exactHit T key = true ->
   Insert T key data s = Done (T, Some errExists) (Pos.succ s))
  /\ (exactHit T key = false ->
      (forall head err s',
          Insert T key data s = Done (head, err) s' -> err = None)
      /\ (comparable T ->
          exists head s', Insert T key data s = Done (head, None) s')).
Proof.
  split; intros Hh.
  - unfold Insert, bind, newNode, alloc, bind, ret.
    rewrite insert_refused by now rewrite Hh.
    now rewrite Hh.
  - assert (Cond : forall head err s',
               Insert T key data s = Done (head, err) s' -> err = None).
    { intros head err s' H.
      unfold Insert, bind, newNode, alloc, bind, ret in H.
      destruct (insert T _ _ _) as [[[h e] n] t|] eqn:E; [|discriminate].
      cbn [fst snd] in H. injection H as _ <- _.
      apply insert_outcome in E. now rewrite Hh in E. }
    split; [exact Cond|]. intros Cm.
    destruct (insert_done T Cm s key data 0 0 false nil nil
                (mkInsertOpts true false None) (Pos.succ s) (or_introl eq_refl))
      as ([[h e] n] & s' & E).
    assert (H : Insert T key data s = Done (h, e) s')
      by (unfold Insert, bind, newNode, alloc, bind, ret; now rewrite E).
    rewrite (Cond _ _ _ H) in H. eauto.
Qed.

(** X7. [Update] refuses exactly the keys that are absent. When the trie
    holds no active entry of the key's length and bits, it returns the error
    of a missing key together with the root it was given, whatever the trie
    stores. Otherwise it gives no error when it returns, and it returns when
    Go can compare the values in the trie. *)
Theorem Update_refuses_absent (T : trieNode V) key data (eq : comparator V) s :
  (exactHit T key = false ->
   Update T key data (Some eq) s = Done (T, Some errNoUpdate) (Pos.succ s))
  /\ (exactHit T key = true ->
      (forall head err s',
          Update T key data (Some eq) s = Done (head, err) s' -> err = None)
      /\ (comparable T ->
          exists head s', Update T key data (Some eq) s = Done (head, None) s')).
Proof.
  split; intros Hh.
  - unfold Update, bind, newNode, alloc, bind, ret.
    rewrite insert_refused by now rewrite Hh.
    now rewrite Hh.
  - assert (Cond : forall head err s',
               Update T key data (Some eq) s = Done (head, err) s' ->
               err = None).
    { intros head err s' H.
      unfold Update, bind, newNode, alloc, bind, ret in H.
      destruct (insert T _ _ _) as [[[h e] n] t|] eqn:E; [|discriminate].
      cbn [fst snd] in H. injection H as _ <- _.
      apply insert_outcome in E. now rewrite Hh in E. }
    split; [exact Cond|]. intros Cm.
    assert (Hne : optEq (mkInsertOpts false true (Some eq)) <> None)
      by (cbn [optEq]; discriminate).
    destruct (insert_done T Cm s key data 0 0 false nil nil
                (mkInsertOpts false true (Some eq)) (Pos.succ s)
                (or_intror Hne))
      as ([[h e] n] & s' & E).
    assert (H : Update T key data (Some eq) s = Done (h, e) s')
      by (unfold Update, bind, newNode, alloc, bind, ret; now rewrite E).
    rewrite (Cond _ _ _ H) in H. eauto.
Qed.

(** ** What a successful insert does *)

Lemma counted_range (T : trieNode V) : counted T -> 0 <= NumNodes T < 2 ^ 32.
Proof.
  destruct T as [|p k d sz ht a c0 c1]; simpl.
  - intros _. split; [lia | reflexivity].
  - intros (-> & _). unfold sizeOf. destruct a; apply uint32_range.
Qed.

Lemma allocated_mono q q' (T : trieNode V) :
  (q <= q')%positive -> allocated q T -> allocated q' T.
Proof.
  intros Hq. induction T as [|p k d sz ht a c0 IH0 c1 IH1]; simpl; [auto|].
  intros (Hp & A0 & A1). repeat split; auto. lia.
Qed.

Lemma sizeOf_leaf : sizeOf true (@nil V) nil = 1.
Proof. reflexivity. Qed.

Lemma Match_self p key d sz ht (c0 c1 : trieNode V) :
  Match (Node p key d sz ht true c0 c1) key = Node p key d sz ht true c0 c1.
Proof.
  cbn [Match]. rewrite Z.ltb_irrefl.
  destruct (contains_self key) as (c & ch & ->). reflexivity.
Qed.

Lemma Match_below p k d sz ht a (c0 c1 : trieNode V) key cm child :
  (length key <? length k) = false ->
  contains k key = (true, false, cm, child) ->
  isNil (Match (if child =? 0 then c0 else c1) key) = false ->
  Match (Node p k d sz ht a c0 c1) key
  = Match (if child =? 0 then c0 else c1) key.
Proof.
  intros L E B. cbn [Match]. rewrite L, E. cbn [negb]. now rewrite B.
Qed.

Lemma exactHit_Match (T : trieNode V) key :
  exactHit T key = true -> isNil (Match T key) = false.
Proof.
  unfold exactHit. destruct (isNil (Match T key)); [discriminate|reflexivity].
Qed.

(* The copy of a node that receives a new child in place of an old one. *)
Lemma replaced_child p k d sz ht a (c0 c1 : trieNode V) key cm child nc q s1 :
  let me := Node p k d sz ht a c0 c1 in
  let c := if child =? 0 then c0 else c1 in
  let mutated :=
    if child =? 0
    then Node s1 k d (sizeOf a nc c1) (heightOf nc c1) a nc c1
    else Node s1 k d (sizeOf a c0 nc) (heightOf c0 nc) a c0 nc in
  counted me -> allocated q me -> (q < s1)%positive ->
  isNil nc = false -> (q <= addrOf nc)%positive ->
  (length key <? length k) = false ->
  contains k key = (true, false, cm, child) ->
  struct_eqb mutated me <> Some true
  /\ isNil mutated = false
  /\ (q <= addrOf mutated)%positive
  /\ (forall s', allocated s' nc -> (s1 < s')%positive -> allocated s' mutated)
  /\ (isNil (Match nc key) = false -> Match mutated key = Match nc key)
  /\ exactHit mutated key = exactHit nc key
  /\ (forall n, NumNodes nc = uint32 (NumNodes c + n) ->
                NumNodes mutated = uint32 (NumNodes me + n))
  /\ (forall x, Permutation (entries nc) (x :: entries c) ->
                Permutation (entries mutated) (x :: entries me)).
Proof.
  intros me c mutated C Al Hq Nnc Hfresh L E.
  destruct C as (Esz & _ & _ & _ & _).
  destruct Al as (Hp & Al0 & Al1).
  assert (Hne : ptr_eqb nc c = false).
  { apply (allocated_ptr_eqb q); try assumption.
    unfold c. now destruct (child =? 0). }
  split; [|split; [|split; [|split; [|split; [|split; [|split]]]]]].
  - unfold mutated, me, c in *. intros H.
    destruct (child =? 0); apply struct_eqb_true in H;
      destruct H as (_ & _ & _ & _ & _ & H0 & H1); congruence.
  - unfold mutated. now destruct (child =? 0).
  - unfold mutated. destruct (child =? 0); simpl; lia.
  - intros s' Anc Hs'.
    assert (Hqs : (q <= s')%positive) by lia.
    pose proof (allocated_mono q s' c0 Hqs Al0).
    pose proof (allocated_mono q s' c1 Hqs Al1).
    unfold mutated. destruct (child =? 0); simpl; auto.
  - intros B. unfold mutated.
    destruct (child =? 0) eqn:Ech;
      (rewrite (Match_below _ _ _ _ _ _ _ _ _ cm child L E);
       rewrite Ech; [reflexivity | assumption]).
  - unfold mutated.
    destruct (child =? 0) eqn:Ech; rewrite exactHit_node, L, E; cbn [negb];
      now rewrite Ech.
  - intros n Hn. unfold mutated, me, c in *. cbn [NumNodes]. rewrite Esz.
    destruct (child =? 0); cbn [NumNodes]; unfold sizeOf; rewrite Hn;
      destruct a; unfold uint32; Z.mod_equality.
  - intros x Hx. unfold mutated, me, c in *.
    destruct (child =? 0); cbn [entries].
    + change (x :: entries c0 ++ (if a then [(k, d)] else []) ++ entries c1)
        with ((x :: entries c0) ++ (if a then [(k, d)] else []) ++ entries c1).
      now apply Permutation_app_tail.
    + rewrite !app_assoc.
      apply Permutation_trans
        with ((entries c0 ++ (if a then [(k, d)] else [])) ++ x :: entries c1).
      * now apply Permutation_app_head.
      * apply Permutation_sym, Permutation_middle.
Qed.

(* Reading off what a computation returned. *)
Ltac returned H :=
  apply Done_inj in H; destruct H as [H ?];
  repeat (apply pair_equal_spec in H; destruct H as [H ?]);
  subst.

Lemma insert_effect_leaf q key (data : Data V) opts s :
  (q < s)%positive ->
  let leaf := Node q key data (sizeOf true (@nil V) nil)
                   (heightOf (@nil V) nil) true nil nil in
  insertEffect nil q key data opts s leaf leaf s.
Proof.
  intros Hq leaf. unfold insertEffect. rewrite exactHit_nil.
  repeat split; try reflexivity; try lia; try exact Hq; try exact I.
  apply Match_self.
Qed.

(* A join of the old trie and the new leaf, or the new node above the old
   trie: the cases where the key is not below the old root. *)
Lemma insert_effect_beside me q key (data : Data V) opts s head s' :
  counted me -> allocated q me -> (q < s)%positive -> (s <= s')%positive ->
  exactHit me key = false ->
  isNil head = false -> (q <= addrOf head)%positive -> allocated s' head ->
  forall leaf,
    Match head key = leaf ->
    prefixOf leaf = key -> active leaf = true -> dataOf leaf = data ->
    NumNodes head = uint32 (NumNodes me + 1) ->
    Permutation (entries head) ((key, data) :: entries me) ->
    insertEffect me q key data opts s head leaf s'.
Proof.
  intros. unfold insertEffect. rewrite H3. repeat split; auto.
Qed.

Lemma compare_Same_inv k key rev c ch :
  compare k key = (compareSame, rev, c, ch) ->
  (length key <? length k) = false /\ contains k key = (true, true, c, ch).
Proof.
  intros Ec. destruct (length key <? length k) eqn:L.
  - destruct (compare_lt k key L) as (r & c' & ch' & E & [-> | ->]);
      rewrite E in Ec; discriminate.
  - split; [reflexivity|].
    destruct (contains k key) as [[[m e] c'] ch'] eqn:E.
    rewrite (compare_ge _ _ _ _ _ _ L E) in Ec.
    destruct m; [destruct e|]; try discriminate. now injection Ec as _ <- <-.
Qed.

Lemma compare_Contains_inv k key rev c ch :
  compare k key = (compareContains, rev, c, ch) ->
  (length key <? length k) = false /\ contains k key = (true, false, c, ch).
Proof.
  intros Ec. destruct (length key <? length k) eqn:L.
  - destruct (compare_lt k key L) as (r & c' & ch' & E & [-> | ->]);
      rewrite E in Ec; discriminate.
  - split; [reflexivity|].
    destruct (contains k key) as [[[m e] c'] ch'] eqn:E.
    rewrite (compare_ge _ _ _ _ _ _ L E) in Ec.
    destruct m; [destruct e|]; try discriminate. now injection Ec as _ <- <-.
Qed.

Lemma exactHit_beside p k d sz ht a (c0 c1 : trieNode V) key r rev c ch :
  compare k key = (r, rev, c, ch) ->
  r = compareIsContained \/ r = compareDisjoint ->
  exactHit (Node p k d sz ht a c0 c1) key = false.
Proof.
  intros Ec Hr. rewrite exactHit_node.
  destruct (length key <? length k) eqn:L; [reflexivity|].
  destruct (contains k key) as [[[m e] c'] ch'] eqn:E.
  rewrite (compare_ge _ _ _ _ _ _ L E) in Ec.
  destruct m; [|reflexivity].
  destruct e; injection Ec as <- _ _ _; destruct Hr; discriminate.
Qed.

Lemma Match_exact p k d sz ht (c0 c1 : trieNode V) key c ch :
  (length key <? length k) = false ->
  contains k key = (true, true, c, ch) ->
  Match (Node p k d sz ht true c0 c1) key = Node p k d sz ht true c0 c1.
Proof. intros L E. cbn [Match]. now rewrite L, E. Qed.

(* A lookup of the new key in the join of an old trie and the new leaf. *)
Lemma Match_join jp jk jd jsz jht (l r leaf : trieNode V) key :
  wfPrefix jk -> wfPrefix key ->
  underK jk (bit_at (ui (addr key)) (length jk)) key ->
  (if bit_at (ui (addr key)) (length jk) then r else l) = leaf ->
  Match leaf key = leaf -> isNil leaf = false ->
  Match (Node jp jk jd jsz jht false l r) key = leaf.
Proof.
  intros Wj Wkey (Lj & Aj & _) Hsel Hm Hn.
  cbn [Match].
  replace (length key <? length jk) with false
    by (symmetry; apply Z.ltb_ge; lia).
  destruct (contains_cases jk key Wj Wkey ltac:(lia))
    as [[_ ->]|[A' _]]; [|congruence].
  destruct (Z.eqb_spec (length jk) (length key)) as [?|_]; [lia|].
  cbn [negb].
  replace (if (if bit_at (ui (addr key)) (length jk) then 1 else 0) =? 0
           then l else r)
    with leaf by (rewrite <- Hsel; now destruct (bit_at _ _)).
  now rewrite Hm, Hn.
Qed.

Lemma mutate_set_active_child q key (data : Data V) child me :
  mutate (Node q key data 0 0 false nil nil)
         (fun n => set_isActive true (set_child child me n))
  = if child =? 0
    then Node q key data (sizeOf true me nil) (heightOf me nil) true me nil
    else Node q key data (sizeOf true nil me) (heightOf nil me) true nil me.
Proof. unfold mutate, set_child. now destruct (child =? 0). Qed.

Lemma mutate_id p k (d : Data V) sz ht a c0 c1 :
  mutate (Node p k d sz ht a c0 c1) (fun n => n)
  = Node p k d (sizeOf a c0 c1) (heightOf c0 c1) a c0 c1.
Proof. reflexivity. Qed.

Lemma insert_effect me :
  good me ->
  forall q key data opts s head node' s',
    wfPrefix key -> allocated q me -> (q < s)%positive ->
    insert me (Node q key data 0 0 false nil nil) opts s
    = Done (head, None, node') s' ->
    insertEffect me q key data opts s head node' s'.
Proof.
  induction me as [|p k d sz ht a c0 IH0 c1 IH1];
    intros G q key data opts s head node' s' Wkey Al Hq H.
  - cbn [insert] in H. apply insertNil_done in H. destruct H as (-> & -> & ->).
    now apply insert_effect_leaf.
  - pose proof G as Gme. pose proof (proj2 Gme) as Cme.
    apply good_inv in G.
    destruct G as (Wk & U0 & U1 & G0 & G1 & Hin & Esz & Eht).
    pose proof Al as (Hp & Al0 & Al1).
    cbn [insert] in H.
    destruct (compare k key) as [[[result reversed] common] child] eqn:Ec.
    pose proof (compare_cases k key Wk Wkey _ _ _ _ Ec) as Hc.
    destruct result.
    + (* the key is the node's key *)
      destruct (compare_Same_inv _ _ _ _ _ Ec) as (L & E).
      assert (Hh : exists d',
                 head = Node q key d' (sizeOf true c0 c1) (heightOf c0 c1)
                             true c0 c1
                 /\ node' = head /\ s' = s
                 /\ d' = (if a
                          then match optEq opts with
                               | Some f => if f d data then d else data
                               | None => data
                               end
                          else data)).
      { destruct (a && negb (optUpdate opts)); [discriminate|].
        destruct (negb a && negb (optInsert opts)); [discriminate|].
        unfold bind in H.
        destruct a; [destruct (optEq opts) as [f|]; [|discriminate]|];
          unfold callEq, ret in H; returned H;
          [destruct (f d data)|]; eexists; repeat split; reflexivity. }
      destruct Hh as (d' & -> & -> & -> & Hd').
      unfold insertEffect. rewrite exactHit_node, L, E. cbn [negb].
      assert (A0 : allocated s c0) by (apply allocated_mono with q; [lia|assumption]).
      assert (A1 : allocated s c1) by (apply allocated_mono with q; [lia|assumption]).
      split; [lia|]. split; [reflexivity|]. split; [simpl; lia|].
      split; [simpl; auto|]. split; [apply Match_self|].
      split; [reflexivity|]. split; [reflexivity|].
      split; [|split].
      * rewrite Hd'. destruct a; [|reflexivity].
        now rewrite (Match_exact _ _ _ _ _ _ _ _ _ _ L E).
      * cbn [NumNodes]. rewrite Esz. unfold sizeOf.
        destruct a; unfold uint32; Z.mod_equality.
      * intros ->. rewrite Hd'. cbn [entries].
        apply Permutation_sym, Permutation_middle.
    + (* the key goes below the node *)
      destruct (compare_Contains_inv _ _ _ _ _ Ec) as (L & E).
      unfold bind in H.
      destruct (insert (if child =? 0 then c0 else c1)
                       (Node q key data 0 0 false nil nil) opts s)
        as [[[nc err] nd] s1|] eqn:Er; [|discriminate].
      destruct err; [discriminate|].
      assert (IH : insertEffect (if child =? 0 then c0 else c1)
                     q key data opts s nc nd s1).
      { destruct (child =? 0); [eapply IH0 | eapply IH1]; eassumption. }
      destruct IH as (Hs1 & Nnc & Fnc & Anc & Mnc & Pnd & And & Dnd & Snc & Enc).
      rewrite copyMutate_node, mutate_set_child in H.
      destruct (replaced_child p k d sz ht a c0 c1 key common child nc q s1
                  Cme Al ltac:(lia) Nnc Fnc L E)
        as (Hm & Nm & Fm & Am & Mm & Xm & Sm & Em).
      destruct (struct_eqb _ _) as [[|]|];
        [exfalso; now apply Hm| |discriminate].
      unfold ret in H. returned H.
      assert (Nnd : isNil (Match nc key) = false)
        by (destruct (Match nc key); [discriminate And | reflexivity]).
      unfold insertEffect. rewrite exactHit_node, L, E. cbn [negb].
      split; [lia|]. split; [assumption|]. split; [assumption|].
      split; [apply Am; [apply allocated_mono with s1; [lia|assumption]|lia]|].
      split; [now apply Mm|].
      split; [assumption|]. split; [assumption|].
      split; [|split].
      * rewrite Dnd.
        destruct (exactHit (if child =? 0 then c0 else c1) key) eqn:Eh;
          [|reflexivity].
        now rewrite (Match_below _ _ _ _ _ _ _ _ _ _ _ L E (exactHit_Match _ _ Eh)).
      * now apply Sm.
      * intros Eh. apply Em. now apply Enc.
    + (* the key goes above the node *)
      pose proof (exactHit_beside p k d sz ht a c0 c1 _ _ _ _ _ Ec (or_introl eq_refl))
        as Eh.
      destruct (negb (optInsert opts)); [discriminate|].
      assert (Ame : allocated s (Node p k d sz ht a c0 c1))
        by (apply allocated_mono with q; [lia|assumption]).
      clear Esz Eht. unfold ret in H. returned H.
      rewrite mutate_set_active_child.
      apply insert_effect_beside; try assumption; try lia;
        destruct (child =? 0); try reflexivity; try apply Match_self;
        try (simpl; lia); try (simpl; auto).
      * cbn [NumNodes]. unfold sizeOf. cbn [NumNodes].
        unfold uint32. Z.mod_equality.
      * cbn [NumNodes]. unfold sizeOf. cbn [NumNodes].
        unfold uint32. Z.mod_equality.
      * cbn [entries]. rewrite ?app_nil_r. apply Permutation_sym.
        apply Permutation_cons_append.
    + (* the keys are disjoint *)
      pose proof (exactHit_beside p k d sz ht a c0 c1 _ _ _ _ _ Ec (or_intror eq_refl))
        as Eh.
      destruct Hc as (H0 & H1 & H2 & Hag & Hdiff & Hside).
      unfold bind in H.
      destruct (insertNil (Node q key data 0 0 false nil nil) opts s)
        as [[[nc err] nd] s1|] eqn:Er; [|discriminate].
      destruct err; [discriminate|].
      apply insertNil_done in Er. destruct Er as (-> & -> & ->).
      destruct (join_under k key common Wk Wkey H0 H1 H2 Hag Hdiff)
        as (Wj & Uk & Uy & Tj).
      rewrite Hside in H.
      set (leaf := Node q key data (sizeOf true (@nil V) nil)
                        (heightOf (@nil V) nil) true nil nil) in *.
      set (jk := mkPrefix _ common) in *.
      assert (Ame : allocated (Pos.succ s) (Node p k d sz ht a c0 c1))
        by (apply allocated_mono with q; [lia|assumption]).
      assert (Aleaf : allocated (Pos.succ s) leaf) by (simpl; repeat split; lia).
      assert (Mleaf : Match leaf key = leaf) by apply Match_self.
      unfold alloc, ret in H. clear Esz Eht.
      assert (Aj : forall (l r : trieNode V) sz' ht',
                 allocated (Pos.succ s) l -> allocated (Pos.succ s) r ->
                 allocated (Pos.succ s) (Node s jk None sz' ht' false l r))
        by (intros; simpl; repeat split; try assumption; lia).
      assert (Nleaf : NumNodes leaf = 1) by reflexivity.
      assert (Eleaf : entries leaf = [(key, data)]) by reflexivity.
      destruct (bit_at (ui (addr key)) common) eqn:Bk;
        rewrite mutate_id in H; returned H;
        apply insert_effect_beside; try assumption; try lia;
        try reflexivity; try (simpl; lia); try (now apply Aj);
        try (apply Match_join; try assumption; try reflexivity;
             change (length jk) with common; now rewrite Bk).
      * cbn [entries]. rewrite Eleaf. cbn [app].
        apply Permutation_sym. apply Permutation_cons_append.
      * cbn [NumNodes]. unfold sizeOf. rewrite Nleaf. cbn [NumNodes].
        unfold uint32. Z.mod_equality.
Qed.

Lemma found_exactHit (T r : trieNode V) key :
  Match T key = r -> prefixOf r = key -> active r = true ->
  exactHit T key = true.
Proof.
  intros Hm Hp Ha. unfold exactHit. rewrite Hm, Hp, Z.eqb_refl.
  destruct r; [discriminate Ha | reflexivity].
Qed.

Lemma Insert_success_effect (T : trieNode V) key data s T' s' :
  good T -> wfPrefix key -> allocated s T ->
  Insert T key data s = Done (T', None) s' ->
  exactHit T key = false
  /\ exists node',
      insertEffect T s key data (mkInsertOpts true false None) (Pos.succ s)
                   T' node' s'.
Proof.
  intros G W Al H.
  unfold Insert, bind, newNode, alloc, bind, ret in H.
  destruct (insert T _ _ _) as [[[head err] node'] t|] eqn:E; [|discriminate].
  cbn [fst snd] in H. returned H.
  pose proof (insert_outcome _ _ _ _ _ _ _ _ _ _ E) as Herr.
  cbn [optUpdate optInsert] in Herr.
  destruct (exactHit T key); [discriminate|].
  split; [reflexivity|]. exists node'.
  apply insert_effect; try assumption. lia.
Qed.

(** X8. After a successful [Insert] on a trie that satisfies the invariants,
    a lookup of the key finds an active entry with exactly the prefix and
    the value that were inserted. *)
Theorem Insert_then_Match (T : trieNode V) key data s T' s' :
  good T -> wfPrefix key -> allocated s T ->
  Insert T key data s = Done (T', None) s' ->
  exactHit T' key = true
  /\ active (Match T' key) = true
  /\ prefixOf (Match T' key) = key
  /\ dataOf (Match T' key) = data.
Proof.
  intros G W Al H.
  destruct (Insert_success_effect T key data s T' s' G W Al H)
    as (Eh & node' & (_ & _ & _ & _ & Hm & Hp & Ha & Hd & _)).
  rewrite Eh in Hd. rewrite Hm.
  split; [now apply found_exactHit with node'|]. auto.
Qed.

(** X9. A successful [Insert] adds one entry and keeps the others: the key
    was absent, the entries of the new trie are the inserted pair together
    with the old entries, and [NumNodes] grows by one (in 32 bits). *)
Theorem Insert_adds_one_entry (T : trieNode V) key data s T' s' :
  good T -> wfPrefix key -> allocated s T ->
  Insert T key data s = Done (T', None) s' ->
  exactHit T key = false
  /\ Permutation (entries T') ((key, data) :: entries T)
  /\ NumNodes T' = uint32 (NumNodes T + 1).
Proof.
  intros G W Al H.
  destruct (Insert_success_effect T key data s T' s' G W Al H)
    as (Eh & node' & (_ & _ & _ & _ & _ & _ & _ & _ & Hs & He)).
  rewrite Eh in Hs. auto.
Qed.

(** X10. After [InsertOrUpdate] on a trie that satisfies the invariants, a
    lookup of the key finds an active entry that carries the prefix given
    (host bits included); its value is the old one when the key was present
    and the predicate finds the old and new values equal, and the new one
    otherwise; [NumNodes] grows by one exactly when the key was absent. *)
Theorem InsertOrUpdate_then_Match (T : trieNode V) key data (f : comparator V) s T' s' :
  good T -> wfPrefix key -> allocated s T ->
  InsertOrUpdate T key data (Some f) s = Done T' s' ->
  exactHit T' key = true
  /\ prefixOf (Match T' key) = key
  /\ dataOf (Match T' key)
     = (if exactHit T key && f (dataOf (Match T key)) data
        then dataOf (Match T key) else data)
  /\ NumNodes T' = uint32 (NumNodes T + (if exactHit T key then 0 else 1)).
Proof.
  intros G W Al H.
  unfold InsertOrUpdate, bind, newNode, alloc, bind, ret in H.
  destruct (insert T _ _ _) as [[[head err] node'] t|] eqn:E; [|discriminate].
  cbn [fst snd] in H. destruct err; [discriminate|]. returned H.
  destruct (insert_effect T G s key data _ (Pos.succ s) _ _ _ W Al
              (Pos.lt_succ_diag_r s) E)
    as (_ & _ & _ & _ & Hm & Hp & Ha & Hd & Hs & _).
  cbn [optEq] in Hd. rewrite Hm.
  split; [now apply found_exactHit with node'|].
  split; [assumption|]. split; [|assumption].
  rewrite Hd. destruct (exactHit T key); reflexivity.
Qed.

(** X11. [Update] succeeds only on a present key, and then a lookup of the
    key finds an active entry that carries the prefix given; its value is
    the old one when the predicate finds the old and new values equal, and
    the new one otherwise; [NumNodes] does not change. *)
Theorem Update_then_Match (T : trieNode V) key data (f : comparator V) s T' s' :
  good T -> wfPrefix key -> allocated s T ->
  Update T key data (Some f) s = Done (T', None) s' ->
  exactHit T key = true
  /\ exactHit T' key = true
  /\ prefixOf (Match T' key) = key
  /\ dataOf (Match T' key)
     = (if f (dataOf (Match T key)) data then dataOf (Match T key) else data)
  /\ NumNodes T' = NumNodes T.
Proof.
  intros G W Al H.
  unfold Update, bind, newNode, alloc, bind, ret in H.
  destruct (insert T _ _ _) as [[[head err] node'] t|] eqn:E; [|discriminate].
  cbn [fst snd] in H. returned H.
  pose proof (insert_outcome _ _ _ _ _ _ _ _ _ _ E) as Herr.
  cbn [optUpdate optInsert] in Herr.
  destruct (insert_effect T G s key data _ (Pos.succ s) _ _ _ W Al
              (Pos.lt_succ_diag_r s) E)
    as (_ & _ & _ & _ & Hm & Hp & Ha & Hd & Hs & _).
  destruct (exactHit T key); [|discriminate].
  cbn [optEq] in Hd. rewrite Hm.
  split; [reflexivity|].
  split; [now apply found_exactHit with node'|].
  split; [assumption|]. split; [assumption|].
  rewrite Hs. unfold uint32. rewrite Z.add_0_r. apply Z.mod_small.
  apply counted_range. apply G.
Qed.

(** ** What a delete does *)

Lemma distinct_children p k d sz ht a (c0 c1 : trieNode V) :
  distinct (Node p k d sz ht a c0 c1) ->
  distinct c0 /\ distinct c1
  /\ ptr_eqb c0 (Node p k d sz ht a c0 c1) = false
  /\ ptr_eqb c1 (Node p k d sz ht a c0 c1) = false.
Proof.
  unfold distinct. cbn [nodes map]. rewrite map_app.
  intros D. apply NoDup_cons_iff in D. destruct D as (Hp & D).
  split; [now apply NoDup_app_remove_r in D|].
  split; [now apply NoDup_app_remove_l in D|].
  split.
  - destruct c0 as [|p0 k0 d0 sz0 ht0 a0 c00 c01]; [reflexivity|].
    simpl. apply Pos.eqb_neq. intros ->. apply Hp.
    apply in_or_app. left. simpl. now left.
  - destruct c1 as [|p1 k1 d1 sz1 ht1 a1 c10 c11]; [reflexivity|].
    simpl. apply Pos.eqb_neq. intros ->. apply Hp.
    apply in_or_app. right. simpl. now left.
Qed.

(* A subtree on the other side of the key's next bit holds no entry for the
   key. *)
Lemma exactHit_other_side k b (c : trieNode V) key :
  wfPrefix k -> wfPrefix key -> shaped c -> under k b c ->
  length k < length key ->
  bit_at (ui (addr key)) (length k) = negb b ->
  exactHit c key = false.
Proof.
  intros Wk Wkey S U Lk Hb.
  destruct c as [|p kc d sz ht a c0 c1]; [reflexivity|].
  destruct S as (Wc & _). destruct U as (L & _ & B).
  rewrite exactHit_node.
  destruct (Z.ltb_spec (length key) (length kc)) as [?|Hge]; [reflexivity|].
  destruct (contains_cases kc key Wc Wkey Hge)
    as [[A ->]|[A (_ & _ & _ & ->)]]; [|reflexivity].
  exfalso.
  destruct Wc as [Hc Hcl], Wkey as [Hy Hyl], Wk as [_ Hkl].
  pose proof (proj1 (agreeb_bits (length kc) _ _ ltac:(lia) Hc Hy) A
                (length k) ltac:(lia)) as X.
  rewrite B, Hb in X. now destruct b.
Qed.

(* A subtree below a node holds no entry for a key of the node's length. *)
Lemma exactHit_too_long k b (c : trieNode V) key :
  under k b c -> length key <= length k -> exactHit c key = false.
Proof.
  intros U Lk. destruct c as [|p kc d sz ht a c0 c1]; [reflexivity|].
  destruct U as (L & _). rewrite exactHit_node.
  replace (length key <? length kc) with true
    by (symmetry; apply Z.ltb_lt; lia).
  reflexivity.
Qed.

(* The copy of a node in which a child was replaced by a pointer that is
   not the old child. *)
Lemma replaced_child_any p k d sz ht a (c0 c1 : trieNode V) key cm child nc s1 :
  let me := Node p k d sz ht a c0 c1 in
  let c := if child =? 0 then c0 else c1 in
  let mutated :=
    if child =? 0
    then Node s1 k d (sizeOf a nc c1) (heightOf nc c1) a nc c1
    else Node s1 k d (sizeOf a c0 nc) (heightOf c0 nc) a c0 nc in
  counted me -> ptr_eqb nc c = false ->
  (length key <? length k) = false ->
  contains k key = (true, false, cm, child) ->
  struct_eqb mutated me <> Some true
  /\ addrOf mutated = s1 /\ isNil mutated = false
  /\ exactHit mutated key = exactHit nc key
  /\ (forall n, NumNodes nc = uint32 (NumNodes c + n) ->
                NumNodes mutated = uint32 (NumNodes me + n))
  /\ (forall x, Permutation (entries c) (x :: entries nc) ->
                Permutation (entries me) (x :: entries mutated)).
Proof.
  intros me c mutated C Hne L E.
  destruct C as (Esz & _ & _ & _ & _).
  split; [|split; [|split; [|split; [|split]]]].
  - unfold mutated, me, c in *. intros H.
    destruct (child =? 0); apply struct_eqb_true in H;
      destruct H as (_ & _ & _ & _ & _ & H0 & H1); congruence.
  - unfold mutated. now destruct (child =? 0).
  - unfold mutated. now destruct (child =? 0).
  - unfold mutated.
    destruct (child =? 0) eqn:Ech; rewrite exactHit_node, L, E; cbn [negb];
      now rewrite Ech.
  - intros n Hn. unfold mutated, me, c in *. cbn [NumNodes]. rewrite Esz.
    destruct (child =? 0); cbn [NumNodes]; unfold sizeOf; rewrite Hn;
      destruct a; unfold uint32; Z.mod_equality.
  - intros x Hx. unfold mutated, me, c in *.
    destruct (child =? 0); cbn [entries].
    + change (x :: entries nc ++ (if a then [(k, d)] else []) ++ entries c1)
        with ((x :: entries nc) ++ (if a then [(k, d)] else []) ++ entries c1).
      now apply Permutation_app_tail.
    + rewrite !app_assoc.
      apply Permutation_trans
        with ((entries c0 ++ (if a then [(k, d)] else [])) ++ x :: entries nc).
      * now apply Permutation_app_head.
      * apply Permutation_sym, Permutation_middle.
Qed.

Lemma reverseChild_children (me : trieNode V) child :
  child = 0 \/ child = 1 ->
  children me (reverseChild child)
  = match me with
    | nil => nil
    | Node _ _ _ _ _ _ c0 c1 => if child =? 0 then c1 else c0
    end.
Proof. intros [-> | ->]; destruct me; reflexivity. Qed.

Lemma del_hit_effect me :
  good me -> comparable me ->
  forall key s,
    wfPrefix key -> allocated s me -> distinct me ->
    exactHit me key = true ->
    exists head s',
      del me key (mkDeleteOpts false) s = Done (head, None) s'
      /\ (s <= s')%positive
      /\ exactHit head key = false
      /\ ptr_eqb head me = false
      /\ NumNodes head = uint32 (NumNodes me - 1)
      /\ Permutation (entries me)
           ((prefixOf (Match me key), dataOf (Match me key)) :: entries head).
Proof.
  induction me as [|p k d sz ht a c0 IH0 c1 IH1];
    intros G Cm key s Wkey Al D Hh; [discriminate|].
  pose proof G as Gme. pose proof (proj2 Gme) as Cme.
  apply good_inv in G.
  destruct G as (Wk & U0 & U1 & G0 & G1 & Hin & Esz & Eht).
  destruct Cm as (Hd & Cm0 & Cm1).
  destruct Al as (Hp & Al0 & Al1).
  destruct (distinct_children _ _ _ _ _ _ _ _ D) as (D0 & D1 & P0 & P1).
  pose proof (counted_range c0 (proj2 G0)) as R0.
  pose proof (counted_range c1 (proj2 G1)) as R1.
  rewrite exactHit_node in Hh.
  destruct (Z.ltb_spec (length key) (length k)) as [?|L]; [discriminate|].
  assert (L' : (length key <? length k) = false) by (apply Z.ltb_ge; lia).
  destruct (contains k key) as [[[m e] cm] child] eqn:E.
  destruct m; cbn [negb] in Hh; [|discriminate].
  pose proof (contains_exact _ _ _ _ _ _ E) as X. simpl in X.
  cbn [del]. rewrite (compare_ge _ _ _ _ _ _ L' E). cbn [flatten].
  destruct e.
  - (* the entry is this node *)
    subst a. symmetry in X. apply Z.eqb_eq in X.
    rewrite (Match_exact _ _ _ _ _ _ _ _ _ _ L' E). cbn [prefixOf dataOf].
    destruct (isNil c0) eqn:N0.
    { destruct c0; [|discriminate]. unfold ret.
      exists c1, s. split; [reflexivity|]. split; [lia|].
      split; [apply exactHit_too_long with k true; [assumption|lia]|].
      split; [assumption|]. split; [|reflexivity].
      rewrite Esz. unfold sizeOf. cbn [NumNodes].
      transitivity (uint32 (NumNodes c1));
        [symmetry; now apply Z.mod_small | unfold uint32; Z.mod_equality]. }
    destruct (isNil c1) eqn:N1.
    { destruct c1; [|discriminate]. unfold ret.
      exists c0, s. split; [reflexivity|]. split; [lia|].
      split; [apply exactHit_too_long with k false; [assumption|lia]|].
      split; [assumption|]. split.
      - rewrite Esz. unfold sizeOf. cbn [NumNodes].
        transitivity (uint32 (NumNodes c0));
          [symmetry; now apply Z.mod_small | unfold uint32; Z.mod_equality].
      - cbn [entries]. rewrite app_nil_r.
        apply Permutation_sym, Permutation_cons_append. }
    unfold bind. rewrite copyMutate_node. unfold ret.
    exists (Node s k None (sizeOf false c0 c1) (heightOf c0 c1) false c0 c1),
      (Pos.succ s).
    split.
    { cbn [mutate set_isActive set_Data struct_eqb].
      rewrite Prefix_eqb_refl. cbn [negb].
      destruct d; cbn [Data_eqb Bool.eqb]; rewrite ?andb_false_r; reflexivity. }
    split; [lia|].
    split; [now rewrite exactHit_node, L', E|].
    split; [simpl; apply Pos.eqb_neq; lia|].
    split.
    + cbn [NumNodes]. rewrite Esz. unfold sizeOf, uint32. Z.mod_equality.
    + cbn [entries app]. apply Permutation_sym, Permutation_middle.
  - (* the entry is below *)
    assert (IH : exists nc s1,
               del (if child =? 0 then c0 else c1) key (mkDeleteOpts false) s
               = Done (nc, None) s1
               /\ (s <= s1)%positive
               /\ exactHit nc key = false
               /\ ptr_eqb nc (if child =? 0 then c0 else c1) = false
               /\ NumNodes nc
                  = uint32 (NumNodes (if child =? 0 then c0 else c1) - 1)
               /\ Permutation (entries (if child =? 0 then c0 else c1))
                    ((prefixOf (Match (if child =? 0 then c0 else c1) key),
                      dataOf (Match (if child =? 0 then c0 else c1) key))
                       :: entries nc))
      by (destruct (child =? 0); [apply IH0 | apply IH1]; assumption).
    destruct IH as (nc & s1 & Er & Hs1 & Hnc & Pnc & Snc & Enc).
    rewrite (Match_below _ _ _ _ _ _ _ _ _ _ _ L' E (exactHit_Match _ _ Hh)).
    set (x := (prefixOf (Match (if child =? 0 then c0 else c1) key),
               dataOf (Match (if child =? 0 then c0 else c1) key))) in *.
    unfold bind. rewrite Er.
    assert (Hlen : length k < length key).
    { symmetry in X. apply Z.eqb_neq in X. lia. }
    assert (Hbit : childBit child = bit_at (ui (addr key)) (length k)).
    { destruct (contains_cases k key Wk Wkey L) as [[_ E']|[_ (_ & _ & _ & E')]];
        rewrite E' in E; [|discriminate].
      injection E as _ _ <-.
      destruct (Z.eqb_spec (length k) (length key)) as [?|_]; [lia|].
      apply childBit_if. }
    destruct (isNil nc && negb a) eqn:Ep.
    + (* the node was a join of the entry's subtree and a sibling *)
      apply andb_true_iff in Ep. destruct Ep as (Nn & Ha).
      destruct nc; [|discriminate]. destruct a; [discriminate|].
      unfold ret. rewrite (reverseChild_children _ _ (contains_child01 _ _ _ _ _ _ E)).
      exists (if child =? 0 then c1 else c0), s1.
      split; [reflexivity|]. split; [assumption|].
      unfold childBit in Hbit.
      split; [|split; [|split]].
      * destruct (child =? 0).
        -- apply exactHit_other_side with k true; try assumption;
             [exact (proj1 G1) | now rewrite <- Hbit].
        -- apply exactHit_other_side with k false; try assumption;
             [exact (proj1 G0) | now rewrite <- Hbit].
      * now destruct (child =? 0).
      * rewrite Esz. unfold sizeOf. cbn [NumNodes] in Snc. cbn [NumNodes].
        destruct (child =? 0).
        -- transitivity (uint32 (uint32 (NumNodes c0 - 1) + NumNodes c1));
             [rewrite <- Snc, Z.add_0_l; symmetry; unfold uint32;
              now apply Z.mod_small
             |unfold uint32; Z.mod_equality].
        -- transitivity (uint32 (uint32 (NumNodes c1 - 1) + NumNodes c0));
             [rewrite <- Snc, Z.add_0_l; symmetry; unfold uint32;
              now apply Z.mod_small
             |unfold uint32; Z.mod_equality].
      * cbn [entries app] in *. destruct (child =? 0).
        -- change (x :: entries c1) with ([x] ++ entries c1).
           now apply Permutation_app_tail.
        -- apply Permutation_trans with (entries c0 ++ [x]).
           ++ now apply Permutation_app_head.
           ++ apply Permutation_sym, Permutation_cons_append.
    + rewrite (copyMutate_new_child _ _ _ _ _ _ _ _ _ _ _ Pnc). unfold ret.
      destruct (replaced_child_any p k d sz ht a c0 c1 key cm child nc s1
                  Cme Pnc L' E)
        as (Hm & Am & Nm & Xm & Sm & Em).
      eexists. exists (Pos.succ s1).
      split; [destruct (Data_eqb d d); [reflexivity|contradiction]|].
      split; [lia|].
      split; [now rewrite Xm|].
      split.
      { match goal with
        | |- ptr_eqb ?h _ = false =>
            destruct h as [|ph kh dh szh hth ah h0 h1] eqn:Eh;
              [discriminate Nm|]
        end.
        simpl in Am. simpl. apply Pos.eqb_neq. lia. }
      split.
      * replace (NumNodes (Node p k d sz ht a c0 c1) - 1)
          with (NumNodes (Node p k d sz ht a c0 c1) + -1) by lia.
        apply Sm. exact Snc.
      * now apply Em.
Qed.

(* On a present key [del] gives no error: it returns a head, or panics in a
   comparison of [copyMutate], and that only on a trie that stores a value
   Go cannot compare. *)
Lemma del_hit_cases (T : trieNode V) key s :
  exactHit T key = true ->
  (exists T' s', del T key (mkDeleteOpts false) s = Done (T', None) s')
  \/ (~ comparable T
      /\ exists s', del T key (mkDeleteOpts false) s = Panic errUncomparable s').
Proof.
  revert s.
  induction T as [|p k d sz ht a c0 IH0 c1 IH1]; intros s Hh; [discriminate|].
  rewrite exactHit_node in Hh.
  destruct (length key <? length k) eqn:L; [discriminate|].
  destruct (contains k key) as [[[m e] cm] child] eqn:E.
  destruct m; cbn [negb] in Hh; [|discriminate].
  cbn [del]. rewrite (compare_ge _ _ _ _ _ _ L E). cbn [flatten].
  destruct e.
  - left. unfold bind, ret. destruct (isNil c0); [eauto|].
    destruct (isNil c1); [eauto|]. rewrite copyMutate_node.
    cbn [mutate set_isActive set_Data struct_eqb].
    destruct (negb _); [eauto|]. destruct d; cbn [Data_eqb]; eauto.
  - assert (R : (exists nc s1,
                    del (if child =? 0 then c0 else c1) key
                        (mkDeleteOpts false) s = Done (nc, None) s1)
                \/ (~ comparable (if child =? 0 then c0 else c1)
                    /\ exists s1,
                        del (if child =? 0 then c0 else c1) key
                            (mkDeleteOpts false) s
                        = Panic errUncomparable s1))
      by (destruct (child =? 0); [apply IH0 | apply IH1]; assumption).
    unfold bind.
    destruct R as [(nc & s1 & ->)|(Hn & s1 & ->)].
    + destruct (isNil nc && negb a); [left; unfold ret; eauto|].
      rewrite copyMutate_node, mutate_set_child.
      destruct (struct_eqb _ _) as [same|] eqn:Es; [left; unfold ret; eauto|].
      right. split; [|eauto]. intros (Hd & _). revert Es.
      destruct (child =? 0); now apply struct_eqb_defined.
    + right. split; [|eauto]. intros (_ & H0 & H1). apply Hn.
      now destruct (child =? 0).
Qed.

(** X12. [Delete] gives no error on a present key: when the trie holds an
    active entry of the key's length and bits, it returns a new root and no
    error where Go can compare the values in the trie, and whenever it
    returns. *)
Theorem Delete_present_succeeds (T : trieNode V) key s :
  exactHit T key = true ->
  (forall head err s', Delete T key s = Done (head, err) s' -> err = None)
  /\ (comparable T -> exists T' s', Delete T key s = Done (T', None) s').
Proof.
  intros Hh. unfold Delete.
  destruct (del_hit_cases T key s Hh) as [(T' & s' & E)|(Hn & s' & E)].
  - split; [|eauto]. intros head err t H. rewrite E in H.
    now injection H as _ <- _.
  - split; [|contradiction]. intros head err t H. rewrite E in H.
    discriminate.
Qed.

(** X13. Deleting a present key from a trie that satisfies the invariants,
    whose stored values Go can compare and whose nodes have pairwise
    different addresses allocated earlier, removes exactly that entry: the
    new trie holds no entry for the key, its entries are the old ones
    without the deleted one, and [NumNodes] drops by one (in 32 bits). *)
Theorem Delete_removes_entry (T : trieNode V) key s :
  good T -> comparable T -> wfPrefix key -> allocated s T -> distinct T ->
  exactHit T key = true ->
  exists T' s',
    Delete T key s = Done (T', None) s'
    /\ exactHit T' key = false
    /\ Permutation (entries T)
         ((prefixOf (Match T key), dataOf (Match T key)) :: entries T')
    /\ NumNodes T' = uint32 (NumNodes T - 1).
Proof.
  intros G Cm W Al D Hh.
  destruct (del_hit_effect T G Cm key s W Al D Hh)
    as (T' & s' & E & _ & Hn & _ & Hs & He).
  exists T', s'. unfold Delete. auto.
Qed.

(** X14. [Delete] reports success for a key that is only a structural join:
    on an inactive node with both children, no data and up-to-date cached
    fields, whose prefix the key matches, it returns no error and the very
    node it was given, so nothing is removed. *)
Theorem Delete_join_is_noop p k sz ht (c0 c1 : trieNode V) key s :
  counted (Node p k None sz ht false c0 c1) ->
  fst (fst (fst (compare k key))) = compareSame ->
  Delete (Node p k None sz ht false c0 c1) key s
  = Done (Node p k None sz ht false c0 c1, None) (Pos.succ s).
Proof.
  intros (Esz & Eht & Hin & _ & _) Hc.
  destruct (Hin eq_refl) as (N0 & N1).
  unfold Delete. cbn [del].
  destruct (compare k key) as [[[result reversed] common] child].
  simpl in Hc. subst result. cbn [flatten]. rewrite N0, N1.
  unfold bind. rewrite copyMutate_node. unfold ret.
  replace (mutate (Node s k None sz ht false c0 c1)
             (fun n => set_Data None (set_isActive false n)))
    with (Node s k None sz ht false c0 c1)
    by (rewrite Esz, Eht; reflexivity).
  now rewrite struct_eqb_refl_ptr by reflexivity.
Qed.

(** ** Get-or-insert on an absent key *)

Lemma deferred_miss me key data s head result s' :
  good me -> wfPrefix key -> allocated s me ->
  exactHit me key = false ->
  getOrInsertDeferred me key data (nil, nil) s = Done (head, result) s' ->
  (s < s')%positive /\ isNil head = false /\ (s <= addrOf head)%positive
  /\ allocated s' head
  /\ Match head key = result /\ prefixOf result = key
  /\ active result = true /\ dataOf result = data
  /\ NumNodes head = uint32 (NumNodes me + 1)
  /\ Permutation (entries head) ((key, data) :: entries me).
Proof.
  intros G W Al Eh H. unfold getOrInsertDeferred in H. cbn [isNil] in H.
  unfold bind, newNode, alloc, bind, ret in H.
  destruct (insert me (Node s key data 0 0 false nil nil)
                   (mkInsertOpts true false None) (Pos.succ s))
    as [[[h e] n] s2|] eqn:E; [|discriminate].
  cbn [fst snd] in H. destruct e; [discriminate|]. returned H.
  destruct (insert_effect me G s key data _ (Pos.succ s) _ _ _ W Al
              (Pos.lt_succ_diag_r s) E)
    as (Hs & Hn & Hf & Ha & Hm & Hp & Hact & Hd & Hsz & He).
  rewrite Eh in Hd, Hsz. repeat split; auto. lia.
Qed.

Lemma GetOrInsert_miss me :
  good me ->
  forall key data s head result s',
    wfPrefix key -> allocated s me ->
    exactHit me key = false ->
    GetOrInsert me key data s = Done (head, result) s' ->
    (s < s')%positive /\ isNil head = false /\ (s <= addrOf head)%positive
    /\ allocated s' head
    /\ Match head key = result /\ prefixOf result = key
    /\ active result = true /\ dataOf result = data
    /\ NumNodes head = uint32 (NumNodes me + 1)
    /\ Permutation (entries head) ((key, data) :: entries me).
Proof.
  induction me as [|p k d sz ht a c0 IH0 c1 IH1];
    intros G key data s head result s' Wkey Al Eh H.
  - cbn [GetOrInsert] in H. eapply deferred_miss; eassumption.
  - pose proof H as H0. cbn [GetOrInsert] in H. pose proof Eh as Eh'.
    rewrite exactHit_node in Eh'.
    destruct (length key <? length k) eqn:L;
      [eapply deferred_miss; eassumption|].
    destruct (contains k key) as [[[m e] cm] child] eqn:E.
    destruct m; cbn [negb] in H, Eh'; [|eapply deferred_miss; eassumption].
    destruct e; cbn [negb] in H.
    + subst a. cbn [negb] in H. eapply deferred_miss; eassumption.
    + pose proof (proj2 G) as Cme. pose proof G as Gme. apply good_inv in G.
      destruct G as (Wk & U0 & U1 & G0 & G1 & Hin & Esz & Eht).
      pose proof Al as (Hp & Al0 & Al1).
      destruct (GetOrInsert_below _ _ _ _ _ _ _ _ _ _ _ _ _ _ _ _ L E H0)
        as (nc & s1 & same & Er & Nres & Es & -> & ->).
      clear H H0.
      assert (IH : (s < s1)%positive /\ isNil nc = false
                   /\ (s <= addrOf nc)%positive /\ allocated s1 nc
                   /\ Match nc key = result /\ prefixOf result = key
                   /\ active result = true /\ dataOf result = data
                   /\ NumNodes nc
                      = uint32 (NumNodes (if child =? 0 then c0 else c1) + 1)
                   /\ Permutation (entries nc)
                        ((key, data) :: entries (if child =? 0 then c0 else c1))).
      { destruct (child =? 0); [eapply IH0 | eapply IH1]; eassumption. }
      destruct IH as (Hs1 & Nnc & Fnc & Anc & Mnc & Pres & Ares & Dres & Snc & Enc).
      destruct (replaced_child p k d sz ht a c0 c1 key cm child nc s s1
                  Cme Al Hs1 Nnc Fnc L E)
        as (Hm & Nm & Fm & Am & Mm & Xm & Sm & Em).
      destruct same; [contradiction (Hm Es)|].
      assert (Mh : isNil (Match nc key) = false) by now rewrite Mnc.
      apply Mm in Mh. rewrite Mnc in Mh.
      split; [lia|]. split; [assumption|]. split; [assumption|].
      split; [apply Am; [apply allocated_mono with s1; [lia|assumption]|lia]|].
      split; [exact Mh|].
      repeat split; auto.
Qed.

(** X15. [GetOrInsert] of an absent key inserts it: on a trie that satisfies
    the invariants and holds no entry for the key, the node it returns is
    the one a lookup of the key finds in the new trie, it is active and
    carries the key and the value given, and the new trie has the old
    entries and this one, with [NumNodes] grown by one (in 32 bits). *)
Theorem GetOrInsert_absent_inserts (T : trieNode V) key data s T' result s' :
  good T -> wfPrefix key -> allocated s T ->
  exactHit T key = false ->
  GetOrInsert T key data s = Done (T', result) s' ->
  Match T' key = result
  /\ active result = true /\ prefixOf result = key /\ dataOf result = data
  /\ Permutation (entries T') ((key, data) :: entries T)
  /\ NumNodes T' = uint32 (NumNodes T + 1).
Proof.
  intros G W Al Eh H.
  destruct (GetOrInsert_miss T G key data s T' result s' W Al Eh H)
    as (_ & _ & _ & _ & Hm & Hp & Ha & Hd & Hs & He).
  auto 10.
Qed.

(** ** Lookup as a scan of the entries *)

Lemma entries_nodes (T : trieNode V) k d :
  In (k, d) (entries T) ->
  exists e, In e (nodes T) /\ active e = true
            /\ prefixOf e = k /\ dataOf e = d.
Proof.
  induction T as [|p k0 d0 sz ht a c0 IH0 c1 IH1]; cbn [entries nodes];
    [intros []|].
  intros H. apply in_app_or in H. destruct H as [H|H].
  - destruct (IH0 H) as (e & Hin & He). exists e. split; [|exact He].
    right. apply in_or_app. now left.
  - apply in_app_or in H. destruct H as [H|H].
    + destruct a; [|destruct H]. destruct H as [H|[]].
      apply pair_equal_spec in H. destruct H as [<- <-].
      eexists. split; [now left|]. repeat split.
    + destruct (IH1 H) as (e & Hin & He). exists e. split; [|exact He].
      right. apply in_or_app. now right.
Qed.

Lemma nodes_entries (T e : trieNode V) :
  In e (nodes T) -> active e = true ->
  In (prefixOf e, dataOf e) (entries T).
Proof.
  induction T as [|p k0 d0 sz ht a c0 IH0 c1 IH1]; cbn [entries nodes];
    [intros []|].
  intros [<-|H] Ha.
  - cbn [active] in Ha. subst a. apply in_or_app. right. now left.
  - apply in_app_or in H. apply in_or_app. destruct H as [H|H].
    + left. now apply IH0.
    + right. apply in_or_app. right. now apply IH1.
Qed.

(* An entry of a subtree contains a key only if the parent does, and only
   on the side of the key's next bit. *)
Lemma entry_below k b (c : trieNode V) key ke de :
  wfPrefix k -> wfPrefix key -> shaped c -> under k b c ->
  In (ke, de) (entries c) ->
  length k < length ke
  /\ (containsKey ke key = true ->
      length k < length key
      /\ agreeb (length k) (ui (addr k)) (ui (addr key)) = true
      /\ bit_at (ui (addr key)) (length k) = b).
Proof.
  intros Wk Wkey Sc Uc Hin.
  destruct (entries_nodes c ke de Hin) as (e & Hn & _ & <- & _).
  pose proof (nodes_under k b c e Wk Sc Uc Hn) as Ue.
  split; [apply Ue|]. intros C.
  apply containsKey_under with (ke := prefixOf e); try assumption.
  exact (in_nodes_wf c e Sc Hn).
Qed.

Lemma longestEntry_none key (l : list (Prefix * Data V)) :
  (forall e, In e l -> containsKey (fst e) key = false) ->
  longestEntry key l = None.
Proof.
  induction l as [|e l IH]; intros H; [reflexivity|].
  cbn [longestEntry]. rewrite IH by (intros; apply H; now right).
  now rewrite (H e) by now left.
Qed.

Lemma longestEntry_app_l key (l1 l2 : list (Prefix * Data V)) :
  (forall e, In e l1 -> containsKey (fst e) key = false) ->
  longestEntry key (l1 ++ l2) = longestEntry key l2.
Proof.
  induction l1 as [|e l1 IH]; intros H; [reflexivity|].
  cbn [app longestEntry]. rewrite IH by (intros; apply H; now right).
  rewrite (H e) by now left. cbn [andb].
  now destruct (longestEntry key l2).
Qed.

Lemma longestEntry_app_r key (l1 l2 : list (Prefix * Data V)) :
  (forall e, In e l2 -> containsKey (fst e) key = false) ->
  longestEntry key (l1 ++ l2) = longestEntry key l1.
Proof.
  intros H. induction l1 as [|e l1 IH].
  - now apply longestEntry_none.
  - cbn [app longestEntry]. now rewrite IH.
Qed.

Lemma longestEntry_snoc key (l : list (Prefix * Data V)) e :
  (forall e', In e' l -> length (fst e) < length (fst e')) ->
  longestEntry key (l ++ [e])
  = match longestEntry key l with
    | Some e' => Some e'
    | None => if containsKey (fst e) key then Some e else None
    end.
Proof.
  induction l as [|x l IH]; intros H; [reflexivity|].
  cbn [app longestEntry]. rewrite IH by (intros; apply H; now right).
  pose proof (H x ltac:(now left)) as Hx.
  destruct (longestEntry key l) as [e'|].
  - now destruct (containsKey (fst x) key && _).
  - destruct (containsKey (fst e) key), (containsKey (fst x) key);
      cbn [andb]; try reflexivity.
    now rewrite (proj2 (Z.ltb_lt _ _) Hx).
Qed.

Lemma longestEntry_none_inv key (l : list (Prefix * Data V)) :
  longestEntry key l = None ->
  forall e, In e l -> containsKey (fst e) key = false.
Proof.
  induction l as [|z l IH]; intros Hn y []; cbn [longestEntry] in Hn.
  - subst z. destruct (longestEntry key l) as [e0|].
    + destruct (containsKey (fst y) key && _); discriminate.
    + destruct (containsKey (fst y) key); [discriminate|reflexivity].
  - apply IH; [|assumption].
    destruct (longestEntry key l) as [e0|]; [|reflexivity].
    destruct (containsKey (fst z) key && _); discriminate.
Qed.

(* What the scan returns is an entry of the list that contains the key and
   is as long as any other that does. *)
Lemma longestEntry_some key (l : list (Prefix * Data V)) e :
  longestEntry key l = Some e ->
  In e l /\ containsKey (fst e) key = true
  /\ forall e', In e' l -> containsKey (fst e') key = true ->
                length (fst e') <= length (fst e).
Proof.
  revert e. induction l as [|x l IH]; intros e H; [discriminate|].
  cbn [longestEntry] in H.
  destruct (longestEntry key l) as [e0|] eqn:E.
  - destruct (IH e0 eq_refl) as (Hin & C & Best).
    destruct (containsKey (fst x) key) eqn:Cx; cbn [andb] in H.
    + destruct (Z.ltb_spec (length (fst e0)) (length (fst x))) as [Hl|Hl];
        injection H as <-.
      * split; [now left|]. split; [assumption|].
        intros e' [<-|Hin'] C'; [lia|]. specialize (Best e' Hin' C'). lia.
      * split; [now right|]. split; [assumption|].
        intros e' [<-|Hin'] C'; [lia|]. now apply Best.
    + injection H as <-.
      split; [now right|]. split; [assumption|].
      intros e' [<-|Hin'] C'; [congruence|]. now apply Best.
  - destruct (containsKey (fst x) key) eqn:Cx; [|discriminate].
    injection H as <-.
    split; [now left|]. split; [assumption|].
    intros e' [<-|Hin'] C'; [lia|].
    rewrite (longestEntry_none_inv key l E e' Hin') in C'. discriminate.
Qed.

(** X17. [Match] is longest-prefix match over the entries: on a trie whose
    children are keyed below their parents, the prefix and data of the node
    it returns are those a scan of all the entries finds as the longest
    prefix containing the key, and it returns nil exactly when the scan
    finds none. *)
Theorem Match_is_longestEntry (T : trieNode V) key :
  shaped T -> wfPrefix key ->
  entryOf (Match T key) = longestEntry key (entries T).
Proof.
  intros S Wkey.
  induction T as [|p k d sz ht a c0 IH0 c1 IH1]; [reflexivity|].
  destruct S as (Wk & U0 & U1 & S0 & S1).
  specialize (IH0 S0). specialize (IH1 S1).
  pose proof (fun ke de => entry_below k false c0 key ke de Wk Wkey S0 U0) as B0.
  pose proof (fun ke de => entry_below k true c1 key ke de Wk Wkey S1 U1) as B1.
  (* no entry contains a key that the node's prefix does not contain *)
  assert (Out : containsKey k key = false ->
                longestEntry key (entries (Node p k d sz ht a c0 c1)) = None).
  { intros Ck. apply longestEntry_none. intros [ke de] Hin. cbn [fst].
    destruct (containsKey ke key) eqn:C; [exfalso|reflexivity].
    unfold containsKey in Ck. apply andb_false_iff in Ck.
    cbn [entries] in Hin. apply in_app_or in Hin. destruct Hin as [Hin|Hin].
    - destruct (proj2 (B0 ke de Hin) C) as (L & A & _).
      destruct Ck as [Ck|Ck]; [apply Z.leb_gt in Ck; lia|congruence].
    - apply in_app_or in Hin. destruct Hin as [Hin|Hin].
      + destruct a; [|destruct Hin]. destruct Hin as [Hin|[]].
        apply pair_equal_spec in Hin. destruct Hin as [<- <-].
        unfold containsKey in C. apply andb_true_iff in C.
        destruct C as [C1 C2].
        destruct Ck as [Ck|Ck]; congruence.
      + destruct (proj2 (B1 ke de Hin) C) as (L & A & _).
        destruct Ck as [Ck|Ck]; [apply Z.leb_gt in Ck; lia|congruence]. }
  cbn [Match].
  destruct (Z.ltb_spec (length key) (length k)) as [Hlt|Hge].
  { rewrite Out; [reflexivity|]. unfold containsKey.
    now rewrite (proj2 (Z.leb_gt _ _) Hlt). }
  destruct (contains_cases k key Wk Wkey Hge)
    as [[A ->]|[A (_ & _ & _ & ->)]]; cbn [negb].
  2:{ rewrite Out; [reflexivity|]. unfold containsKey.
      now rewrite A, andb_false_r. }
  assert (Self : containsKey k key = true).
  { unfold containsKey. rewrite A, andb_true_r. apply Z.leb_le. lia. }
  cbn [entries].
  destruct (Z.eqb_spec (length k) (length key)) as [Heq|Hne]; cbn [negb isNil].
  - (* the key has the node's length: nothing below contains it *)
    rewrite longestEntry_app_l.
    2:{ intros [ke de] Hin. cbn [fst].
        destruct (containsKey ke key) eqn:C; [exfalso|reflexivity].
        destruct (proj2 (B0 ke de Hin) C) as (L & _). lia. }
    rewrite longestEntry_app_r.
    2:{ intros [ke de] Hin. cbn [fst].
        destruct (containsKey ke key) eqn:C; [exfalso|reflexivity].
        destruct (proj2 (B1 ke de Hin) C) as (L & _). lia. }
    destruct a; cbn [negb entryOf longestEntry fst]; [|reflexivity].
    now rewrite Self.
  - (* the key is longer: look below, on the side of its next bit *)
    destruct (bit_at (ui (addr key)) (length k)) eqn:Eb; cbn [Z.eqb].
    + rewrite longestEntry_app_l.
      2:{ intros [ke de] Hin. cbn [fst].
          destruct (containsKey ke key) eqn:C; [exfalso|reflexivity].
          destruct (proj2 (B0 ke de Hin) C) as (_ & _ & Hb). congruence. }
      destruct (isNil (Match c1 key)) eqn:Em; cbn [negb].
      * destruct a; cbn [negb app longestEntry entryOf fst]; rewrite <- IH1;
          destruct (Match c1 key); try discriminate; cbn [entryOf];
          [|reflexivity].
        now rewrite Self.
      * destruct (Match_in_nodes c1 key Em) as (Hin & Ha).
        pose proof (nodes_entries c1 _ Hin Ha) as He.
        destruct a; cbn [app longestEntry fst]; rewrite <- IH1;
          destruct (Match c1 key) as [|pm km dm szm htm am m0 m1];
          try discriminate; cbn [entryOf]; [|reflexivity].
        cbn [prefixOf dataOf] in He.
        rewrite Self. cbn [andb fst].
        pose proof (proj1 (B1 km dm He)) as L.
        now rewrite (proj2 (Z.ltb_ge _ _) (Z.lt_le_incl _ _ L)).
    + rewrite app_assoc. rewrite longestEntry_app_r.
      2:{ intros [ke de] Hin. cbn [fst].
          destruct (containsKey ke key) eqn:C; [exfalso|reflexivity].
          destruct (proj2 (B1 ke de Hin) C) as (_ & _ & Hb). congruence. }
      destruct a; cbn [negb].
      * rewrite longestEntry_snoc.
        2:{ intros [ke de] Hin. cbn [fst]. apply (B0 ke de Hin). }
        rewrite <- IH0. cbn [fst]. rewrite Self.
        destruct (Match c0 key); reflexivity.
      * rewrite app_nil_r, <- IH0.
        destruct (Match c0 key); reflexivity.
Qed.

(** ** Lookups of other keys after an insertion or a deletion *)

(* In a trie whose children are keyed below their parents, two entries of
   the same length that contain the same key are the same entry. *)
Lemma entries_no_ties (T : trieNode V) key e1 e2 :
  shaped T -> wfPrefix key ->
  In e1 (entries T) -> In e2 (entries T) ->
  containsKey (fst e1) key = true -> containsKey (fst e2) key = true ->
  length (fst e1) = length (fst e2) -> e1 = e2.
Proof.
  intros S Wkey.
  induction T as [|p k d sz ht a c0 IH0 c1 IH1]; [intros []|].
  destruct S as (Wk & U0 & U1 & S0 & S1).
  specialize (IH0 S0). specialize (IH1 S1).
  pose proof (fun ke de => entry_below k false c0 key ke de Wk Wkey S0 U0) as B0.
  pose proof (fun ke de => entry_below k true c1 key ke de Wk Wkey S1 U1) as B1.
  assert (Cl : forall e, In e (entries (Node p k d sz ht a c0 c1)) ->
             (In e (entries c0) /\ length k < length (fst e)
              /\ (containsKey (fst e) key = true ->
                  bit_at (ui (addr key)) (length k) = false))
             \/ e = (k, d)
             \/ (In e (entries c1) /\ length k < length (fst e)
                 /\ (containsKey (fst e) key = true ->
                     bit_at (ui (addr key)) (length k) = true))).
  { intros [ke de] Hin. cbn [entries] in Hin. cbn [fst].
    apply in_app_or in Hin. destruct Hin as [Hin|Hin].
    - left. split; [assumption|]. split; [apply (B0 ke de Hin)|].
      intros C. apply (proj2 (B0 ke de Hin) C).
    - apply in_app_or in Hin. destruct Hin as [Hin|Hin].
      + right. left. destruct a; [|destruct Hin].
        destruct Hin as [Hin|[]]. now symmetry.
      + right. right. split; [assumption|]. split; [apply (B1 ke de Hin)|].
        intros C. apply (proj2 (B1 ke de Hin) C). }
  intros H1 H2 C1 C2 L.
  destruct (Cl e1 H1) as [(I1 & L1 & Bt1)|[->|(I1 & L1 & Bt1)]];
    destruct (Cl e2 H2) as [(I2 & L2 & Bt2)|[->|(I2 & L2 & Bt2)]];
    cbn [fst] in *; try lia; try reflexivity;
    try (specialize (Bt1 C1); specialize (Bt2 C2); congruence).
  - now apply IH0.
  - now apply IH1.
Qed.

(* Without ties the scan does not depend on the order of the list. *)
Lemma longestEntry_perm key (l l' : list (Prefix * Data V)) :
  Permutation l l' ->
  (forall e1 e2, In e1 l -> In e2 l ->
     containsKey (fst e1) key = true -> containsKey (fst e2) key = true ->
     length (fst e1) = length (fst e2) -> e1 = e2) ->
  longestEntry key l = longestEntry key l'.
Proof.
  intros P NT.
  destruct (longestEntry key l) as [e|] eqn:E;
    destruct (longestEntry key l') as [e'|] eqn:E'.
  - destruct (longestEntry_some key l e E) as (Hin & C & Best).
    destruct (longestEntry_some key l' e' E') as (Hin' & C' & Best').
    pose proof (Permutation_in _ P Hin) as Hin2.
    pose proof (Permutation_in _ (Permutation_sym P) Hin') as Hin2'.
    pose proof (Best e' Hin2' C'). pose proof (Best' e Hin2 C).
    f_equal. apply NT; try assumption. lia.
  - destruct (longestEntry_some key l e E) as (Hin & C & _).
    pose proof (longestEntry_none_inv key l' E' e (Permutation_in _ P Hin)).
    congruence.
  - destruct (longestEntry_some key l' e' E') as (Hin' & C' & _).
    pose proof (longestEntry_none_inv key l E e'
                  (Permutation_in _ (Permutation_sym P) Hin')).
    congruence.
  - reflexivity.
Qed.

Lemma Insert_good (T : trieNode V) key data s T' s' :
  good T -> wfPrefix key ->
  Insert T key data s = Done (T', None) s' -> good T'.
Proof.
  intros G W H.
  unfold Insert, bind, newNode, alloc, bind, ret in H.
  destruct (insert T (Node s key data 0 0 false nil nil)
              (mkInsertOpts true false None) (Pos.succ s))
    as [[[head err] node'] t|msg] eqn:E; [|discriminate].
  cbn [fst snd] in H. returned H.
  exact (proj1 (insert_good T G _ _ _ _ _ _ _ _ W E)).
Qed.

(** X18. A successful [Insert] changes lookups only in favour of the new
    entry: in the new trie a lookup of any key finds the inserted entry when
    its prefix contains the key and the old trie had nothing for the key or
    only a shorter prefix, and in every other case it finds the prefix and
    data that the old trie gave. *)
Theorem Insert_then_Match_any (T : trieNode V) key data s T' s' key2 :
  good T -> wfPrefix key -> wfPrefix key2 -> allocated s T ->
  Insert T key data s = Done (T', None) s' ->
  entryOf (Match T' key2)
  = match entryOf (Match T key2) with
    | Some e =>
        if containsKey key key2 && (length (fst e) <? length key)
        then Some (key, data) else Some e
    | None => if containsKey key key2 then Some (key, data) else None
    end.
Proof.
  intros G W W2 Al H.
  pose proof (Insert_good T key data s T' s' G W H) as G'.
  destruct (Insert_success_effect T key data s T' s' G W Al H)
    as (Hh & node' & Eff).
  destruct Eff as (_ & _ & _ & _ & _ & _ & _ & _ & _ & P).
  specialize (P Hh).
  rewrite (Match_is_longestEntry T' key2 (proj1 G') W2).
  rewrite (Match_is_longestEntry T key2 (proj1 G) W2).
  rewrite (longestEntry_perm key2 _ _ P).
  - reflexivity.
  - intros e1 e2. apply entries_no_ties; [exact (proj1 G')|exact W2].
Qed.

Lemma exactHit_entry (T : trieNode V) key :
  shaped T -> wfPrefix key ->
  exactHit T key = true <->
  exists e, In e (entries T) /\ containsKey (fst e) key = true
            /\ length (fst e) = length key.
Proof.
  intros S W. pose proof (Match_is_longestEntry T key S W) as M.
  unfold exactHit. split.
  - intros H. apply andb_true_iff in H. destruct H as [N L].
    apply Z.eqb_eq in L.
    destruct (Match T key) as [|pm km dm szm htm am m0 m1]; [discriminate|].
    cbn [entryOf prefixOf] in *. symmetry in M.
    destruct (longestEntry_some key _ _ M) as (Hin & C & _).
    exists (km, dm). auto.
  - intros (e & Hin & C & L).
    destruct (longestEntry key (entries T)) as [e'|] eqn:E.
    + destruct (longestEntry_some key _ _ E) as (_ & C' & Best).
      specialize (Best e Hin C).
      unfold containsKey in C'. apply andb_true_iff in C'.
      destruct C' as [C' _]. apply Z.leb_le in C'.
      destruct (Match T key) as [|pm km dm szm htm am m0 m1]; [discriminate|].
      cbn [entryOf] in M. injection M as <-. cbn [isNil negb prefixOf fst] in *.
      apply Z.eqb_eq. lia.
    + pose proof (longestEntry_none_inv key _ E e Hin). congruence.
Qed.

(** X19. [Delete] of a present key, on a trie whose stored values Go can
    compare, leaves the lookups of other entries alone: a key whose lookup
    did not find the deleted entry gets the same prefix and data from the
    new trie, and a key whose lookup found the deleted entry gets a strictly
    shorter prefix or nothing. *)
Theorem Delete_then_Match_any (T : trieNode V) key s key2 :
  good T -> comparable T -> wfPrefix key -> wfPrefix key2 ->
  allocated s T -> distinct T ->
  exactHit T key = true ->
  exists T' s',
    Delete T key s = Done (T', None) s'
    /\ (entryOf (Match T key2) <> entryOf (Match T key) ->
        entryOf (Match T' key2) = entryOf (Match T key2))
    /\ (entryOf (Match T key2) = entryOf (Match T key) ->
        match entryOf (Match T' key2) with
        | Some e => length (fst e) < length key
        | None => True
        end).
Proof.
  intros G Cm W W2 Al D Hh.
  destruct (del_hit_effect T G Cm key s W Al D Hh)
    as (T' & s' & E & _ & Hn & _ & _ & P).
  exists T', s'. split; [exact E|].
  pose proof (proj1 (del_good T G key _ s T' s' E)) as G'.
  pose proof (Match_is_longestEntry T key2 (proj1 G) W2) as M.
  pose proof (Match_is_longestEntry T' key2 (proj1 G') W2) as M'.
  rewrite (longestEntry_perm key2 _ _ P) in M
    by (intros e1 e2; apply entries_no_ties; [exact (proj1 G)|exact W2]).
  pose proof Hh as Hl. unfold exactHit in Hl.
  apply andb_true_iff in Hl. destruct Hl as [Hnil Hl]. apply Z.eqb_eq in Hl.
  destruct (Match T key) as [|pm km dm szm htm am m0 m1] eqn:Em;
    [discriminate|].
  cbn [prefixOf dataOf entryOf] in *. clear Hnil.
  cbn [longestEntry fst] in M. rewrite <- M' in M.
  split.
  - intros Ne. rewrite M in Ne |- *.
    destruct (entryOf (Match T' key2)) as [e'|].
    + destruct (containsKey km key2 && _); congruence.
    + destruct (containsKey km key2); congruence.
  - intros Eq. destruct (entryOf (Match T' key2)) as [e'|] eqn:E'; [|exact I].
    rewrite Eq in M.
    destruct (containsKey km key2 && (length (fst e') <? length km)) eqn:Cc.
    + apply andb_true_iff in Cc. destruct Cc as [_ Cc].
      apply Z.ltb_lt in Cc. lia.
    + exfalso. injection M as <-.
      symmetry in M'.
      destruct (longestEntry_some key2 _ _ M') as (Hin & _ & _).
      assert (Hh' : exactHit T' key = true).
      { apply (exactHit_entry T' key (proj1 G') W). exists (km, dm).
        split; [exact Hin|]. split; [|exact Hl].
        pose proof (Match_is_longestEntry T key (proj1 G) W) as Mk.
        rewrite Em in Mk. cbn [entryOf] in Mk. symmetry in Mk.
        apply (longestEntry_some key _ _ Mk). }
      congruence.
Qed.

(** ** Host bits of the search key *)

(** X16. A lookup does not read the host bits of the search key: on a trie
    whose children are keyed below their parents, two keys of the same
    length that agree on their first [length] bits get the same answer from
    [Match]. *)
Theorem Match_ignores_host_bits (T : trieNode V) key key' :
  shaped T -> wfPrefix key -> wfPrefix key' ->
  length key = length key' ->
  agreeb (length key) (ui (addr key)) (ui (addr key')) = true ->
  Match T key = Match T key'.
Proof.
  intros S W W' El A.
  induction T as [|p k d sz ht a c0 IH0 c1 IH1]; [reflexivity|].
  destruct S as (Wk & _ & _ & S0 & S1).
  specialize (IH0 S0). specialize (IH1 S1).
  cbn [Match]. rewrite <- El.
  destruct (Z.ltb_spec (length key) (length k)) as [?|L]; [reflexivity|].
  pose proof Wk as [Hk Hkl]. pose proof W as [Hy Hyl]. pose proof W' as [Hy' _].
  assert (Ak : agreeb (length k) (ui (addr key)) (ui (addr key')) = true)
    by (apply agreeb_mono with (length key); try assumption; lia).
  assert (Eq : agreeb (length k) (ui (addr k)) (ui (addr key'))
               = agreeb (length k) (ui (addr k)) (ui (addr key))).
  { apply eq_true_iff_eq. split; intros B.
    - apply agreeb_trans with (ui (addr key')); [assumption|].
      now rewrite agreeb_sym.
    - now apply agreeb_trans with (ui (addr key)). }
  destruct (contains_cases k key Wk W L) as [[B ->]|[B (_ & _ & _ & ->)]];
    (destruct (contains_cases k key' Wk W' ltac:(lia))
      as [[B' ->]|[B' (_ & _ & _ & ->)]]); try congruence; [|reflexivity].
  rewrite <- El. cbn [negb].
  destruct (Z.eqb_spec (length k) (length key)) as [?|Hne]; cbn [negb];
    [reflexivity|].
  replace (bit_at (ui (addr key')) (length k))
    with (bit_at (ui (addr key)) (length k)).
  - destruct (bit_at (ui (addr key)) (length k)); cbn [Z.eqb];
      [now rewrite IH1 | now rewrite IH0].
  - apply (proj1 (agreeb_bits (length key) _ _ ltac:(lia) Hy Hy') A). lia.
Qed.

(** ** Addresses of the nodes *)

(* Reading off the results of a call, the result variables replaced by what
   was returned. *)
Ltac landed H :=
  apply Done_inj in H; destruct H as [H ?];
  repeat (apply pair_equal_spec in H; destruct H as [H ?]);
  repeat match goal with E : _ = ?x |- _ => is_var x; subst x end.

Lemma addrs_node p k d sz ht a (c0 c1 : trieNode V) :
  addrs (Node p k d sz ht a c0 c1) = p :: addrs c0 ++ addrs c1.
Proof. unfold addrs. cbn [nodes map addrOf]. now rewrite map_app. Qed.

Lemma allocated_addrs s (T : trieNode V) :
  allocated s T <-> forall x, In x (addrs T) -> (x < s)%positive.
Proof.
  induction T as [|p k d sz ht a c0 IH0 c1 IH1].
  - split; [intros _ x []|intros _; exact I].
  - cbn [allocated]. rewrite addrs_node, IH0, IH1. split.
    + intros (Hp & H0 & H1) x [<-|Hx]; [exact Hp|].
      apply in_app_or in Hx. destruct Hx; auto.
    + intros H. split; [apply H; now left|].
      split; intros x Hx; apply H; right; apply in_or_app; auto.
Qed.

Lemma NoDup_app_inv {A} (l1 l2 : list A) :
  NoDup (l1 ++ l2) ->
  NoDup l1 /\ NoDup l2 /\ forall a, In a l1 -> ~ In a l2.
Proof.
  intros H. split; [now apply NoDup_app_remove_r in H|].
  split; [now apply NoDup_app_remove_l in H|].
  induction l1 as [|x l1 IH]; [intros a []|].
  cbn [app] in H. apply NoDup_cons_iff in H. destruct H as (Hx & H).
  intros a [<-|Ha] Hin.
  - apply Hx. apply in_or_app. now right.
  - now apply (IH H a).
Qed.

Lemma distinct_node p k d sz ht a (c0 c1 : trieNode V) :
  distinct (Node p k d sz ht a c0 c1) <->
  ~ In p (addrs c0) /\ ~ In p (addrs c1) /\ distinct c0 /\ distinct c1
  /\ forall x, In x (addrs c0) -> ~ In x (addrs c1).
Proof.
  unfold distinct. fold (addrs (Node p k d sz ht a c0 c1)).
  fold (addrs c0). fold (addrs c1). rewrite addrs_node, NoDup_cons_iff.
  split.
  - intros (Hp & H). apply NoDup_app_inv in H. destruct H as (H0 & H1 & Hd).
    repeat split; try assumption; intros Hin; apply Hp; apply in_or_app; auto.
  - intros (Hp0 & Hp1 & H0 & H1 & Hd). split.
    + intros Hin. apply in_app_or in Hin. tauto.
    + now apply NoDup_app.
Qed.

Lemma madeFrom_refl (me : trieNode V) lo hi :
  distinct me -> madeFrom me lo hi me.
Proof. intros D. split; [exact D|]. intros x Hx. now left. Qed.

Lemma madeFrom_nil (me : trieNode V) lo hi : madeFrom me lo hi nil.
Proof. split; [constructor|intros x []]. Qed.

Lemma madeFrom_child p k d sz ht a (c0 c1 : trieNode V) lo hi b :
  distinct (Node p k d sz ht a c0 c1) ->
  madeFrom (Node p k d sz ht a c0 c1) lo hi (if b : bool then c0 else c1).
Proof.
  intros D. apply distinct_node in D. destruct D as (_ & _ & D0 & D1 & _).
  split; [now destruct b|].
  intros x Hx. left. rewrite addrs_node. right. apply in_or_app.
  destruct b; auto.
Qed.

Lemma madeFrom_wider (me : trieNode V) lo hi lo' hi' t :
  (lo' <= lo)%positive -> (hi <= hi')%positive ->
  madeFrom me lo hi t -> madeFrom me lo' hi' t.
Proof.
  intros Hl Hh (D & O). split; [exact D|].
  intros x Hx. destruct (O x Hx); [now left|right; lia].
Qed.

Lemma madeFrom_allocated (me : trieNode V) lo hi t :
  allocated hi me -> madeFrom me lo hi t -> allocated hi t.
Proof.
  intros Al (_ & O). apply allocated_addrs. intros x Hx.
  destruct (O x Hx) as [Hm|Hm]; [|lia].
  now apply (proj1 (allocated_addrs hi me) Al).
Qed.

(* The copy of a node, at a new address, with one child replaced by a trie
   made from that child. *)
Lemma madeFrom_replaced p k d sz ht a (c0 c1 : trieNode V) lo s1 child nc
      k' d' sz' ht' a' k'' d'' sz'' ht'' a'' :
  let me := Node p k d sz ht a c0 c1 in
  allocated lo me -> distinct me -> (lo <= s1)%positive ->
  madeFrom (if child =? 0 then c0 else c1) lo s1 nc ->
  madeFrom me lo (Pos.succ s1)
    (if child =? 0 then Node s1 k' d' sz' ht' a' nc c1
     else Node s1 k'' d'' sz'' ht'' a'' c0 nc).
Proof.
  intros me Al D Hs (Dn & On).
  pose proof (proj1 (allocated_addrs lo me) Al) as Lt.
  unfold me in Lt. rewrite addrs_node in Lt.
  apply distinct_node in D. destruct D as (Hp0 & Hp1 & D0 & D1 & Dd).
  assert (L0 : forall x, In x (addrs c0) -> (x < lo)%positive)
    by (intros x Hx; apply Lt; right; apply in_or_app; now left).
  assert (L1 : forall x, In x (addrs c1) -> (x < lo)%positive)
    by (intros x Hx; apply Lt; right; apply in_or_app; now right).
  destruct (child =? 0).
  - split.
    + apply distinct_node. repeat split; try assumption.
      * intros Hin. destruct (On _ Hin) as [H|H]; [apply L0 in H|]; lia.
      * intros Hin. apply L1 in Hin. lia.
      * intros x Hx Hx1. destruct (On _ Hx) as [H|H].
        -- exact (Dd x H Hx1).
        -- apply L1 in Hx1. lia.
    + intros x Hx. rewrite addrs_node in Hx. unfold me. rewrite addrs_node.
      destruct Hx as [<-|Hx]; [right; lia|].
      apply in_app_or in Hx. destruct Hx as [Hx|Hx].
      * destruct (On _ Hx) as [H|H]; [|right; lia].
        left. right. apply in_or_app. now left.
      * left. right. apply in_or_app. now right.
  - split.
    + apply distinct_node. repeat split; try assumption.
      * intros Hin. apply L0 in Hin. lia.
      * intros Hin. destruct (On _ Hin) as [H|H]; [apply L1 in H|]; lia.
      * intros x Hx Hx1. destruct (On _ Hx1) as [H|H].
        -- exact (Dd x Hx H).
        -- apply L0 in Hx. lia.
    + intros x Hx. rewrite addrs_node in Hx. unfold me. rewrite addrs_node.
      destruct Hx as [<-|Hx]; [right; lia|].
      apply in_app_or in Hx. destruct Hx as [Hx|Hx].
      * left. right. apply in_or_app. now left.
      * destruct (On _ Hx) as [H|H]; [|right; lia].
        left. right. apply in_or_app. now right.
Qed.

(* A node at a new address above two tries made from the old one that share
   no address. *)
Lemma madeFrom_node (me : trieNode V) lo hi x k d sz ht a (l r : trieNode V) :
  (lo <= x < hi)%positive ->
  madeFrom me lo hi l -> madeFrom me lo hi r ->
  ~ In x (addrs l) -> ~ In x (addrs r) ->
  (forall z, In z (addrs l) -> ~ In z (addrs r)) ->
  madeFrom me lo hi (Node x k d sz ht a l r).
Proof.
  intros Hx (Dl & Ol) (Dr & Or) Xl Xr Hd. split.
  - apply distinct_node. repeat split; assumption.
  - intros z Hz. rewrite addrs_node in Hz.
    destruct Hz as [<-|Hz]; [now right|].
    apply in_app_or in Hz. destruct Hz; auto.
Qed.

Lemma madeFrom_leaf (me : trieNode V) lo hi x k d sz ht a :
  (lo <= x < hi)%positive ->
  madeFrom me lo hi (Node x k d sz ht a nil nil).
Proof.
  intros Hx. apply madeFrom_node; try assumption;
    try apply madeFrom_nil; try (intros []); intros ? [].
Qed.

Lemma insertNil_addrs (me : trieNode V) q key data opts s head err node' s' :
  (q < s)%positive ->
  insertNil (Node q key data 0 0 false nil nil) opts s
  = Done (head, err, node') s' ->
  s' = s /\ madeFrom me q s head
  /\ (err = None -> addrs head = [q]).
Proof.
  intros Hq H. unfold insertNil, ret in H.
  destruct (negb (optInsert opts)); landed H.
  - split; [reflexivity|]. split; [apply madeFrom_nil|discriminate].
  - split; [reflexivity|]. split; [apply madeFrom_leaf; lia|reflexivity].
Qed.

Lemma insert_addrs me :
  forall q key data opts s head err node' s',
    allocated q me -> distinct me -> (q < s)%positive ->
    insert me (Node q key data 0 0 false nil nil) opts s
    = Done (head, err, node') s' ->
    (s <= s')%positive /\ madeFrom me q s' head.
Proof.
  induction me as [|p k d sz ht a c0 IH0 c1 IH1];
    intros q key data opts s head err node' s' Al D Hq H.
  - cbn [insert] in H.
    destruct (insertNil_addrs nil _ _ _ _ _ _ _ _ _ Hq H) as (-> & M & _).
    split; [lia|exact M].
  - pose proof (proj1 (allocated_addrs q _) Al) as Lt.
    pose proof (proj1 (distinct_node _ _ _ _ _ _ _ _) D)
      as (Hp0 & Hp1 & D0 & D1 & Dd).
    pose proof Al as (Hp & Al0 & Al1).
    cbn [insert] in H.
    destruct (compare k key) as [[[result reversed] common] child].
    destruct result.
    + (* the key is the node's key *)
      destruct (a && negb (optUpdate opts));
        [unfold ret in H; landed H; split; [lia|now apply madeFrom_refl]|].
      destruct (negb a && negb (optInsert opts));
        [unfold ret in H; landed H; split; [lia|now apply madeFrom_refl]|].
      unfold bind in H.
      destruct (if a then callEq (optEq opts) d data else ret false)
        as [same s1|] eqn:Es; [|discriminate].
      assert (s1 = s) as ->.
      { destruct a; [destruct (optEq opts); [|discriminate]|];
          unfold callEq, ret in Es; now landed Es. }
      unfold ret in H. landed H. split; [lia|].
      assert (Hm : exists d' sz' ht',
                 mutate (Node q key data 0 0 false nil nil)
                   (fun n => set_isActive true
                      (set_children c0 c1 (if same then set_Data d n else n)))
                 = Node q key d' sz' ht' true c0 c1)
        by (destruct same; do 3 eexists; reflexivity).
      destruct Hm as (d' & sz' & ht' & ->).
      apply madeFrom_node; try lia.
      * apply (madeFrom_child p k d sz ht a c0 c1 _ _ true D).
      * apply (madeFrom_child p k d sz ht a c0 c1 _ _ false D).
      * intros Hin. specialize (Lt q). rewrite addrs_node in Lt.
        assert (q < q)%positive by (apply Lt; right; apply in_or_app; auto).
        lia.
      * intros Hin. specialize (Lt q). rewrite addrs_node in Lt.
        assert (q < q)%positive by (apply Lt; right; apply in_or_app; auto).
        lia.
      * exact Dd.
    + (* the key goes below the node *)
      unfold bind in H.
      destruct (insert (if child =? 0 then c0 else c1)
                       (Node q key data 0 0 false nil nil) opts s)
        as [[[nc e] nd] s1|] eqn:Er; [|discriminate].
      assert (IH : (s <= s1)%positive
                   /\ madeFrom (if child =? 0 then c0 else c1) q s1 nc).
      { destruct (child =? 0); [eapply IH0 | eapply IH1]; eassumption. }
      destruct IH as (Hs1 & Mnc).
      destruct e as [e|].
      { unfold ret in H. landed H. split; [lia|now apply madeFrom_refl]. }
      unfold bind in H. rewrite copyMutate_node, mutate_set_child in H.
      unfold ret in H.
      destruct (struct_eqb _ _) as [[|]|]; try discriminate H; landed H.
      * split; [lia|now apply madeFrom_refl].
      * split; [lia|].
        apply madeFrom_replaced; try assumption. lia.
    + (* the key goes above the node *)
      destruct (negb (optInsert opts)); unfold ret in H; landed H.
      { split; [lia|now apply madeFrom_refl]. }
      split; [lia|]. rewrite mutate_set_active_child.
      assert (Xq : ~ In q (addrs (Node p k d sz ht a c0 c1)))
        by (intros Hin; apply Lt in Hin; lia).
      destruct (child =? 0).
      * apply madeFrom_node;
          [lia | now apply madeFrom_refl | apply madeFrom_nil
          | exact Xq | intros [] | intros ? ? []].
      * apply madeFrom_node;
          [lia | apply madeFrom_nil | now apply madeFrom_refl
          | intros [] | exact Xq | intros ? []].
    + (* the keys are disjoint *)
      unfold bind in H.
      destruct (insertNil (Node q key data 0 0 false nil nil) opts s)
        as [[[nc e] nd] s1|] eqn:Er; [|discriminate].
      destruct (insertNil_addrs (Node p k d sz ht a c0 c1)
                  _ _ _ _ _ _ _ _ _ Hq Er) as (-> & Mnc & Anc).
      destruct e as [e|].
      { unfold ret in H. landed H. split; [lia|now apply madeFrom_refl]. }
      specialize (Anc eq_refl).
      set (jk := mkPrefix _ common) in H.
      assert (Xs : ~ In s (addrs (Node p k d sz ht a c0 c1)))
        by (intros Hin; apply Lt in Hin; lia).
      assert (Xn : ~ In s (addrs nc))
        by (rewrite Anc; intros [Hin|[]]; lia).
      assert (Dn : forall z, In z (addrs (Node p k d sz ht a c0 c1)) ->
                             ~ In z (addrs nc)).
      { intros z Hz. rewrite Anc. intros [<-|[]]. apply Lt in Hz. lia. }
      apply (madeFrom_wider _ _ _ q (Pos.succ s)) in Mnc; try lia.
      destruct (negb (Bool.eqb (child =? 1) reversed));
        unfold alloc, ret in H; rewrite mutate_id in H; landed H;
        (split; [lia|]); apply madeFrom_node; try lia; try assumption;
        try (now apply madeFrom_refl).
      intros z Hz Hz'. exact (Dn z Hz' Hz).
Qed.

Lemma del_addrs me :
  forall key opts s head err s',
    allocated s me -> distinct me ->
    del me key opts s = Done (head, err) s' ->
    (s <= s')%positive /\ madeFrom me s s' head.
Proof.
  induction me as [|p k d sz ht a c0 IH0 c1 IH1];
    intros key opts s head err s' Al D H.
  - cbn [del] in H. unfold ret in H.
    destruct (flatten opts); landed H; (split; [lia|apply madeFrom_nil]).
  - pose proof Al as (Hp & Al0 & Al1).
    pose proof (proj1 (distinct_node _ _ _ _ _ _ _ _) D)
      as (Hp0 & Hp1 & D0 & D1 & Dd).
    cbn [del] in H.
    destruct (compare k key) as [[[result reversed] common] child].
    destruct result.
    + destruct (flatten opts);
        [unfold ret in H; landed H; split; [lia|apply madeFrom_nil]|].
      destruct (isNil c0);
        [unfold ret in H; landed H; split; [lia|];
         apply (madeFrom_child p k d sz ht a c0 c1 _ _ false D)|].
      destruct (isNil c1);
        [unfold ret in H; landed H; split; [lia|];
         apply (madeFrom_child p k d sz ht a c0 c1 _ _ true D)|].
      unfold bind in H. rewrite copyMutate_node in H. unfold ret in H.
      destruct (struct_eqb _ _) as [[|]|]; try discriminate H; landed H.
      * split; [lia|now apply madeFrom_refl].
      * split; [lia|].
        change (mutate (Node s k d sz ht a c0 c1)
                  (fun n => set_Data None (set_isActive false n)))
          with (Node s k None (sizeOf false c0 c1) (heightOf c0 c1) false c0 c1).
        apply madeFrom_node; try lia.
        -- apply (madeFrom_child p k d sz ht a c0 c1 _ _ true D).
        -- apply (madeFrom_child p k d sz ht a c0 c1 _ _ false D).
        -- intros Hin. apply (proj1 (allocated_addrs s c0) Al0) in Hin. lia.
        -- intros Hin. apply (proj1 (allocated_addrs s c1) Al1) in Hin. lia.
        -- exact Dd.
    + unfold bind in H.
      destruct (del (if child =? 0 then c0 else c1) key opts s)
        as [[nc e] s1|] eqn:Er; [|discriminate].
      assert (IH : (s <= s1)%positive
                   /\ madeFrom (if child =? 0 then c0 else c1) s s1 nc).
      { destruct (child =? 0); [eapply IH0 | eapply IH1]; eassumption. }
      destruct IH as (Hs1 & Mnc).
      destruct e as [e|].
      { unfold ret in H. landed H. split; [lia|now apply madeFrom_refl]. }
      destruct (isNil nc && negb a).
      { unfold ret in H. landed H. split; [lia|]. cbn [children].
        destruct (reverseChild child =? 0);
          [apply (madeFrom_child p k d sz ht a c0 c1 _ _ true D)
          |apply (madeFrom_child p k d sz ht a c0 c1 _ _ false D)]. }
      unfold bind in H. rewrite copyMutate_node, mutate_set_child in H.
      unfold ret in H.
      destruct (struct_eqb _ _) as [[|]|]; try discriminate H; landed H.
      * split; [lia|now apply madeFrom_refl].
      * split; [lia|].
        apply madeFrom_replaced; try assumption. 
    + unfold ret in H. destruct (flatten opts); landed H;
        (split; [lia|]); [apply madeFrom_nil|now apply madeFrom_refl].
    + unfold ret in H. landed H. split; [lia|now apply madeFrom_refl].
Qed.

Lemma deferred_addrs me key data (head result : trieNode V) s T' r' s' :
  allocated s me -> distinct me ->
  (isNil result = false -> madeFrom me s s head) ->
  getOrInsertDeferred me key data (head, result) s = Done (T', r') s' ->
  (s <= s')%positive /\ madeFrom me s s' T'.
Proof.
  intros Al D Hh H. unfold getOrInsertDeferred in H.
  destruct (isNil result).
  - unfold bind, newNode, alloc, bind, ret in H.
    destruct (insert me (Node s key data 0 0 false nil nil)
                (mkInsertOpts true false None) (Pos.succ s))
      as [[[hd e] nd] s1|] eqn:Er; [|discriminate].
    cbn [fst snd] in H. destruct e; [discriminate|]. landed H.
    destruct (insert_addrs me _ _ _ _ _ _ _ _ _ Al D
                (Pos.lt_succ_diag_r s) Er) as (Hs & M).
    split; [lia|exact M].
  - unfold ret in H. landed H. split; [lia|]. now apply Hh.
Qed.

Lemma GetOrInsert_addrs me :
  forall key data s head result s',
    allocated s me -> distinct me ->
    GetOrInsert me key data s = Done (head, result) s' ->
    (s <= s')%positive /\ madeFrom me s s' head.
Proof.
  induction me as [|p k d sz ht a c0 IH0 c1 IH1];
    intros key data s head result s' Al D H.
  - cbn [GetOrInsert] in H.
    apply (deferred_addrs _ _ _ _ _ _ _ _ _ Al D) in H; [exact H|discriminate].
  - pose proof Al as (Hp & Al0 & Al1).
    pose proof (proj1 (distinct_node _ _ _ _ _ _ _ _) D)
      as (Hp0 & Hp1 & D0 & D1 & Dd).
    pose proof H as H0. cbn [GetOrInsert] in H.
    destruct (length key <? length k) eqn:L;
      [apply (deferred_addrs _ _ _ _ _ _ _ _ _ Al D) in H;
       [exact H|discriminate]|].
    destruct (contains k key) as [[[m e] c] child] eqn:E.
    destruct m; cbn [negb] in H;
      [|apply (deferred_addrs _ _ _ _ _ _ _ _ _ Al D) in H;
        [exact H|discriminate]].
    destruct e; cbn [negb] in H.
    + destruct a; cbn [negb] in H;
        apply (deferred_addrs _ _ _ _ _ _ _ _ _ Al D) in H;
        try exact H; try discriminate.
      intros _. now apply madeFrom_refl.
    + destruct (GetOrInsert_below _ _ _ _ _ _ _ _ _ _ _ _ _ _ _ _ L E H0)
        as (nc & s1 & same & Er & Nres & Es & -> & ->).
      assert (IH : (s <= s1)%positive
                   /\ madeFrom (if child =? 0 then c0 else c1) s s1 nc).
      { destruct (child =? 0); [eapply IH0 | eapply IH1]; eassumption. }
      destruct IH as (Hs1 & Mnc).
      split; [lia|].
      destruct same; [now apply madeFrom_refl|].
      apply madeFrom_replaced; assumption.
Qed.

Lemma applyOp_addrs (root : trieNode V) o s root' s' :
  allocated s root -> distinct root ->
  applyOp root o s = Done root' s' ->
  (s <= s')%positive /\ allocated s' root' /\ distinct root'.
Proof.
  intros Al D H.
  assert (Fin : forall lo, (s <= lo)%positive -> (s <= s')%positive ->
                  madeFrom root lo s' root' ->
                  (s <= s')%positive /\ allocated s' root' /\ distinct root').
  { intros lo Hlo Hs M. split; [exact Hs|]. split; [|exact (proj1 M)].
    apply madeFrom_allocated with root lo; [|exact M].
    apply allocated_mono with s; assumption. }
  assert (Ins : forall key data opts hd e nd t,
            insert root (Node s key data 0 0 false nil nil) opts (Pos.succ s)
            = Done (hd, e, nd) t ->
            (s <= t)%positive /\ allocated t hd /\ distinct hd).
  { intros key data opts hd e nd t E.
    destruct (insert_addrs root _ _ _ _ _ _ _ _ _ Al D
                (Pos.lt_succ_diag_r s) E) as (Hs & M).
    split; [lia|]. split; [|exact (proj1 M)].
    apply madeFrom_allocated with root s; [|exact M].
    apply allocated_mono with s; [lia|assumption]. }
  destruct o as [key data|key data eq|key data eq|key data|key];
    cbn [applyOp] in H.
  - unfold Insert, bind, newNode, alloc, bind, ret in H.
    destruct (insert root _ _ _) as [[[hd e] nd] t|] eqn:E; [|discriminate].
    cbn [fst snd] in H. landed H. exact (Ins _ _ _ _ _ _ _ E).
  - unfold Update, bind, newNode, alloc, bind, ret in H.
    destruct (insert root _ _ _) as [[[hd e] nd] t|] eqn:E; [|discriminate].
    cbn [fst snd] in H. landed H. exact (Ins _ _ _ _ _ _ _ E).
  - unfold InsertOrUpdate, bind, newNode, alloc, bind, ret in H.
    destruct (insert root _ _ _) as [[[hd e] nd] t|] eqn:E; [|discriminate].
    cbn [fst snd] in H. destruct e; [discriminate|]. landed H.
    exact (Ins _ _ _ _ _ _ _ E).
  - unfold bind, ret in H.
    destruct (GetOrInsert root key data s) as [[hd res] t|] eqn:E;
      [|discriminate].
    cbn [fst] in H. landed H.
    destruct (GetOrInsert_addrs root _ _ _ _ _ _ Al D E) as (Hs & M).
    exact (Fin s ltac:(lia) Hs M).
  - unfold Delete, bind, ret in H.
    destruct (del root key _ s) as [[hd e] t|] eqn:E; [|discriminate].
    cbn [fst] in H. landed H.
    destruct (del_addrs root _ _ _ _ _ _ Al D E) as (Hs & M).
    exact (Fin s ltac:(lia) Hs M).
Qed.

Lemma runOps_addrs (ops : list (op V)) :
  forall root s roots s',
    allocated s root -> distinct root ->
    runOps root ops s = Done roots s' ->
    (s <= s')%positive
    /\ Forall (fun r => allocated s' r /\ distinct r) roots.
Proof.
  induction ops as [|o ops IH]; intros root s roots s' Al D H;
    cbn [runOps] in H.
  - unfold ret in H. landed H. split; [lia|constructor].
  - unfold bind in H.
    destruct (applyOp root o s) as [root' s1|] eqn:E; [|discriminate].
    destruct (runOps root' ops s1) as [rs s2|] eqn:E'; [|discriminate].
    unfold ret in H. landed H.
    destruct (applyOp_addrs root o s root' s1 Al D E) as (Hs & Al' & D').
    destruct (IH root' s1 rs s2 Al' D' E') as (Hs' & F).
    split; [lia|]. constructor; [|exact F].
    split; [|exact D']. apply allocated_mono with s1; assumption.
Qed.

(** X20. No operation puts a node in two places: starting from the empty
    trie, whenever a sequence of Insert, Update, InsertOrUpdate, GetOrInsert
    and Delete operations runs to its end, the nodes of the root after each
    operation have pairwise different addresses, all handed out before the
    sequence ended; and the sequence runs to its end when Go can compare
    each value it stores with itself. *)
Theorem ops_keep_nodes_apart (ops : list (op V)) s :
  (forall roots s',
      runOps nil ops s = Done roots s' ->
      Forall (fun r => allocated s' r /\ distinct r) roots)
  /\ (Forall (fun o => Data_eqb (opData o) (opData o) <> None) ops ->
      exists roots s',
        runOps nil ops s = Done roots s'
        /\ Forall (fun r => allocated s' r /\ distinct r) roots).
Proof.
  assert (A : forall roots s',
             runOps nil ops s = Done roots s' ->
             Forall (fun r => allocated s' r /\ distinct r) roots).
  { intros roots s' E.
    apply (runOps_addrs ops nil s roots s' I (NoDup_nil _) E). }
  split; [exact A|]. intros Hc.
  destruct (runOps_done ops nil s I Hc) as (roots & s' & E).
  exists roots, s'. split; [exact E|]. now apply A.
Qed.

End TrieExtras.

(** ** Closed instances of the further properties *)

Lemma exChain_good : good exChain.
Proof. split; [exact exChain_shaped | exact exChain_counted]. Qed.

Lemma exChain_allocated : allocated 100%positive exChain.
Proof. repeat split; evaluate. Qed.

Lemma exChain_distinct : distinct exChain.
Proof.
  unfold distinct. cbn [exChain nodes map addrOf app].
  repeat constructor; cbn [In]; intuition discriminate.
Qed.

Lemma eqZ_sym (x y : Data Z) : eqZ x y = eqZ y x.
Proof.
  destruct x as [x|], y as [y|]; try reflexivity.
  unfold eqZ. apply Z.eqb_sym.
Qed.

Lemma compare_classifies_witness :
  compare (ip4 10 0 0 0 24) (ip4 10 0 1 0 24) = (compareDisjoint, false, 23, 1)
  /\ agreeb (Z.min (length (ip4 10 0 0 0 24)) (length (ip4 10 0 1 0 24)))
            (ui (addr (ip4 10 0 0 0 24))) (ui (addr (ip4 10 0 1 0 24))) = false
  /\ false = (length (ip4 10 0 1 0 24) <? length (ip4 10 0 0 0 24)).
Proof.
  assert (E : compare (ip4 10 0 0 0 24) (ip4 10 0 1 0 24)
              = (compareDisjoint, false, 23, 1)) by (vm_compute; reflexivity).
  assert (Wa : wfPrefix (ip4 10 0 0 0 24))
    by (apply wfPrefixb_true; vm_compute; reflexivity).
  assert (Wb : wfPrefix (ip4 10 0 1 0 24))
    by (apply wfPrefixb_true; vm_compute; reflexivity).
  destruct (compare_classifies _ _ Wa Wb _ _ _ _ E) as (_ & _ & _ & D & R).
  split; [exact E|]. split; [exact (proj1 D eq_refl) | exact R].
Defined.

Lemma NumNodes_counts_entries_witness :
  NumNodes exChain = uint32 (numActive exChain)
  /\ (numActive exChain < 2 ^ 32 -> NumNodes exChain = numActive exChain).
Proof. apply (NumNodes_counts_entries exChain). exact exChain_counted. Defined.

Lemma height_is_levels_witness :
  height exChain = levels exChain
  /\ (isNil exChain = false -> levels exChain + length (prefixOf exChain) <= 129).
Proof. apply (height_is_levels exChain). exact exChain_good. Defined.

Lemma Equal_sym_witness :
  Equal exJoin exChain eqZ = Equal exChain exJoin eqZ.
Proof. apply (Equal_sym eqZ). exact eqZ_sym. Defined.

Lemma Insert_refuses_present_witness :
  Insert exChain (ip4 10 0 0 0 24) (Some 7) 100%positive
  = Done (exChain, Some errExists) 101%positive
  /\ exists head s',
      Insert exChain (ip4 10 0 1 0 24) (Some 7) 100%positive
      = Done (head, None) s'.
Proof.
  split.
  - apply (proj1 (Insert_refuses_present
                    exChain (ip4 10 0 0 0 24) (Some 7) 100%positive)).
    vm_compute. reflexivity.
  - apply (proj2 (Insert_refuses_present
                    exChain (ip4 10 0 1 0 24) (Some 7) 100%positive)).
    + vm_compute. reflexivity.
    + exact exChain_comparable.
Defined.

Lemma Update_refuses_absent_witness :
  Update exChain (ip4 10 0 1 0 24) (Some 7) (Some eqZ) 100%positive
  = Done (exChain, Some errNoUpdate) 101%positive
  /\ exists head s',
      Update exChain (ip4 10 0 0 0 24) (Some 7) (Some eqZ) 100%positive
      = Done (head, None) s'.
Proof.
  split.
  - apply (proj1 (Update_refuses_absent
                    exChain (ip4 10 0 1 0 24) (Some 7) eqZ 100%positive)).
    vm_compute. reflexivity.
  - apply (proj2 (Update_refuses_absent
                    exChain (ip4 10 0 0 0 24) (Some 7) eqZ 100%positive)).
    + vm_compute. reflexivity.
    + exact exChain_comparable.
Defined.

Lemma Insert_then_Match_witness :
  exists T' s',
    Insert exChain (ip4 10 0 1 0 24) (Some 7) 100%positive = Done (T', None) s'
    /\ exactHit T' (ip4 10 0 1 0 24) = true
    /\ active (Match T' (ip4 10 0 1 0 24)) = true
    /\ prefixOf (Match T' (ip4 10 0 1 0 24)) = ip4 10 0 1 0 24
    /\ dataOf (Match T' (ip4 10 0 1 0 24)) = Some 7.
Proof.
  eexists. eexists.
  match goal with
  | |- ?E /\ _ => assert (H : E) by (vm_compute; reflexivity)
  end.
  split; [exact H|].
  assert (W : wfPrefix (ip4 10 0 1 0 24))
    by (apply wfPrefixb_true; vm_compute; reflexivity).
  exact (Insert_then_Match _ _ _ _ _ _ exChain_good W exChain_allocated H).
Defined.

Lemma Insert_adds_one_entry_witness :
  exists T' s',
    Insert exChain (ip4 10 1 0 0 16) (Some 8) 100%positive = Done (T', None) s'
    /\ exactHit exChain (ip4 10 1 0 0 16) = false
    /\ Permutation (entries T') ((ip4 10 1 0 0 16, Some 8) :: entries exChain)
    /\ NumNodes T' = uint32 (NumNodes exChain + 1).
Proof.
  eexists. eexists.
  match goal with
  | |- ?E /\ _ => assert (H : E) by (vm_compute; reflexivity)
  end.
  split; [exact H|].
  assert (W : wfPrefix (ip4 10 1 0 0 16))
    by (apply wfPrefixb_true; vm_compute; reflexivity).
  exact (Insert_adds_one_entry _ _ _ _ _ _ exChain_good W exChain_allocated H).
Defined.

Lemma InsertOrUpdate_then_Match_witness :
  exists T' s',
    InsertOrUpdate exChain (ip4 10 0 0 0 32) (Some 7) (Some eqZ) 100%positive
    = Done T' s'
    /\ exactHit T' (ip4 10 0 0 0 32) = true
    /\ prefixOf (Match T' (ip4 10 0 0 0 32)) = ip4 10 0 0 0 32
    /\ dataOf (Match T' (ip4 10 0 0 0 32))
       = (if exactHit exChain (ip4 10 0 0 0 32)
             && eqZ (dataOf (Match exChain (ip4 10 0 0 0 32))) (Some 7)
          then dataOf (Match exChain (ip4 10 0 0 0 32)) else Some 7)
    /\ NumNodes T'
       = uint32 (NumNodes exChain
                 + (if exactHit exChain (ip4 10 0 0 0 32) then 0 else 1)).
Proof.
  eexists. eexists.
  match goal with
  | |- ?E /\ _ => assert (H : E) by (vm_compute; reflexivity)
  end.
  split; [exact H|].
  assert (W : wfPrefix (ip4 10 0 0 0 32))
    by (apply wfPrefixb_true; vm_compute; reflexivity).
  exact (InsertOrUpdate_then_Match _ _ _ eqZ _ _ _ exChain_good W exChain_allocated H).
Defined.

Lemma Update_then_Match_witness :
  exists T' s',
    Update exChain (ip4 10 0 0 0 24) (Some 7) (Some eqZ) 100%positive
    = Done (T', None) s'
    /\ exactHit exChain (ip4 10 0 0 0 24) = true
    /\ exactHit T' (ip4 10 0 0 0 24) = true
    /\ prefixOf (Match T' (ip4 10 0 0 0 24)) = ip4 10 0 0 0 24
    /\ dataOf (Match T' (ip4 10 0 0 0 24))
       = (if eqZ (dataOf (Match exChain (ip4 10 0 0 0 24))) (Some 7)
          then dataOf (Match exChain (ip4 10 0 0 0 24)) else Some 7)
    /\ NumNodes T' = NumNodes exChain.
Proof.
  eexists. eexists.
  match goal with
  | |- ?E /\ _ => assert (H : E) by (vm_compute; reflexivity)
  end.
  split; [exact H|].
  assert (W : wfPrefix (ip4 10 0 0 0 24))
    by (apply wfPrefixb_true; vm_compute; reflexivity).
  exact (Update_then_Match _ _ _ eqZ _ _ _ exChain_good W exChain_allocated H).
Defined.

Lemma Delete_present_succeeds_witness :
  exists T' s',
    Delete exChain (ip4 10 0 0 0 24) 100%positive = Done (T', None) s'.
Proof.
  apply (proj2 (Delete_present_succeeds exChain (ip4 10 0 0 0 24) 100%positive
                  ltac:(vm_compute; reflexivity))).
  exact exChain_comparable.
Defined.

Lemma Delete_removes_entry_witness :
  exists T' s',
    Delete exChain (ip4 10 0 0 0 24) 100%positive = Done (T', None) s'
    /\ exactHit T' (ip4 10 0 0 0 24) = false
    /\ Permutation (entries exChain)
         ((prefixOf (Match exChain (ip4 10 0 0 0 24)),
           dataOf (Match exChain (ip4 10 0 0 0 24))) :: entries T')
    /\ NumNodes T' = uint32 (NumNodes exChain - 1).
Proof.
  apply (Delete_removes_entry exChain (ip4 10 0 0 0 24) 100%positive).
  - exact exChain_good.
  - exact exChain_comparable.
  - apply wfPrefixb_true. vm_compute. reflexivity.
  - exact exChain_allocated.
  - exact exChain_distinct.
  - vm_compute. reflexivity.
Defined.

Lemma Delete_join_is_noop_witness :
  Delete exJoin (ip4 10 0 0 0 23) 100%positive
  = Done (exJoin, None) 101%positive.
Proof.
  apply (Delete_join_is_noop 3%positive (ip4 10 0 0 0 23) 2 2
           (Node 1%positive (ip4 10 0 0 0 24) (Some 1) 1 1 true nil nil)
           (Node 2%positive (ip4 10 0 1 0 24) (Some 2) 1 1 true nil nil)
           (ip4 10 0 0 0 23) 100%positive).
  - repeat split; evaluate.
  - vm_compute. reflexivity.
Defined.

Lemma GetOrInsert_absent_inserts_witness :
  exists T' result s',
    GetOrInsert exChain (ip4 10 0 1 0 24) (Some 7) 100%positive
    = Done (T', result) s'
    /\ Match T' (ip4 10 0 1 0 24) = result
    /\ active result = true /\ prefixOf result = ip4 10 0 1 0 24
    /\ dataOf result = Some 7
    /\ Permutation (entries T') ((ip4 10 0 1 0 24, Some 7) :: entries exChain)
    /\ NumNodes T' = uint32 (NumNodes exChain + 1).
Proof.
  eexists. eexists. eexists.
  match goal with
  | |- ?E /\ _ => assert (H : E) by (vm_compute; reflexivity)
  end.
  split; [exact H|].
  assert (W : wfPrefix (ip4 10 0 1 0 24))
    by (apply wfPrefixb_true; vm_compute; reflexivity).
  assert (A : exactHit exChain (ip4 10 0 1 0 24) = false) by (vm_compute; reflexivity).
  exact (GetOrInsert_absent_inserts _ _ _ _ _ _ _ exChain_good W exChain_allocated A H).
Defined.

Lemma Match_ignores_host_bits_witness :
  Match exChain (ip4 10 0 0 7 24) = Match exChain (ip4 10 0 0 9 24).
Proof.
  apply (Match_ignores_host_bits exChain (ip4 10 0 0 7 24) (ip4 10 0 0 9 24)).
  - exact exChain_shaped.
  - apply wfPrefixb_true. vm_compute. reflexivity.
  - apply wfPrefixb_true. vm_compute. reflexivity.
  - reflexivity.
  - vm_compute. reflexivity.
Defined.

Lemma Match_is_longestEntry_witness :
  entryOf (Match exChain (ip4 10 0 0 1 32))
  = longestEntry (ip4 10 0 0 1 32) (entries exChain).
Proof.
  apply (Match_is_longestEntry exChain (ip4 10 0 0 1 32)).
  - exact exChain_shaped.
  - apply wfPrefixb_true. vm_compute. reflexivity.
Defined.

Lemma Insert_then_Match_any_witness :
  exists T' s',
    Insert exChain (ip4 10 0 1 0 24) (Some 7) 100%positive = Done (T', None) s'
    /\ entryOf (Match T' (ip4 10 0 1 5 32))
       = match entryOf (Match exChain (ip4 10 0 1 5 32)) with
         | Some e =>
             if containsKey (ip4 10 0 1 0 24) (ip4 10 0 1 5 32)
                && (length (fst e) <? length (ip4 10 0 1 0 24))
             then Some (ip4 10 0 1 0 24, Some 7) else Some e
         | None =>
             if containsKey (ip4 10 0 1 0 24) (ip4 10 0 1 5 32)
             then Some (ip4 10 0 1 0 24, Some 7) else None
         end.
Proof.
  eexists. eexists.
  match goal with
  | |- ?E /\ _ => assert (H : E) by (vm_compute; reflexivity)
  end.
  split; [exact H|].
  assert (W : wfPrefix (ip4 10 0 1 0 24))
    by (apply wfPrefixb_true; vm_compute; reflexivity).
  assert (W2 : wfPrefix (ip4 10 0 1 5 32))
    by (apply wfPrefixb_true; vm_compute; reflexivity).
  exact (Insert_then_Match_any _ _ _ _ _ _ _ exChain_good W W2
           exChain_allocated H).
Defined.

Lemma Delete_then_Match_any_witness :
  exists T' s',
    Delete exChain (ip4 10 0 0 0 24) 100%positive = Done (T', None) s'
    /\ (entryOf (Match exChain (ip4 10 0 0 1 32))
        <> entryOf (Match exChain (ip4 10 0 0 0 24)) ->
        entryOf (Match T' (ip4 10 0 0 1 32))
        = entryOf (Match exChain (ip4 10 0 0 1 32)))
    /\ (entryOf (Match exChain (ip4 10 0 0 1 32))
        = entryOf (Match exChain (ip4 10 0 0 0 24)) ->
        match entryOf (Match T' (ip4 10 0 0 1 32)) with
        | Some e => length (fst e) < length (ip4 10 0 0 0 24)
        | None => True
        end).
Proof.
  apply (Delete_then_Match_any exChain (ip4 10 0 0 0 24) 100%positive
           (ip4 10 0 0 1 32)).
  - exact exChain_good.
  - exact exChain_comparable.
  - apply wfPrefixb_true. vm_compute. reflexivity.
  - apply wfPrefixb_true. vm_compute. reflexivity.
  - exact exChain_allocated.
  - exact exChain_distinct.
  - vm_compute. reflexivity.
Defined.

Lemma ops_keep_nodes_apart_witness :
  exists roots s',
    runOps nil exOps 1%positive = Done roots s'
    /\ Forall (fun r => allocated s' r /\ distinct r) roots.
Proof.
  apply (proj2 (ops_keep_nodes_apart exOps 1%positive)).
  repeat constructor; vm_compute; discriminate.
Defined.
